(** * Fibonacci heap (fheap.go): shallow embedding and verification

    The Go package keeps its entries in a pointer graph: circular doubly
    linked sibling rings, parent and child pointers.  The embedding keeps
    that graph: a store of entries addressed by pointers, a store of
    [FibHeap] objects, and the functions of fheap.go written as state
    transformers over both stores.  A nil dereference is the outcome
    [Panic]; the loops and the recursion of the source take a fuel
    argument and the outcome [OutOfFuel] says that the fuel was too small. *)

From Stdlib Require Import ZArith String FunctionalExtensionality.
From stdpp Require Import gmap list sorting functions.

Local Open Scope Z_scope.

(** ** Priorities

    [Priority] is a Go [float64].  The source only compares priorities
    ([<], [<=], [>]) and writes the constant [math.Inf(-1)], so the model
    keeps the order of the IEEE values: the finite values (as the integer
    rank they have in that order), the two infinities, and NaN, which
    compares false with everything. *)

Inductive float64 : Type :=
  | NaN
  | NInf
  | Fin (z : Z)
  | PInf.

#[global] Instance float64_eq_dec : EqDecision float64.
Proof. solve_decision. Defined.

(** [a < b] on float64. *)
Definition f_ltb (a b : float64) : bool :=
  match a, b with
  | NaN, _ | _, NaN => false
  | _, NInf => false
  | NInf, _ => true
  | PInf, _ => false
  | Fin x, Fin y => Z.ltb x y
  | Fin _, PInf => true
  end.

(** [a <= b] on float64. *)
Definition f_leb (a b : float64) : bool :=
  match a, b with
  | NaN, _ | _, NaN => false
  | NInf, _ => true
  | _, NInf => false
  | _, PInf => true
  | PInf, _ => false
  | Fin x, Fin y => Z.leb x y
  end.

(** [a > b] on float64. *)
Definition f_gtb (a b : float64) : bool := f_ltb b a.

(** [math.Inf(-1)]. *)
Definition math_Inf_neg : float64 := NInf.

(** ** Machine integers

    [degree] and [size] are Go [int]s: 64 bits, two's complement, and
    arithmetic that wraps around silently. *)

Definition int_lim : Z := 2 ^ 63.

Definition int_wrap (z : Z) : Z := (z + int_lim) mod (2 * int_lim) - int_lim.

Definition int_add (a b : Z) : Z := int_wrap (a + b).

Definition int_sub (a b : Z) : Z := int_wrap (a - b).

(** ** Entries, heaps and the two stores *)

(** A [*Entry]: [None] is nil. *)
Abbreviation ptr := (option nat).

(** A [*FibHeap]. *)
Abbreviation hptr := nat.

Record Entry : Type := mkEntry {
  degree : Z;
  marked : bool;
  next : ptr;
  prev : ptr;
  parent : ptr;
  child : ptr;
  Element : string;
  Priority : float64
}.

(** The fields [min] and [size] of the Go struct. *)
Record FibHeap : Type := mkFibHeap {
  heap_min : ptr;
  heap_size : Z
}.

Record world : Type := mkWorld {
  entries : gmap nat Entry;
  heaps : gmap nat FibHeap
}.

Definition empty_world : world := mkWorld ∅ ∅.

Inductive result (A : Type) : Type :=
  | Ok (a : A)
  | Panic
  | OutOfFuel.

Arguments Ok {A} a.

Arguments Panic {A}.

Arguments OutOfFuel {A}.

(** State and failure monad of the embedding. *)
Definition M (A : Type) : Type := world → result (A * world).

Definition ret {A} (a : A) : M A := λ w, Ok (a, w).

Definition bind {A B} (c : M A) (k : A → M B) : M B :=
  λ w, match c w with
       | Ok (a, w') => k a w'
       | Panic => Panic
       | OutOfFuel => OutOfFuel
       end.

Definition panic {A} : M A := λ _, Panic.

Definition out_of_fuel {A} : M A := λ _, OutOfFuel.

Notation "'let*' x ':=' c 'in' k" := (bind c (λ x, k))
  (at level 10, x name, c at level 100, k at level 200).

Notation "c ;;; k" := (bind c (λ _, k))
  (at level 100, right associativity).

(** Field setters. *)
Definition with_degree (v : Z) (e : Entry) : Entry :=
  mkEntry v (marked e) (next e) (prev e) (parent e) (child e) (Element e) (Priority e).

Definition with_marked (v : bool) (e : Entry) : Entry :=
  mkEntry (degree e) v (next e) (prev e) (parent e) (child e) (Element e) (Priority e).

Definition with_next (v : ptr) (e : Entry) : Entry :=
  mkEntry (degree e) (marked e) v (prev e) (parent e) (child e) (Element e) (Priority e).

Definition with_prev (v : ptr) (e : Entry) : Entry :=
  mkEntry (degree e) (marked e) (next e) v (parent e) (child e) (Element e) (Priority e).

Definition with_parent (v : ptr) (e : Entry) : Entry :=
  mkEntry (degree e) (marked e) (next e) (prev e) v (child e) (Element e) (Priority e).

Definition with_child (v : ptr) (e : Entry) : Entry :=
  mkEntry (degree e) (marked e) (next e) (prev e) (parent e) v (Element e) (Priority e).

Definition with_Priority (v : float64) (e : Entry) : Entry :=
  mkEntry (degree e) (marked e) (next e) (prev e) (parent e) (child e) (Element e) v.

Definition with_min (v : ptr) (f : FibHeap) : FibHeap := mkFibHeap v (heap_size f).

Definition with_size (v : Z) (f : FibHeap) : FibHeap := mkFibHeap (heap_min f) v.

(** [p.fld]: reading through a nil pointer panics. *)
Definition load {A} (fld : Entry → A) (p : ptr) : M A :=
  λ w, match p with
       | None => Panic
       | Some a => match entries w !! a with
                   | Some e => Ok (fld e, w)
                   | None => Panic
                   end
       end.

(** [p.fld = v], as an update [upd] of the entry. *)
Definition store (upd : Entry → Entry) (p : ptr) : M unit :=
  λ w, match p with
       | None => Panic
       | Some a => match entries w !! a with
                   | Some _ => Ok (tt, mkWorld (alter upd a (entries w)) (heaps w))
                   | None => Panic
                   end
       end.

Definition hload {A} (fld : FibHeap → A) (f : hptr) : M A :=
  λ w, match heaps w !! f with
       | Some h => Ok (fld h, w)
       | None => Panic
       end.

Definition hstore (upd : FibHeap → FibHeap) (f : hptr) : M unit :=
  λ w, match heaps w !! f with
       | Some _ => Ok (tt, mkWorld (entries w) (alter upd f (heaps w)))
       | None => Panic
       end.

(** [&Entry{...}]: a fresh address. *)
Definition alloc (e : Entry) : M nat :=
  λ w, let a := fresh (dom (entries w)) in
       Ok (a, mkWorld (<[a := e]> (entries w)) (heaps w)).

(** [&FibHeap{}] and [FibHeap{}]: a fresh heap object, zero valued. *)
Definition NewFibHeap : M hptr :=
  λ w, let f := fresh (dom (heaps w)) in
       Ok (f, mkWorld (entries w) (<[f := mkFibHeap None 0]> (heaps w))).

(** ** The functions of fheap.go *)

Definition newEntry (element : string) (priority : float64) : M ptr :=
  let* a := alloc (mkEntry 0 false None None None None element priority) in
  let e := Some a in
  store (with_next e) e ;;;
  store (with_prev e) e ;;;
  ret e.

(** The body of [checkPriority] is empty in the source. *)
Definition checkPriority (f : hptr) (priority : float64) : M unit := ret tt.

Definition mergeLists (one two : ptr) : M ptr :=
  match one, two with
  | None, None => ret None
  | Some _, None => ret one
  | None, Some _ => ret two
  | Some _, Some _ =>
      let* oneNext := load next one in
      let* twoNext := load next two in
      store (with_next twoNext) one ;;;
      let* on := load next one in
      store (with_prev one) on ;;;
      store (with_next oneNext) two ;;;
      let* tn := load next two in
      store (with_prev two) tn ;;;
      let* p1 := load Priority one in
      let* p2 := load Priority two in
      ret (if f_ltb p1 p2 then one else two)
  end.

Definition Enqueue (f : hptr) (element : string) (priority : float64) : M ptr :=
  checkPriority f priority ;;;
  let* result := newEntry element priority in
  let* m := hload heap_min f in
  let* r := mergeLists m result in
  hstore (with_min r) f ;;;
  let* s := hload heap_size f in
  hstore (with_size (int_add s 1)) f ;;;
  ret result.

Definition Min (f : hptr) : M ptr := hload heap_min f.

Definition Len (f : hptr) : M Z := hload heap_size f.

Definition MergeFibHeap (one two : hptr) : M hptr :=
  let* result := NewFibHeap in
  let* m1 := hload heap_min one in
  let* m2 := hload heap_min two in
  let* r := mergeLists m1 m2 in
  hstore (with_min r) result ;;;
  let* s1 := hload heap_size one in
  let* s2 := hload heap_size two in
  hstore (with_size (int_add s1 s2)) result ;;;
  hstore (with_min None) one ;;;
  hstore (with_min None) two ;;;
  hstore (with_size 0) one ;;;
  hstore (with_size 0) two ;;;
  ret result.

(** The loop of [DequeueMin] that clears the parent of every child of the
    removed entry. *)
Fixpoint clearParents (fuel : nat) (minElem curr : ptr) : M unit :=
  match fuel with
  | O => out_of_fuel
  | S fuel =>
      store (with_parent None) curr ;;;
      let* curr := load next curr in
      let* c := load child minElem in
      if decide (curr = c) then ret tt else clearParents fuel minElem curr
  end.

(** The loop that fills [toVisit] with the roots. *)
Fixpoint collectRoots (fuel : nat) (toVisit : list ptr) (curr : ptr) : M (list ptr) :=
  match fuel with
  | O => out_of_fuel
  | S fuel =>
      if bool_decide (length toVisit = 0%nat) || negb (bool_decide (toVisit !! 0%nat = Some curr))
      then
        let* nxt := load next curr in
        collectRoots fuel (toVisit ++ [curr]) nxt
      else ret toVisit
  end.

(** [for curr.degree >= len(treeTable) { treeTable = append(treeTable, nil) }] *)
Definition growTable (treeTable : list ptr) (d : Z) : list ptr :=
  treeTable ++ replicate (Z.to_nat (d + 1 - Z.of_nat (length treeTable))) None.

(** [treeTable[d]]: an index out of range panics. *)
Definition tableGet (treeTable : list ptr) (d : Z) : M ptr :=
  if decide (d < 0) then panic
  else match treeTable !! Z.to_nat d with
       | Some p => ret p
       | None => panic
       end.

(** [treeTable[d] = v] *)
Definition tableSet (treeTable : list ptr) (d : Z) (v : ptr) : M (list ptr) :=
  if decide (d < 0) then panic
  else if decide (Z.to_nat d < length treeTable)%nat
       then ret (<[Z.to_nat d := v]> treeTable)
       else panic.

(** The inner [for] of the consolidation: merges [curr] with the recorded
    tree of the same degree until its slot is free.  Returns the table and
    the final [curr]. *)
Fixpoint mergeLoop (fuel : nat) (treeTable : list ptr) (curr : ptr)
  : M (list ptr * ptr) :=
  match fuel with
  | O => out_of_fuel
  | S fuel =>
      let* d := load degree curr in
      let treeTable := growTable treeTable d in
      let* slot := tableGet treeTable d in
      match slot with
      | None =>
          let* treeTable := tableSet treeTable d curr in
          ret (treeTable, curr)
      | Some _ =>
          let* d := load degree curr in
          let* other := tableGet treeTable d in
          let* d := load degree curr in
          let* treeTable := tableSet treeTable d None in
          let* po := load Priority other in
          let* pc := load Priority curr in
          let min := if f_ltb po pc then other else curr in
          let max := if f_ltb po pc then curr else other in
          let* mn := load next max in
          let* mp := load prev max in
          store (with_prev mp) mn ;;;
          let* mp := load prev max in
          let* mn := load next max in
          store (with_next mn) mp ;;;
          store (with_next max) max ;;;
          store (with_prev max) max ;;;
          let* mc := load child min in
          let* r := mergeLists mc max in
          store (with_child r) min ;;;
          store (with_parent min) max ;;;
          store (with_marked false) max ;;;
          let* dm := load degree min in
          store (with_degree (int_add dm 1)) min ;;;
          mergeLoop fuel treeTable min
      end
  end.

(** [for _, curr := range toVisit { ... }] *)
Fixpoint consolidate (fuel : nat) (f : hptr) (toVisit : list ptr) (treeTable : list ptr)
  : M unit :=
  match toVisit with
  | [] => ret tt
  | curr :: toVisit =>
      let* tc := mergeLoop fuel treeTable curr in
      let treeTable := tc.1 in
      let curr := tc.2 in
      let* pc := load Priority curr in
      let* m := hload heap_min f in
      let* pm := load Priority m in
      (if f_leb pc pm then hstore (with_min curr) f else ret tt) ;;;
      consolidate fuel f toVisit treeTable
  end.

Definition DequeueMin (fuel : nat) (f : hptr) : M ptr :=
  let* s := hload heap_size f in
  if decide (s = 0) then ret None
  else
    hstore (with_size (int_sub s 1)) f ;;;
    let* minElem := hload heap_min f in
    let* m := hload heap_min f in
    let* mnext := load next m in
    (if decide (mnext = m) then hstore (with_min None) f
     else
       let* mp := load prev m in
       let* mn := load next m in
       store (with_next mn) mp ;;;
       let* mn := load next m in
       let* mp := load prev m in
       store (with_prev mp) mn ;;;
       let* mn := load next m in
       hstore (with_min mn) f) ;;;
    let* c := load child minElem in
    (if decide (c ≠ None) then clearParents fuel minElem c else ret tt) ;;;
    let* m := hload heap_min f in
    let* c := load child minElem in
    let* r := mergeLists m c in
    hstore (with_min r) f ;;;
    let* m := hload heap_min f in
    if decide (m = None) then ret minElem
    else
      let* toVisit := collectRoots fuel [] m in
      consolidate fuel f toVisit [] ;;;
      ret minElem.

Fixpoint cutNode (fuel : nat) (f : hptr) (e : ptr) : M unit :=
  match fuel with
  | O => out_of_fuel
  | S fuel =>
      store (with_marked false) e ;;;
      let* p := load parent e in
      if decide (p = None) then ret tt
      else
        let* n := load next e in
        (if decide (n ≠ e) then
           let* n := load next e in
           let* ep := load prev e in
           store (with_prev ep) n ;;;
           let* ep := load prev e in
           let* n := load next e in
           store (with_next n) ep
         else ret tt) ;;;
        let* p := load parent e in
        let* pc := load child p in
        (if decide (pc = e) then
           let* n := load next e in
           if decide (n ≠ e) then
             let* p := load parent e in
             let* n := load next e in
             store (with_child n) p
           else
             let* p := load parent e in
             store (with_child None) p
         else ret tt) ;;;
        let* p := load parent e in
        let* d := load degree p in
        store (with_degree (int_sub d 1)) p ;;;
        store (with_prev e) e ;;;
        store (with_next e) e ;;;
        let* m := hload heap_min f in
        let* r := mergeLists m e in
        hstore (with_min r) f ;;;
        let* p := load parent e in
        let* pm := load marked p in
        (if pm then
           let* p := load parent e in
           cutNode fuel f p
         else
           let* p := load parent e in
           store (with_marked true) p) ;;;
        store (with_parent None) e
  end.

Definition decreaseKeyUnchecked (fuel : nat) (f : hptr) (e : ptr) (priority : float64)
  : M unit :=
  store (with_Priority priority) e ;;;
  let* p := load parent e in
  let* cut := (if decide (p ≠ None) then
                 let* pe := load Priority e in
                 let* p := load parent e in
                 let* pp := load Priority p in
                 ret (f_leb pe pp)
               else ret false) in
  (if cut then cutNode fuel f e else ret tt) ;;;
  let* pe := load Priority e in
  let* m := hload heap_min f in
  let* pm := load Priority m in
  if f_leb pe pm then hstore (with_min e) f else ret tt.

(** The value of the Go [error]: [None] is nil. *)
Inductive error : Type := ErrorExceedsPriority.

Definition DecreaseKey (fuel : nat) (f : hptr) (e : ptr) (newPriority : float64)
  : M (option error) :=
  checkPriority f newPriority ;;;
  let* pe := load Priority e in
  if f_gtb newPriority pe then ret (Some ErrorExceedsPriority)
  else
    decreaseKeyUnchecked fuel f e newPriority ;;;
    ret None.

Definition Delete (fuel : nat) (f : hptr) (e : ptr) : M unit :=
  decreaseKeyUnchecked fuel f e math_Inf_neg ;;;
  DequeueMin fuel f ;;;
  ret tt.

(** ** Views of the entry store

    The proofs read the store through one total function per field. *)

Definition upd (a : nat) (u : Entry → Entry) (w : world) : world :=
  mkWorld (alter u a (entries w)) (heaps w).

Definition hupd (f : hptr) (u : FibHeap → FibHeap) (w : world) : world :=
  mkWorld (entries w) (alter u f (heaps w)).

Definition fld_of {A} (d : A) (fld : Entry → A) (w : world) (a : nat) : A :=
  from_option fld d (entries w !! a).

Abbreviation vN := (fld_of None next).

Abbreviation vP := (fld_of None prev).

Abbreviation vPar := (fld_of None parent).

Abbreviation vCh := (fld_of None child).

Abbreviation vDeg := (fld_of 0 degree).

Abbreviation vMk := (fld_of false marked).

Abbreviation vPri := (fld_of NaN Priority).

Definition allocd (w : world) (a : nat) : Prop := a ∈ dom (entries w).

(** ** Circular doubly linked rings *)

(** [x.next == y] and [y.prev == x]. *)
Definition link (N P : nat → ptr) (x y : nat) : Prop := N x = Some y ∧ P y = Some x.

Fixpoint path (N P : nat → ptr) (x : nat) (l : list nat) : Prop :=
  match l with
  | [] => True
  | y :: l' => link N P x y ∧ path N P y l'
  end.

(** The entries of [l], in this order and without repetition, are one
    ring: each is linked to the next and the last to the first. *)
Definition ring (N P : nat → ptr) (l : list nat) : Prop :=
  match l with
  | [] => True
  | x :: l' => NoDup l ∧ path N P x (l' ++ [x])
  end.

(** The sources of the links of a path. *)
Fixpoint srcs (x : nat) (l : list nat) : list nat :=
  match l with
  | [] => []
  | y :: l' => x :: srcs y l'
  end.

Definition ins (a : nat) (e : Entry) (w : world) : world :=
  mkWorld (<[a := e]> (entries w)) (heaps w).

(** ** The heap invariant *)

Inductive reach_root (Par : nat → ptr) : nat → nat → Prop :=
  | reach_root_here n x : Par x = None → reach_root Par n x
  | reach_root_step n x p : Par x = Some p → reach_root Par n p → reach_root Par (S n) x.

Record Inv (N P Par Ch : nat → ptr) (Deg : nat → Z) (Pri : nat → float64)
    (E L : gset nat) (R : list nat) (K : nat → list nat) : Prop := mkInv {
  inv_rring : ring N P R;
  inv_roots : ∀ x, x ∈ R ↔ x ∈ L ∧ Par x = None;
  inv_kring : ∀ p, p ∈ L → ring N P (K p);
  inv_kids : ∀ p x, p ∈ L → x ∈ K p ↔ x ∈ L ∧ Par x = Some p;
  inv_child : ∀ p, p ∈ L → Ch p = list.head (K p);
  inv_deg : ∀ p, p ∈ L → Deg p = Z.of_nat (length (K p));
  inv_par : ∀ x p, x ∈ L → Par x = Some p → p ∈ L;
  inv_ord : ∀ x p, x ∈ L → x ∉ E → Par x = Some p → f_leb (Pri p) (Pri x) = true;
  inv_acyc : ∀ x, x ∈ L → ∃ n, reach_root Par n x;
  inv_nan : ∀ x, x ∈ L → Pri x ≠ NaN;
  inv_bound : Z.of_nat (size L) < int_lim
}.

Definition minimal (Pri : nat → float64) (R : list nat) : Prop :=
  match R with
  | [] => True
  | r :: _ => ∀ x, x ∈ R → f_leb (Pri r) (Pri x) = true
  end.

Definition hmin (w : world) (f : hptr) : ptr := from_option heap_min None (heaps w !! f).

Definition hsize (w : world) (f : hptr) : Z := from_option heap_size 0 (heaps w !! f).

Definition halloc (w : world) (f : hptr) : Prop := f ∈ dom (heaps w).

Record HeapInv (w : world) (f : hptr) (L : gset nat) (R : list nat) (K : nat → list nat)
  : Prop := mkHeapInv {
  hi_halloc : halloc w f;
  hi_alloc : ∀ x, x ∈ L → allocd w x;
  hi_size : hsize w f = Z.of_nat (size L);
  hi_min : hmin w f = list.head R;
  hi_minimal : minimal (vPri w) R;
  hi_inv : Inv (vN w) (vP w) (vPar w) (vCh w) (vDeg w) (vPri w) ∅ L R K
}.

Definition enq_world (f : hptr) (element : string) (priority : float64) (w : world) : world :=
  let a := fresh (dom (entries w)) in
  upd a (with_prev (Some a)) (upd a (with_next (Some a))
    (ins a (mkEntry 0 false None None None None element priority) w)).

(** ** Cutting a node from its parent *)

Inductive anc (Par : nat → ptr) : nat → nat → Prop :=
  | anc_refl x : anc Par x x
  | anc_step x p y : Par x = Some p → anc Par p y → anc Par x y.

Record CutInv (w : world) (f : hptr) (Par : nat → ptr) (E L : gset nat)
    (R : list nat) (K : nat → list nat) : Prop := mkCutInv {
  ci_halloc : halloc w f;
  ci_alloc : ∀ x, x ∈ L → allocd w x;
  ci_min : hmin w f = list.head R;
  ci_minimal : minimal (vPri w) R;
  ci_inv : Inv (vN w) (vP w) Par (vCh w) (vDeg w) (vPri w) E L R K
}.

(** What an operation on heap [f] with entries [L] leaves alone. *)
Definition frame_ok (L : gset nat) (f : hptr) (w w' : world) : Prop :=
  (∀ x, x ∉ L → entries w' !! x = entries w !! x) ∧
  (∀ x, allocd w' x ↔ allocd w x) ∧
  (∀ g, g ≠ f → heaps w' !! g = heaps w !! g) ∧
  (∀ g, halloc w' g ↔ halloc w g).

Definition cut_N (N : nat → ptr) (e y z r yr : nat) : nat → ptr :=
  <[e := Some yr]> (<[r := Some e]> (<[e := Some e]>
    (if decide (y = e) then N else <[z := Some y]> N))).

Definition cut_P (P : nat → ptr) (e y z r yr : nat) : nat → ptr :=
  <[yr := Some e]> (<[e := Some r]> (<[e := Some e]>
    (if decide (y = e) then P else <[y := Some z]> P))).

(** Everything but the parent pointers is kept. *)
Definition keeps (w w' : world) : Prop :=
  vN w' = vN w ∧ vP w' = vP w ∧ vCh w' = vCh w ∧ vDeg w' = vDeg w ∧
  vPri w' = vPri w ∧ vMk w' = vMk w ∧ hmin w' = hmin w ∧ hsize w' = hsize w.

(** Everything but the sibling links is kept. *)
Definition keeps_data (w w' : world) : Prop :=
  vPar w' = vPar w ∧ vCh w' = vCh w ∧ vDeg w' = vDeg w ∧
  vPri w' = vPri w ∧ vMk w' = vMk w ∧ hmin w' = hmin w ∧ hsize w' = hsize w.

Definition in_tbl (T : list ptr) (t : nat) : Prop := ∃ i, T !! i = Some (Some t).

Definition tbl_ok (Deg : nat → Z) (Rc : list nat) (T : list ptr) : Prop :=
  ∀ i t, T !! i = Some (Some t) → t ∈ Rc ∧ Deg t = Z.of_nat i.

Record ConsInv (w : world) (f : hptr) (L : gset nat) (Rc : list nat)
    (K : nat → list nat) (T : list ptr) : Prop := mkConsInv {
  co_halloc : halloc w f;
  co_alloc : ∀ x, x ∈ L → allocd w x;
  co_inv : Inv (vN w) (vP w) (vPar w) (vCh w) (vDeg w) (vPri w) ∅ L Rc K;
  co_tbl : tbl_ok (vDeg w) Rc T
}.

(** The roots have pairwise different degrees. *)
Definition distinct_degrees (Deg : nat → Z) (R : list nat) : Prop :=
  ∀ x y, x ∈ R → y ∈ R → x ≠ y → Deg x ≠ Deg y.

Definition opt_set (p : ptr) : gset nat :=
  match p with
  | Some a => {[a]}
  | None => ∅
  end.

Definition hins (f : hptr) (v : FibHeap) (w : world) : world :=
  mkWorld (entries w) (<[f := v]> (heaps w)).

(** ** More fuel gives the same result *)

Definition le_run {A} (c c' : M A) : Prop := ∀ w, c w ≠ OutOfFuel → c' w = c w.

(** ** Reachable states

    A client calls the public functions one after the other, starting with
    no heap and no entry.  The ghost component records, for every heap, the
    entries that were enqueued into it and have not left it. *)

Abbreviation ghost := (hptr → gset nat).

Inductive op : Type :=
  | ONew
  | OEnqueue (h : hptr) (el : string) (pr : float64)
  | OMin (h : hptr)
  | OLen (h : hptr)
  | ODequeueMin (h : hptr)
  | ODecreaseKey (h : hptr) (e : nat) (pr : float64)
  | ODelete (h : hptr) (e : nat)
  | OMerge (h1 h2 : hptr).

Inductive step : op → world → ghost → world → ghost → Prop :=
  | step_New w G h w' :
      NewFibHeap w = Ok (h, w') →
      step ONew w G w' G
  | step_Enqueue w G h el pr r w' :
      halloc w h → pr ≠ NaN →
      Z.of_nat (size (dom (entries w))) + 1 < int_lim →
      Enqueue h el pr w = Ok (r, w') →
      step (OEnqueue h el pr) w G w' (<[h := G h ∪ opt_set r]> G)
  | step_Min w G h r w' :
      halloc w h → Min h w = Ok (r, w') →
      step (OMin h) w G w' G
  | step_Len w G h n w' :
      halloc w h → Len h w = Ok (n, w') →
      step (OLen h) w G w' G
  | step_DequeueMin w G h fuel r w' :
      halloc w h → DequeueMin fuel h w = Ok (r, w') →
      step (ODequeueMin h) w G w' (<[h := G h ∖ opt_set r]> G)
  | step_DecreaseKey w G h fuel e pr r w' :
      halloc w h → e ∈ G h → pr ≠ NaN →
      DecreaseKey fuel h (Some e) pr w = Ok (r, w') →
      step (ODecreaseKey h e pr) w G w' G
  | step_Delete w G h fuel e w' :
      halloc w h → e ∈ G h →
      Delete fuel h (Some e) w = Ok (tt, w') →
      step (ODelete h e) w G w' (<[h := G h ∖ {[e]}]> G)
  | step_Merge w G h1 h2 h3 w' :
      halloc w h1 → halloc w h2 → h1 ≠ h2 →
      MergeFibHeap h1 h2 w = Ok (h3, w') →
      step (OMerge h1 h2) w G w' (<[h3 := G h1 ∪ G h2]> (<[h1 := ∅]> (<[h2 := ∅]> G))).

Inductive reach : list op → world → ghost → Prop :=
  | reach_nil : reach [] empty_world (λ _, ∅)
  | reach_snoc ops o w G w' G' :
      reach ops w G → step o w G w' G' → reach (ops ++ [o]) w' G'.

(** The invariant of the reachable states. *)
Record WInv (w : world) (G : ghost) : Prop := mkWInv {
  wi_heap : ∀ h, halloc w h → ∃ R K, HeapInv w h (G h) R K;
  wi_none : ∀ h, ¬ halloc w h → G h = ∅;
  wi_disj : ∀ h1 h2, h1 ≠ h2 → G h1 ## G h2;
  wi_bound : Z.of_nat (size (dom (entries w))) < int_lim
}.

(** ** A client that empties a heap

    [for e := f.DequeueMin(); e != nil; e = f.DequeueMin() { l = append(l, e) }],
    the loop of the package's tests and of the usage example. *)
Fixpoint drain (k fuel : nat) (f : hptr) : M (list nat) :=
  match k with
  | O => out_of_fuel
  | S k =>
      let* r := DequeueMin fuel f in
      match r with
      | None => ret []
      | Some e => let* l := drain k fuel f in ret (e :: l)
      end
  end.

(** Priority order on entries, as stored in the world [w]. *)
Definition pri_le (w : world) (a b : nat) : Prop := f_leb (vPri w a) (vPri w b) = true.

(** ** Marks *)

Definition cut_free (o : op) : bool :=
  match o with
  | ODecreaseKey _ _ _ | ODelete _ _ => false
  | _ => true
  end.

(** ** A run of the package

    Two heaps; [a], [b] and [c] enter the first with priorities 1, 2, 3, and
    one [DequeueMin] takes [a] out and links [c] under [b]. *)

Definition world_of {A} (r : result (A * world)) : world :=
  match r with
  | Ok (_, w) => w
  | _ => empty_world
  end.

Definition ex_w1 : world := world_of (NewFibHeap empty_world).

Definition ex_w2 : world := world_of (NewFibHeap ex_w1).

Definition ex_w3 : world := world_of (Enqueue 0%nat "a" (Fin 1) ex_w2).

Definition ex_w4 : world := world_of (Enqueue 0%nat "b" (Fin 2) ex_w3).

Definition ex_w5 : world := world_of (Enqueue 0%nat "c" (Fin 3) ex_w4).

Definition ex_w6 : world := world_of (DequeueMin 5 0%nat ex_w5).

Definition ex_w7 : world := world_of (DecreaseKey 5 0%nat (Some 2%nat) (Fin 0) ex_w6).

Definition ex_G0 : ghost := λ _, ∅.

Definition ex_G3 : ghost := <[0%nat := ex_G0 0%nat ∪ opt_set (Some 0%nat)]> ex_G0.

Definition ex_G4 : ghost := <[0%nat := ex_G3 0%nat ∪ opt_set (Some 1%nat)]> ex_G3.

Definition ex_G5 : ghost := <[0%nat := ex_G4 0%nat ∪ opt_set (Some 2%nat)]> ex_G4.

Definition ex_G6 : ghost := <[0%nat := ex_G5 0%nat ∖ opt_set (Some 0%nat)]> ex_G5.

Definition ex_ops5 : list op :=
  [ONew; ONew; OEnqueue 0%nat "a" (Fin 1); OEnqueue 0%nat "b" (Fin 2);
   OEnqueue 0%nat "c" (Fin 3)].

Definition ex_ops : list op := ex_ops5 ++ [ODequeueMin 0%nat].

(** ** What the functions never touch

    These facts hold in any state, well formed or not: they follow the
    stores of the code. *)

(** Every run of [c] that returns relates the state before to the state
    after. *)
Definition preserves (Rel : world → world → Prop) {A} (c : M A) : Prop :=
  ∀ w x w', c w = Ok (x, w') → Rel w w'.

(** A relation that writes of [next] and [prev] keep. *)
Record link_rel (Rel : world → world → Prop) : Prop := mkLinkRel {
  lr_refl : ∀ w, Rel w w;
  lr_trans : ∀ w1 w2 w3, Rel w1 w2 → Rel w2 w3 → Rel w1 w3;
  lr_next : ∀ w a v, Rel w (upd a (with_next v) w);
  lr_prev : ∀ w a v, Rel w (upd a (with_prev v) w)
}.

(** A relation that the stores of the functions working on heap [f] keep:
    writes of the link, tree and degree fields, clearing a mark, and writes
    of the heap object [f]. *)
Record frame_rel (f : hptr) (Rel : world → world → Prop) : Prop := mkFrameRel {
  fr_refl : ∀ w, Rel w w;
  fr_trans : ∀ w1 w2 w3, Rel w1 w2 → Rel w2 w3 → Rel w1 w3;
  fr_next : ∀ w a v, Rel w (upd a (with_next v) w);
  fr_prev : ∀ w a v, Rel w (upd a (with_prev v) w);
  fr_parent : ∀ w a v, Rel w (upd a (with_parent v) w);
  fr_child : ∀ w a v, Rel w (upd a (with_child v) w);
  fr_degree : ∀ w a v, Rel w (upd a (with_degree v) w);
  fr_unmark : ∀ w a, Rel w (upd a (with_marked false) w);
  fr_heap : ∀ w u, Rel w (hupd f u w)
}.

(** Every entry of [w] is an entry of [w'], changed at most as [Q] allows. *)
Definition evolves (Q : nat → Entry → Entry → Prop) (w w' : world) : Prop :=
  ∀ a e, entries w !! a = Some e → ∃ e', entries w' !! a = Some e' ∧ Q a e e'.

(** The heap objects other than [f] are as they were. *)
Definition hframe (f : hptr) (w w' : world) : Prop :=
  ∀ g, g ≠ f → heaps w' !! g = heaps w !! g.

(** No entry and no heap object is created or lost. *)
Definition same_dom (w w' : world) : Prop :=
  dom (entries w') = dom (entries w) ∧ dom (heaps w') = dom (heaps w).

(** All fields but [next] and [prev] agree. *)
Definition same_but_links (e e' : Entry) : Prop :=
  degree e' = degree e ∧ marked e' = marked e ∧ parent e' = parent e ∧
  child e' = child e ∧ Element e' = Element e ∧ Priority e' = Priority e.

(** The payload agrees, and a mark is not set. *)
Definition same_payload (e e' : Entry) : Prop :=
  Element e' = Element e ∧ Priority e' = Priority e ∧
  (marked e' = true → marked e = true).

(** The element of an entry agrees, and its priority unless it is [e0]. *)
Definition same_elem_but (e0 : nat) (a : nat) (e e' : Entry) : Prop :=
  Element e' = Element e ∧ (a ≠ e0 → Priority e' = Priority e).

(** Element and priority agree. *)
Definition same_elem_pri (e e' : Entry) : Prop :=
  Element e' = Element e ∧ Priority e' = Priority e.

(** The heap objects are as they were. *)
Definition same_heaps (w w' : world) : Prop := heaps w' = heaps w.

(** ** The example: enqueue everything, then empty the heap *)

Abbreviation vEl := (fld_of EmptyString Element).

(** [for ... { h.Enqueue(element, priority) }] over the items in order. *)
Fixpoint enqueue_all (f : hptr) (items : list (string * float64)) : M unit :=
  match items with
  | [] => ret tt
  | it :: items => Enqueue f it.1 it.2 ;;; enqueue_all f items
  end.

(** [for x := h.DequeueMin(); x != nil; x = h.DequeueMin() {
       fmt.Println("Min", x.Element) }]: the elements printed. *)
Fixpoint drain_print (k fuel : nat) (f : hptr) : M (list string) :=
  match k with
  | O => out_of_fuel
  | S k =>
      let* x := DequeueMin fuel f in
      match x with
      | None => ret []
      | Some _ =>
          let* el := load Element x in
          let* out := drain_print k fuel f in
          ret (el :: out)
      end
  end.

(** [h := FibHeap{}], the enqueue loop, the printing loop. *)
Definition Example_fHeap (items : list (string * float64)) (k fuel : nat)
  : M (list string) :=
  let* h := NewFibHeap in
  enqueue_all h items ;;;
  drain_print k fuel h.

(** [for i := 0; i < n; i++ { h.DequeueMin() }], the second loop of the
    push-pop benchmark. *)
Fixpoint dequeue_n (n fuel : nat) (f : hptr) : M unit :=
  match n with
  | O => ret tt
  | S n => DequeueMin fuel f ;;; dequeue_n n fuel f
  end.

Definition ex_w8 : world := world_of (Delete 5 0%nat (Some 2%nat) ex_w6).

Definition ex_w9 : world := world_of (MergeFibHeap 0%nat 1%nat ex_w6).

Definition ex_items : list (string * float64) :=
  [("a"%string, Fin 5); ("b"%string, Fin 3); ("c"%string, Fin 8); ("d"%string, Fin 1)].

(** ** What a cut does to the trees *)

(** The parent, mark and degree of every entry agree, and the same
    addresses are allocated. *)
Definition same_tree (w w' : world) : Prop :=
  vPar w' = vPar w ∧ vMk w' = vMk w ∧ vDeg w' = vDeg w ∧ (∀ x, allocd w' x ↔ allocd w x).

(** The parents are those of [w], the marks are [Mk], the degrees [Deg]. *)
Definition tree_is (w : world) (Mk : nat → bool) (Deg : nat → Z) (wc : world) : Prop :=
  vPar wc = vPar w ∧ vMk wc = Mk ∧ vDeg wc = Deg ∧ (∀ x, allocd wc x ↔ allocd w x).

(** * Tactics and lemmas *)

Lemma int_wrap_id z : - int_lim ≤ z < int_lim → int_wrap z = z.
Proof.
  intros Hz. unfold int_wrap. rewrite Z.mod_small by lia. lia.
Qed.

Lemma int_lim_pos : 0 < int_lim.
Proof. done. Qed.

Lemma allocd_upd a u w b : allocd (upd a u w) b ↔ allocd w b.
Proof. unfold allocd, upd; simpl. by rewrite dom_alter_L. Qed.

Lemma allocd_hupd f u w b : allocd (hupd f u w) b ↔ allocd w b.
Proof. done. Qed.

Lemma heaps_upd a u w : heaps (upd a u w) = heaps w.
Proof. done. Qed.

Lemma entries_hupd f u w : entries (hupd f u w) = entries w.
Proof. done. Qed.

Lemma fld_of_hupd {A} (d : A) fld f u w : fld_of d fld (hupd f u w) = fld_of d fld w.
Proof. done. Qed.

Lemma fld_of_upd_other {A} (d : A) (fld : Entry → A) a u w :
  (∀ e, fld (u e) = fld e) → fld_of d fld (upd a u w) = fld_of d fld w.
Proof.
  intros Hu. extensionality b. unfold fld_of, upd; simpl.
  rewrite lookup_alter. case_decide as Hab; [subst b|done].
  destruct (entries w !! a); simpl; auto.
Qed.

Lemma fld_of_upd_same {A} (d : A) (fld : Entry → A) a u v w :
  allocd w a → (∀ e, fld (u e) = v) → fld_of d fld (upd a u w) = <[a := v]> (fld_of d fld w).
Proof.
  intros Ha Hu. extensionality b. unfold fld_of, upd; simpl.
  rewrite lookup_alter. destruct (decide (a = b)) as [<-|Hab].
  - rewrite fn_lookup_insert. apply elem_of_dom in Ha as [e ->]. simpl. auto.
  - by rewrite fn_lookup_insert_ne.
Qed.

Lemma vN_upd a v w : allocd w a → vN (upd a (with_next v) w) = <[a := v]> (vN w).
Proof. intros. by apply fld_of_upd_same. Qed.

Lemma vP_upd a v w : allocd w a → vP (upd a (with_prev v) w) = <[a := v]> (vP w).
Proof. intros. by apply fld_of_upd_same. Qed.

Lemma vPar_upd a v w : allocd w a → vPar (upd a (with_parent v) w) = <[a := v]> (vPar w).
Proof. intros. by apply fld_of_upd_same. Qed.

Lemma vCh_upd a v w : allocd w a → vCh (upd a (with_child v) w) = <[a := v]> (vCh w).
Proof. intros. by apply fld_of_upd_same. Qed.

Lemma vDeg_upd a v w : allocd w a → vDeg (upd a (with_degree v) w) = <[a := v]> (vDeg w).
Proof. intros. by apply fld_of_upd_same. Qed.

Lemma vMk_upd a v w : allocd w a → vMk (upd a (with_marked v) w) = <[a := v]> (vMk w).
Proof. intros. by apply fld_of_upd_same. Qed.

Lemma vPri_upd a v w : allocd w a → vPri (upd a (with_Priority v) w) = <[a := v]> (vPri w).
Proof. intros. by apply fld_of_upd_same. Qed.

(** One step of the monad on an allocated address. *)
Lemma bind_ret {A B} (x : A) (k : A → M B) w : bind (ret x) k w = k x w.
Proof. done. Qed.

Lemma bind_bind {A B C} (c : M A) (k : A → M B) (k' : B → M C) w :
  bind (bind c k) k' w = bind c (λ x, bind (k x) k') w.
Proof. unfold bind. destruct (c w) as [[]| |]; done. Qed.

Lemma bind_load {A B} (d : A) (fld : Entry → A) a (k : A → M B) w :
  allocd w a → bind (load fld (Some a)) k w = k (fld_of d fld w a) w.
Proof.
  intros [e He]%elem_of_dom. unfold bind, load, fld_of. by rewrite He.
Qed.

Lemma bind_store {B} u a (k : unit → M B) w :
  allocd w a → bind (store u (Some a)) k w = k tt (upd a u w).
Proof.
  intros [e He]%elem_of_dom. unfold bind, store. by rewrite He.
Qed.

Lemma bind_hload {A B} (fld : FibHeap → A) f h (k : A → M B) w :
  heaps w !! f = Some h → bind (hload fld f) k w = k (fld h) w.
Proof. intros Hf. unfold bind, hload. by rewrite Hf. Qed.

Lemma bind_hstore {B} u f h (k : unit → M B) w :
  heaps w !! f = Some h → bind (hstore u f) k w = k tt (hupd f u w).
Proof. intros Hf. unfold bind, hstore. by rewrite Hf. Qed.

Lemma heaps_hupd_same f u h w :
  heaps w !! f = Some h → heaps (hupd f u w) !! f = Some (u h).
Proof. intros Hf. unfold hupd; simpl. by rewrite lookup_alter_eq, Hf. Qed.

Lemma heaps_hupd_ne f g u w : f ≠ g → heaps (hupd f u w) !! g = heaps w !! g.
Proof. intros. unfold hupd; simpl. by rewrite lookup_alter_ne. Qed.

Ltac fn_simpl :=
  repeat (rewrite fn_lookup_insert || (rewrite fn_lookup_insert_ne by congruence)).

Ltac mem_contra := set_unfold; naive_solver.

Section rings.

Implicit Types (N P : nat → ptr) (x y z : nat) (l : list nat).

Lemma elem_of_snoc l x a : a ∈ l ++ [x] ↔ a ∈ l ∨ a = x.
Proof. rewrite elem_of_app, list_elem_of_singleton. done. Qed.

Lemma path_app N P x l1 y l2 :
  path N P x (l1 ++ y :: l2) ↔ path N P x (l1 ++ [y]) ∧ path N P y l2.
Proof.
  revert x. induction l1 as [|a l1 IH]; intros x; simpl.
  - tauto.
  - rewrite IH. tauto.
Qed.

Lemma path_snoc N P x l y z :
  path N P x (l ++ [y; z]) ↔ path N P x (l ++ [y]) ∧ link N P y z.
Proof. rewrite path_app. simpl. tauto. Qed.

Lemma srcs_snoc x l y : srcs x (l ++ [y]) = x :: l.
Proof. revert x. induction l as [|a l IH]; intros x; simpl; [done|]. by rewrite IH. Qed.

Lemma path_frame N P N' P' x l :
  (∀ a, a ∈ srcs x l → N' a = N a) →
  (∀ b, b ∈ l → P' b = P b) →
  path N P x l → path N' P' x l.
Proof.
  revert x. induction l as [|y l IH]; intros x HN HP; simpl; [done|].
  intros [[H1 H2] H3]. split.
  - split.
    + rewrite HN; [done|]. simpl. left.
    + rewrite HP; [done|]. left.
  - apply IH; [| |done].
    + intros a Ha. apply HN. simpl. by right.
    + intros b Hb. apply HP. by right.
Qed.

Lemma ring_frame N P N' P' l :
  (∀ a, a ∈ l → N' a = N a) →
  (∀ a, a ∈ l → P' a = P a) →
  ring N P l → ring N' P' l.
Proof.
  destruct l as [|x l]; [done|]. intros HN HP [Hnd Hp]. split; [done|].
  eapply path_frame; [| |done].
  - intros a. rewrite srcs_snoc. apply HN.
  - intros b Hb. apply HP. apply elem_of_snoc in Hb as [Hb|Hb].
    + by right.
    + subst. left.
Qed.

Lemma ring_singleton N P x : ring N P [x] ↔ N x = Some x ∧ P x = Some x.
Proof.
  simpl. unfold link. split.
  - intros (_ & ? & _). done.
  - intros. split; [apply list.NoDup_singleton|done].
Qed.

Lemma ring_rotate1 N P x l : ring N P (x :: l) → ring N P (l ++ [x]).
Proof.
  destruct l as [|y l]; [done|].
  intros [Hnd Hp]. simpl in Hp. destruct Hp as [Hxy Hp]. split.
  - change (NoDup ((y :: l) ++ [x])).
    apply list.NoDup_app. apply list.NoDup_cons in Hnd as [Hx Hnd]. split_and!; [done| |apply list.NoDup_singleton].
    intros a Ha Hax%list_elem_of_singleton. by subst.
  - simpl. rewrite <- (assoc_L (++)). simpl. apply path_snoc. done.
Qed.

Lemma ring_rotate N P l1 l2 : ring N P (l1 ++ l2) → ring N P (l2 ++ l1).
Proof.
  revert l2. induction l1 as [|x l1 IH]; intros l2 H.
  - by rewrite app_nil_r.
  - simpl in H. apply ring_rotate1 in H. rewrite <- (assoc_L (++)) in H.
    apply IH in H. by rewrite <- (assoc_L (++)) in H.
Qed.

Lemma ring_NoDup N P l : ring N P l → NoDup l.
Proof. destruct l; [intros; constructor|by intros []]. Qed.

(** The first link of a ring. *)
Lemma ring_next_head N P x l :
  ring N P (x :: l) → N x = Some (default x (head l)).
Proof. intros [_ Hp]. destruct l; simpl in *; apply Hp. Qed.

Lemma ring_inv_cons N P x y l :
  ring N P (x :: y :: l) → link N P x y ∧ path N P y (l ++ [x]) ∧ NoDup (x :: y :: l).
Proof. intros [Hnd [H1 H2]]. done. Qed.

(** Every member of a non-empty ring has a successor and a predecessor
    in the ring. *)
Lemma path_next_in N P x l a :
  path N P x l → a ∈ srcs x l → ∃ b, b ∈ l ∧ N a = Some b.
Proof.
  revert x. induction l as [|y l IH]; intros x; simpl; [by intros _ ?%elem_of_nil|].
  intros [[H1 _] H2] [->|Ha]%elem_of_cons.
  - exists y. split; [left|done].
  - destruct (IH _ H2 Ha) as (b & ? & ?). exists b. split; [by right|done].
Qed.

Lemma path_prev_in N P x l b :
  path N P x l → b ∈ l → ∃ a, a ∈ srcs x l ∧ P b = Some a.
Proof.
  revert x. induction l as [|y l IH]; intros x; simpl; [by intros _ ?%elem_of_nil|].
  intros [[_ H1] H2] [->|Ha]%elem_of_cons.
  - exists x. split; [left|done].
  - destruct (IH _ H2 Ha) as (a & ? & ?). exists a. split; [by right|done].
Qed.

Lemma ring_next_in N P l a : ring N P l → a ∈ l → ∃ b, b ∈ l ∧ N a = Some b.
Proof.
  destruct l as [|x l]; [by intros _ ?%elem_of_nil|]. intros [_ Hp] Ha.
  destruct (path_next_in _ _ _ _ a Hp) as (b & Hb & ?).
  - by rewrite srcs_snoc.
  - exists b. split; [|done]. apply elem_of_snoc in Hb as [?| ->]; [by right|left].
Qed.

Lemma ring_prev_in N P l a : ring N P l → a ∈ l → ∃ b, b ∈ l ∧ P a = Some b.
Proof.
  destruct l as [|x l]; [by intros _ ?%elem_of_nil|]. intros [_ Hp] Ha.
  destruct (path_prev_in _ _ _ _ a Hp) as (b & Hb & ?).
  - apply elem_of_snoc. apply elem_of_cons in Ha as [->|?]; [by right|by left].
  - exists b. split; [|done]. by rewrite srcs_snoc in Hb.
Qed.

(** Splicing two disjoint rings, as [mergeLists] does. *)
Lemma ring_splice N P one A two B on tn :
  ring N P (one :: A) → ring N P (two :: B) →
  (∀ a, a ∈ one :: A → a ∉ two :: B) →
  N one = Some on → N two = Some tn →
  ring (<[two := Some on]> (<[one := Some tn]> N))
       (<[on := Some two]> (<[tn := Some one]> P))
       (one :: B ++ two :: A).
Proof.
  intros [HndA HpA] [HndB HpB] Hdisj Hon Htn.
  assert (one ≠ two) as Hne.
  { intros ->. apply (Hdisj two); left. }
  assert (HinA : on ∈ one :: A).
  { destruct A as [|a A]; simpl in HpA; destruct HpA as [[HH _] _];
      rewrite Hon in HH; injection HH as ->; [left|right; left]. }
  assert (HinB : tn ∈ two :: B).
  { destruct B as [|b B]; simpl in HpB; destruct HpB as [[HH _] _];
      rewrite Htn in HH; injection HH as ->; [left|right; left]. }
  assert (on ≠ tn) as Hne2.
  { intros ->. by apply (Hdisj tn). }
  split.
  - change (NoDup ((one :: B) ++ two :: A)).
    apply list.NoDup_cons in HndA as [HA1 HA2]. apply list.NoDup_cons in HndB as [HB1 HB2].
    apply list.NoDup_app. split_and!.
    + apply list.NoDup_cons. split; [|done]. intros ?. apply (Hdisj one); [left|by right].
    + clear -Hdisj Hne HA1 HB1. set_unfold. naive_solver.
    + apply list.NoDup_cons. split; [|done]. intros ?. apply (Hdisj two); [by right|left].
  - apply list.NoDup_cons in HndA as [HA1 HA2]. apply list.NoDup_cons in HndB as [HB1 HB2].
    rewrite <- (assoc_L (++)). simpl. apply path_app. split.
    + (* one → B → two *)
      destruct B as [|b B].
      * simpl in HpB. destruct HpB as [[HH _] _]. rewrite Htn in HH. injection HH as ->.
        simpl. split; [|done]. split; fn_simpl; done.
      * simpl in HpB. destruct HpB as [[HH ?] HpB]. rewrite Htn in HH. injection HH as ->.
        apply list.NoDup_cons in HB2 as [HB2 HB3].
        simpl. split; [split; fn_simpl; done|].
        eapply path_frame; [| |exact HpB].
        -- intros a. rewrite srcs_snoc. intros Ha.
           rewrite !fn_lookup_insert_ne; [done|intros ->..]; mem_contra.
        -- intros c Hc%elem_of_snoc.
           rewrite !fn_lookup_insert_ne; [done|intros ->..]; mem_contra.
    + (* two → A → one *)
      destruct A as [|a A].
      * simpl in HpA. destruct HpA as [[HH _] _]. rewrite Hon in HH. injection HH as ->.
        simpl. split; [|done]. split; fn_simpl; done.
      * simpl in HpA. destruct HpA as [[HH ?] HpA]. rewrite Hon in HH. injection HH as ->.
        apply list.NoDup_cons in HA2 as [HA2 HA3].
        simpl. split; [split; fn_simpl; done|].
        eapply path_frame; [| |exact HpA].
        -- intros c. rewrite srcs_snoc. intros Hc.
           rewrite !fn_lookup_insert_ne; [done|intros ->..]; mem_contra.
        -- intros c Hc%elem_of_snoc.
           rewrite !fn_lookup_insert_ne; [done|intros ->..]; mem_contra.
Qed.

(** Unlinking the head of a ring of at least two entries:
    [x.prev.next = x.next] and [x.next.prev = x.prev]. *)
Lemma ring_unlink_head N P x y A z :
  ring N P (x :: y :: A) → P x = Some z →
  ring (<[z := Some y]> N) (<[y := Some z]> P) (y :: A).
Proof.
  intros [Hnd [Hxy Hp]] Hz.
  apply list.NoDup_cons in Hnd as [Hx Hnd].
  split; [done|]. apply list.NoDup_cons in Hnd as [Hy Hnd].
  destruct A as [|z' A _] using rev_ind.
  - simpl in *. destruct Hp as [[_ HH] _]. rewrite Hz in HH. injection HH as ->.
    split; [|done]. split; fn_simpl; done.
  - rewrite <- (assoc_L (++)) in Hp. simpl in Hp. apply path_snoc in Hp as [Hp [_ HH]].
    rewrite Hz in HH. injection HH as ->.
    rewrite <- (assoc_L (++)). simpl. apply path_snoc. split.
    + eapply path_frame; [| |exact Hp].
      * intros a. rewrite srcs_snoc. intros Ha.
        rewrite fn_lookup_insert_ne; [done|intros ->].
        apply list.NoDup_app in Hnd as (_ & Hnd & _). mem_contra.
      * intros c Hc. rewrite fn_lookup_insert_ne; [done|intros ->]. done.
    + split; fn_simpl; done.
Qed.

Lemma ring_unlink N P B1 x B2 y z :
  ring N P (B1 ++ x :: B2) → B1 ++ B2 ≠ [] → N x = Some y → P x = Some z →
  ring (<[z := Some y]> N) (<[y := Some z]> P) (B1 ++ B2)
  ∧ list.head (B2 ++ B1) = Some y.
Proof.
  intros Hr Hne Hy Hz. apply ring_rotate in Hr. simpl in Hr.
  destruct (B2 ++ B1) as [|y' A] eqn:HA.
  { apply app_eq_nil in HA as [-> ->]. done. }
  assert (y' = y) as ->.
  { destruct Hr as [_ [[HH _] _]]. congruence. }
  split; [|done].
  eapply ring_unlink_head in Hr; [|done].
  rewrite <- HA in Hr. by apply ring_rotate.
Qed.

Lemma ring_single_next N P x l : ring N P (x :: l) → N x = Some x → l = [].
Proof.
  intros [Hnd Hp] Hx. destruct l as [|y l]; [done|].
  destruct Hp as [[HH _] _]. rewrite Hx in HH. injection HH as <-.
  apply list.NoDup_cons in Hnd as [Hnd _]. exfalso. apply Hnd. left.
Qed.

End rings.

Lemma allocd_ins a e w b : allocd (ins a e w) b ↔ b = a ∨ allocd w b.
Proof. unfold allocd, ins; simpl. rewrite dom_insert_L. set_solver. Qed.

Lemma fld_of_ins {A} (d : A) fld a e w :
  fld_of d fld (ins a e w) = <[a := fld e]> (fld_of d fld w).
Proof.
  extensionality b. unfold fld_of, ins; simpl.
  destruct (decide (a = b)) as [<-|Hab].
  - by rewrite fn_lookup_insert, lookup_insert_eq.
  - by rewrite fn_lookup_insert_ne, lookup_insert_ne.
Qed.

Ltac red_alloc :=
  repeat match goal with
         | |- allocd (hupd _ _ _) _ => apply allocd_hupd
         | |- allocd (upd _ _ _) _ => apply allocd_upd
         | |- allocd (ins _ _ _) _ => apply allocd_ins
         | |- allocd _ _ ↔ _ => rewrite ?allocd_hupd, ?allocd_upd, ?allocd_ins
         end.

Ltac solve_alloc :=
  red_alloc; first [assumption | by auto | by eauto | tauto].

Ltac vsimpl :=
  repeat first
    [ rewrite fld_of_hupd
    | rewrite fld_of_ins
    | rewrite vN_upd by solve_alloc
    | rewrite vP_upd by solve_alloc
    | rewrite vPar_upd by solve_alloc
    | rewrite vCh_upd by solve_alloc
    | rewrite vDeg_upd by solve_alloc
    | rewrite vMk_upd by solve_alloc
    | rewrite vPri_upd by solve_alloc
    | rewrite fld_of_upd_other by (intros ?; reflexivity)
    | rewrite fn_lookup_insert
    | rewrite fn_lookup_insert_ne by congruence ].

Lemma store_run u a w : allocd w a → store u (Some a) w = Ok (tt, upd a u w).
Proof. intros [e He]%elem_of_dom. unfold store. by rewrite He. Qed.

Ltac mstep :=
  first
    [ rewrite bind_ret
    | rewrite bind_bind
    | rewrite (bind_load None next) by solve_alloc
    | rewrite (bind_load None prev) by solve_alloc
    | rewrite (bind_load None parent) by solve_alloc
    | rewrite (bind_load None child) by solve_alloc
    | rewrite (bind_load 0 degree) by solve_alloc
    | rewrite (bind_load false marked) by solve_alloc
    | rewrite (bind_load NaN Priority) by solve_alloc
    | rewrite bind_store by solve_alloc
    | rewrite store_run by solve_alloc ];
  cbv beta.

Lemma mergeLists_run w one two on tn :
  allocd w one → allocd w two → allocd w on → allocd w tn →
  vN w one = Some on → vN w two = Some tn →
  mergeLists (Some one) (Some two) w =
    Ok (if f_ltb (vPri w one) (vPri w two) then Some one else Some two,
        upd on (with_prev (Some two)) (upd two (with_next (Some on))
          (upd tn (with_prev (Some one)) (upd one (with_next (Some tn)) w)))).
Proof.
  intros H1 H2 H3 H4 Hon Htn. unfold mergeLists.
  mstep. mstep. rewrite Hon, Htn. mstep. mstep. vsimpl. mstep. mstep. mstep. vsimpl.
  mstep. mstep. mstep. vsimpl. done.
Qed.

(** Order facts on non-NaN priorities. *)
Lemma f_leb_refl a : a ≠ NaN → f_leb a a = true.
Proof. destruct a; simpl; try done. intros _. apply Z.leb_refl. Qed.

Lemma f_leb_trans a b c : f_leb a b = true → f_leb b c = true → f_leb a c = true.
Proof.
  destruct a, b, c; simpl; try done. rewrite !Z.leb_le. lia.
Qed.

Lemma f_leb_total a b : a ≠ NaN → b ≠ NaN → f_leb a b = true ∨ f_leb b a = true.
Proof. destruct a, b; simpl; try done; auto. intros _ _. rewrite !Z.leb_le. lia. Qed.

Lemma f_ltb_leb a b : f_ltb a b = true → f_leb a b = true.
Proof. destruct a, b; simpl; try done. rewrite Z.ltb_lt, Z.leb_le. lia. Qed.

Lemma f_ltb_false_leb a b : a ≠ NaN → b ≠ NaN → f_ltb a b = false → f_leb b a = true.
Proof. destruct a, b; simpl; try done. intros _ _. rewrite Z.ltb_ge, Z.leb_le. lia. Qed.

Lemma f_leb_false_ltb a b : a ≠ NaN → b ≠ NaN → f_leb a b = false → f_ltb b a = true.
Proof. destruct a, b; simpl; try done. intros _ _. rewrite Z.leb_gt, Z.ltb_lt. lia. Qed.

Lemma f_leb_not_nan a b : f_leb a b = true → a ≠ NaN ∧ b ≠ NaN.
Proof. destruct a, b; simpl; done. Qed.

Lemma f_ltb_leb_trans a b c : f_ltb a b = true → f_leb b c = true → f_ltb c a = false.
Proof.
  destruct a, b, c; simpl; try done. rewrite Z.ltb_lt, Z.leb_le, Z.ltb_ge. lia.
Qed.

Section inv_facts.

Context {N P Par Ch : nat → ptr} {Deg : nat → Z} {Pri : nat → float64}
  {E L : gset nat} {R : list nat} {K : nat → list nat}.

Hypothesis HI : Inv N P Par Ch Deg Pri E L R K.

Lemma inv_root_in x : x ∈ R → x ∈ L.
Proof. intros Hx. by apply (inv_roots _ _ _ _ _ _ _ _ _ _ HI). Qed.

Lemma inv_kid_in p x : p ∈ L → x ∈ K p → x ∈ L.
Proof. intros Hp Hx. by apply (inv_kids _ _ _ _ _ _ _ _ _ _ HI p x Hp). Qed.

Lemma inv_kid_par p x : p ∈ L → x ∈ K p → Par x = Some p.
Proof. intros Hp Hx. by apply (inv_kids _ _ _ _ _ _ _ _ _ _ HI p x Hp). Qed.

Lemma inv_root_par x : x ∈ R → Par x = None.
Proof. intros Hx. by apply (inv_roots _ _ _ _ _ _ _ _ _ _ HI). Qed.

(** Every live entry is in the root ring or in the child ring of its
    parent. *)
Lemma inv_where x :
  x ∈ L → (x ∈ R ∧ Par x = None) ∨ (∃ p, p ∈ L ∧ Par x = Some p ∧ x ∈ K p).
Proof.
  intros Hx. destruct (Par x) as [p|] eqn:Hp.
  - right. exists p. assert (p ∈ L) by (by eapply inv_par). split_and!; [done..|].
    by apply (inv_kids _ _ _ _ _ _ _ _ _ _ HI).
  - left. split; [|done]. by apply (inv_roots _ _ _ _ _ _ _ _ _ _ HI).
Qed.

Lemma inv_next_in x : x ∈ L → ∃ y, y ∈ L ∧ N x = Some y ∧ Par y = Par x.
Proof.
  intros Hx. destruct (inv_where x Hx) as [[HR HP]|(p & Hp & HP & HK)].
  - destruct (ring_next_in _ _ _ _ (inv_rring _ _ _ _ _ _ _ _ _ _ HI) HR) as (y & Hy & HN).
    exists y. split_and!; [by apply inv_root_in|done|]. rewrite HP. by apply inv_root_par.
  - destruct (ring_next_in _ _ _ _ (inv_kring _ _ _ _ _ _ _ _ _ _ HI p Hp) HK) as (y & Hy & HN).
    exists y. split_and!; [by eapply inv_kid_in|done|]. rewrite HP. by eapply inv_kid_par.
Qed.

Lemma inv_prev_in x : x ∈ L → ∃ y, y ∈ L ∧ P x = Some y ∧ Par y = Par x.
Proof.
  intros Hx. destruct (inv_where x Hx) as [[HR HP]|(p & Hp & HP & HK)].
  - destruct (ring_prev_in _ _ _ _ (inv_rring _ _ _ _ _ _ _ _ _ _ HI) HR) as (y & Hy & HN).
    exists y. split_and!; [by apply inv_root_in|done|]. rewrite HP. by apply inv_root_par.
  - destruct (ring_prev_in _ _ _ _ (inv_kring _ _ _ _ _ _ _ _ _ _ HI p Hp) HK) as (y & Hy & HN).
    exists y. split_and!; [by eapply inv_kid_in|done|]. rewrite HP. by eapply inv_kid_par.
Qed.

End inv_facts.

Arguments inv_rring {_ _ _ _ _ _ _ _ _ _} _.

Arguments inv_roots {_ _ _ _ _ _ _ _ _ _} _ _.

Arguments inv_kring {_ _ _ _ _ _ _ _ _ _} _ _ _.

Arguments inv_kids {_ _ _ _ _ _ _ _ _ _} _ _ _ _.

Arguments inv_child {_ _ _ _ _ _ _ _ _ _} _ _ _.

Arguments inv_deg {_ _ _ _ _ _ _ _ _ _} _ _ _.

Arguments inv_par {_ _ _ _ _ _ _ _ _ _} _ _ _ _ _.

Arguments inv_ord {_ _ _ _ _ _ _ _ _ _} _ _ _ _ _ _.

Arguments inv_acyc {_ _ _ _ _ _ _ _ _ _} _ _ _.

Arguments inv_nan {_ _ _ _ _ _ _ _ _ _} _ _ _.

Arguments inv_bound {_ _ _ _ _ _ _ _ _ _} _.

Lemma NoDup_length_size (l : list nat) (L : gset nat) :
  NoDup l → (∀ x, x ∈ l → x ∈ L) → (length l ≤ size L)%nat.
Proof.
  intros Hnd Hl. rewrite <- (size_list_to_set (C:=gset nat) l) by done.
  apply subseteq_size. set_solver.
Qed.

(** The counters stay in the range of a Go [int]. *)
Lemma inv_deg_bound N P Par Ch Deg Pri (E L : gset nat) R K p :
  Inv N P Par Ch Deg Pri E L R K → p ∈ L → 0 ≤ Deg p < int_lim.
Proof.
  intros HI Hp. rewrite (inv_deg HI p Hp). pose proof (inv_bound HI).
  assert (length (K p) ≤ size L)%nat; [|lia].
  apply NoDup_length_size; [eapply ring_NoDup, (inv_kring HI p Hp)|].
  intros x. by apply (inv_kid_in HI).
Qed.

Lemma inv_deg_bound_succ N P Par Ch Deg Pri (E L : gset nat) R K p x :
  Inv N P Par Ch Deg Pri E L R K → p ∈ L → x ∈ L → x ∉ K p → 0 ≤ Deg p + 1 < int_lim.
Proof.
  intros HI Hp Hx HxK. rewrite (inv_deg HI p Hp). pose proof (inv_bound HI).
  assert (length (x :: K p) ≤ size L)%nat; [|simpl in *; lia].
  apply NoDup_length_size.
  - apply list.NoDup_cons. split; [done|]. eapply ring_NoDup, (inv_kring HI p Hp).
  - intros y [->|Hy]%elem_of_cons; [done|]. by apply (inv_kid_in HI p).
Qed.

Lemma halloc_upd a u w f : halloc (upd a u w) f ↔ halloc w f.
Proof. done. Qed.

Lemma halloc_ins a e w f : halloc (ins a e w) f ↔ halloc w f.
Proof. done. Qed.

Lemma halloc_hupd g u w f : halloc (hupd g u w) f ↔ halloc w f.
Proof. unfold halloc, hupd; simpl. by rewrite dom_alter_L. Qed.

Lemma hmin_upd a u w : hmin (upd a u w) = hmin w.
Proof. done. Qed.

Lemma hsize_upd a u w : hsize (upd a u w) = hsize w.
Proof. done. Qed.

Lemma hmin_ins a e w : hmin (ins a e w) = hmin w.
Proof. done. Qed.

Lemma hsize_ins a e w : hsize (ins a e w) = hsize w.
Proof. done. Qed.

Lemma hmin_hupd_min f v w : halloc w f → hmin (hupd f (with_min v) w) = <[f := v]> (hmin w).
Proof.
  intros [h Hh]%elem_of_dom. extensionality g. unfold hmin, hupd; simpl.
  rewrite lookup_alter. destruct (decide (f = g)) as [<-|]; fn_simpl; [|done].
  by rewrite Hh.
Qed.

Lemma hsize_hupd_min f v w : hsize (hupd f (with_min v) w) = hsize w.
Proof.
  extensionality g. unfold hsize, hupd; simpl.
  rewrite lookup_alter. case_decide; [subst|done]. by destruct (heaps w !! g).
Qed.

Lemma hsize_hupd_size f v w : halloc w f → hsize (hupd f (with_size v) w) = <[f := v]> (hsize w).
Proof.
  intros [h Hh]%elem_of_dom. extensionality g. unfold hsize, hupd; simpl.
  rewrite lookup_alter. destruct (decide (f = g)) as [<-|]; fn_simpl; [|done].
  by rewrite Hh.
Qed.

Lemma hmin_hupd_size f v w : hmin (hupd f (with_size v) w) = hmin w.
Proof.
  extensionality g. unfold hmin, hupd; simpl.
  rewrite lookup_alter. case_decide; [subst|done]. by destruct (heaps w !! g).
Qed.

Lemma bind_hload_min {B} f (k : ptr → M B) w :
  halloc w f → bind (hload heap_min f) k w = k (hmin w f) w.
Proof. intros [h Hh]%elem_of_dom. unfold bind, hload, hmin. by rewrite Hh. Qed.

Lemma bind_hload_size {B} f (k : Z → M B) w :
  halloc w f → bind (hload heap_size f) k w = k (hsize w f) w.
Proof. intros [h Hh]%elem_of_dom. unfold bind, hload, hsize. by rewrite Hh. Qed.

Lemma bind_hstore' {B} u f (k : unit → M B) w :
  halloc w f → bind (hstore u f) k w = k tt (hupd f u w).
Proof. intros [h Hh]%elem_of_dom. unfold bind, hstore. by rewrite Hh. Qed.

Lemma bind_alloc {B} e (k : nat → M B) w :
  bind (alloc e) k w = k (fresh (dom (entries w))) (ins (fresh (dom (entries w))) e w).
Proof. done. Qed.

Lemma hstore_run u f w : halloc w f → hstore u f w = Ok (tt, hupd f u w).
Proof. intros [h Hh]%elem_of_dom. unfold hstore. by rewrite Hh. Qed.

Ltac solve_halloc :=
  repeat match goal with
         | |- halloc (hupd _ _ _) _ => apply halloc_hupd
         | |- halloc (upd _ _ _) _ => apply halloc_upd
         | |- halloc (ins _ _ _) _ => apply halloc_ins
         end;
  first [assumption | by auto | by eauto].

Ltac hsimpl :=
  repeat first
    [ rewrite hmin_upd | rewrite hsize_upd | rewrite hmin_ins | rewrite hsize_ins
    | rewrite hmin_hupd_min by solve_halloc
    | rewrite hsize_hupd_size by solve_halloc
    | rewrite hsize_hupd_min | rewrite hmin_hupd_size
    | rewrite fn_lookup_insert
    | rewrite fn_lookup_insert_ne by congruence ].

Ltac hstep :=
  first
    [ rewrite bind_hload_min by solve_halloc
    | rewrite bind_hload_size by solve_halloc
    | rewrite bind_hstore' by solve_halloc
    | rewrite hstore_run by solve_halloc
    | rewrite bind_alloc ];
  cbv beta.

Ltac step := first [mstep | hstep].

Lemma fresh_not_allocd w : ¬ allocd w (fresh (dom (entries w))).
Proof. apply is_fresh. Qed.

Lemma reach_root_mono Par n m x : (n ≤ m)%nat → reach_root Par n x → reach_root Par m x.
Proof.
  intros Hnm Hr. revert m Hnm. induction Hr as [n x Hx|n x p Hx Hr IH]; intros m Hnm.
  - by constructor.
  - destruct m as [|m]; [lia|]. eapply reach_root_step; [done|]. apply IH. lia.
Qed.

Lemma reach_root_ext Par Par' (L : gset nat) n x :
  (∀ y, y ∈ L → Par' y = Par y) →
  (∀ y p, y ∈ L → Par y = Some p → p ∈ L) →
  x ∈ L → reach_root Par n x → reach_root Par' n x.
Proof.
  intros Hext Hcl Hx Hr. induction Hr as [n x Hp|n x p Hp Hr IH].
  - constructor. by rewrite Hext.
  - eapply reach_root_step; [by rewrite Hext|]. apply IH. by eapply Hcl.
Qed.

(** A heap with an empty root ring has no entries. *)
Lemma inv_no_roots N P Par Ch Deg Pri E L K :
  Inv N P Par Ch Deg Pri E L [] K → L = ∅.
Proof.
  intros HI. apply set_eq. intros x. split; [|by intros ?%not_elem_of_empty].
  intros Hx. destruct (inv_acyc HI x Hx) as [n Hr]. exfalso.
  induction Hr as [n x Hp|n x p Hp Hr IH].
  - assert (x ∈ []) as ?%elem_of_nil by (by apply (inv_roots HI)). done.
  - apply IH. by eapply (inv_par HI).
Qed.

Lemma bind_run {A B} (c : M A) (k : A → M B) w a w' :
  c w = Ok (a, w') → bind c k w = k a w'.
Proof. intros Hc. unfold bind. by rewrite Hc. Qed.

(** A fresh singleton tree joins the root ring. *)
Lemma Inv_add_root N P Par Ch Deg Pri L R K a N' P' R' pr :
  Inv N P Par Ch Deg Pri ∅ L R K → a ∉ L → pr ≠ NaN →
  Z.of_nat (size L) + 1 < int_lim →
  ring N' P' R' → (∀ x, x ∈ R' ↔ x = a ∨ x ∈ R) →
  (∀ x, x ∈ L → Par x ≠ None → N' x = N x ∧ P' x = P x) →
  Inv N' P' (<[a := None]> Par) (<[a := None]> Ch) (<[a := 0]> Deg) (<[a := pr]> Pri)
    ∅ (L ∪ {[a]}) R' (<[a := []]> K).
Proof.
  intros HI Ha Hpr Hbd Hring HR' Hfr.
  assert (Hne : ∀ x, x ∈ L → x ≠ a) by (intros x ? ->; done).
  constructor.
  - done.
  - intros x. rewrite HR', elem_of_union, elem_of_singleton.
    destruct (decide (x = a)) as [->|Hx]; fn_simpl; [naive_solver|].
    rewrite (inv_roots HI). naive_solver.
  - intros p [Hp| ->%elem_of_singleton]%elem_of_union; fn_simpl; [|done].
    eapply ring_frame; [| |by apply (inv_kring HI)].
    + intros x Hx. apply Hfr; [by eapply inv_kid_in|]. by erewrite inv_kid_par.
    + intros x Hx. apply Hfr; [by eapply inv_kid_in|]. by erewrite inv_kid_par.
  - intros p x [Hp| ->%elem_of_singleton]%elem_of_union; fn_simpl.
    + rewrite (inv_kids HI) by done. rewrite elem_of_union, elem_of_singleton.
      destruct (decide (x = a)) as [->|Hx]; fn_simpl; naive_solver.
    + rewrite elem_of_union, elem_of_singleton. split; [by intros ?%elem_of_nil|].
      intros [[Hx| ->] Hpar]; fn_simpl; [|by rewrite fn_lookup_insert in Hpar].
      rewrite fn_lookup_insert_ne in Hpar by congruence.
      exfalso. apply Ha. by eapply (inv_par HI).
  - intros p [Hp| ->%elem_of_singleton]%elem_of_union; fn_simpl; [|done].
    by apply (inv_child HI).
  - intros p [Hp| ->%elem_of_singleton]%elem_of_union; fn_simpl; [|done].
    by apply (inv_deg HI).
  - intros x p [Hx| ->%elem_of_singleton]%elem_of_union; fn_simpl; [|done]. intros Hp.
    apply elem_of_union. left. by eapply (inv_par HI).
  - intros x p [Hx| ->%elem_of_singleton]%elem_of_union _; fn_simpl; [|done]. intros Hp.
    assert (p ∈ L) by (by eapply (inv_par HI)). fn_simpl.
    by apply (inv_ord HI).
  - intros x [Hx| ->%elem_of_singleton]%elem_of_union.
    + destruct (inv_acyc HI x Hx) as [n Hn]. exists n.
      eapply (reach_root_ext Par _ L); [| |done..].
      * intros y Hy. by fn_simpl.
      * intros y p. apply (inv_par HI).
    + exists 0%nat. constructor. by fn_simpl.
  - intros x [Hx| ->%elem_of_singleton]%elem_of_union; fn_simpl; [|done].
    by apply (inv_nan HI).
  - rewrite size_union by set_solver. rewrite size_singleton. lia.
Qed.

Lemma newEntry_run el pr w :
  newEntry el pr w = Ok (Some (fresh (dom (entries w))), enq_world 0%nat el pr w).
Proof.
  unfold newEntry. step. step. step. done.
Qed.

Lemma entries_upd_ne a u w x : x ≠ a → entries (upd a u w) !! x = entries w !! x.
Proof. intros. unfold upd; simpl. by rewrite lookup_alter_ne. Qed.

Lemma entries_ins_ne a e w x : x ≠ a → entries (ins a e w) !! x = entries w !! x.
Proof. intros. unfold ins; simpl. by rewrite lookup_insert_ne. Qed.

Lemma heaps_hupd_ne' f u w g : g ≠ f → heaps (hupd f u w) !! g = heaps w !! g.
Proof. intros. unfold hupd; simpl. by rewrite lookup_alter_ne. Qed.

Ltac e0simpl e0 :=
  change (next e0) with (@None nat) in *; change (prev e0) with (@None nat) in *;
  change (parent e0) with (@None nat) in *; change (child e0) with (@None nat) in *;
  change (degree e0) with 0 in *.

Ltac esimpl :=
  repeat first
    [ rewrite entries_hupd
    | rewrite heaps_upd
    | rewrite entries_upd_ne by congruence
    | rewrite entries_ins_ne by congruence
    | rewrite heaps_hupd_ne' by congruence ].

Lemma minimal_cons_le Pri r R a :
  minimal Pri (r :: R) → Pri a ≠ NaN → Pri r ≠ NaN →
  minimal Pri (if f_ltb (Pri r) (Pri a) then r :: a :: R else a :: R ++ [r]).
Proof.
  intros Hm Ha Hr. destruct (f_ltb (Pri r) (Pri a)) eqn:Hlt; simpl.
  - intros x [->|[->|Hx]%elem_of_cons]%elem_of_cons.
    + by apply f_leb_refl.
    + by apply f_ltb_leb.
    + apply Hm. by right.
  - apply f_ltb_false_leb in Hlt; [|done..].
    intros x [->|[Hx| ->]%elem_of_snoc]%elem_of_cons.
    + by apply f_leb_refl.
    + eapply f_leb_trans; [done|]. apply Hm. by right.
    + done.
Qed.

Lemma Enqueue_spec w f L R K el pr :
  HeapInv w f L R K → pr ≠ NaN → Z.of_nat (size L) + 1 < int_lim →
  let a := fresh (dom (entries w)) in
  ∃ w' R',
    Enqueue f el pr w = Ok (Some a, w') ∧
    HeapInv w' f (L ∪ {[a]}) R' (<[a := []]> K) ∧
    (∀ x, x ≠ a → x ∉ R → entries w' !! x = entries w !! x) ∧
    (∀ x, x ≠ a → vPri w' x = vPri w x) ∧ vPri w' a = pr ∧
    (∀ x, x ≠ a → vMk w' x = vMk w x) ∧ vMk w' a = false ∧
    (∀ x, allocd w' x ↔ x = a ∨ allocd w x) ∧
    (∀ g, g ≠ f → heaps w' !! g = heaps w !! g) ∧
    (∀ g, halloc w' g ↔ halloc w g).
Proof.
  intros HH Hpr Hbd a. destruct HH as [Hf Hal Hsz Hmin Hmnl HI].
  assert (Ha : ¬ allocd w a) by apply fresh_not_allocd.
  assert (HaL : a ∉ L) by (intros ?; by apply Ha, Hal).
  unfold Enqueue, checkPriority. step.
  rewrite (bind_run _ _ _ _ _ (newEntry_run el pr w)). fold a.
  unfold enq_world. fold a.
  set (e0 := mkEntry 0 false None None None None el pr).
  assert (Ha1 : allocd (ins a e0 w) a) by (apply allocd_ins; by left).
  assert (Hsize : Z.of_nat (size (L ∪ {[a]})) = Z.of_nat (size L) + 1).
  { rewrite size_union by set_solver. rewrite size_singleton. lia. }
  step.
  destruct R as [|r R0].
  - (* empty heap *)
    assert (L = ∅) as -> by (by eapply inv_no_roots).
    hsimpl. rewrite Hmin. simpl. step. step. step. step.
    eexists _, [a]. split; [reflexivity|]. split_and!.
    + constructor.
      * solve_halloc.
      * intros x Hx. red_alloc. left. set_solver.
      * hsimpl. unfold int_add. rewrite Hsz, int_wrap_id by lia. by rewrite <- Hsize.
      * by hsimpl.
      * vsimpl. simpl. intros x ->%list_elem_of_singleton. fn_simpl. by apply f_leb_refl.
      * vsimpl. e0simpl e0. change (Priority e0) with pr. eapply Inv_add_root; [done..| | |].
        -- apply ring_singleton. by fn_simpl.
        -- intros x. rewrite list_elem_of_singleton. set_solver.
        -- intros x ?%not_elem_of_empty. done.
    + intros x Hx _. by esimpl.
    + intros x Hx. vsimpl. done.
    + by vsimpl.
    + intros x Hx. vsimpl. by fn_simpl.
    + vsimpl. by fn_simpl.
    + intros x. solve_alloc.
    + intros g Hg. by esimpl.
    + intros g. by rewrite !halloc_hupd.
  - (* non-empty heap *)
    hsimpl. rewrite Hmin. simpl.
    assert (Hr : r ∈ L) by (eapply inv_root_in; [done|left]).
    destruct (inv_next_in HI r Hr) as (y & Hy & HNr & _).
    assert (y ≠ a ∧ r ≠ a) as [Hya Hra] by (split; intros ->; done).
    assert (HyR : y ∈ r :: R0).
    { destruct (ring_next_in _ _ _ r (inv_rring HI)) as (y' & ? & ?); [left|]. congruence. }
    erewrite bind_run; cycle 1.
    { apply (mergeLists_run _ r a y a); [solve_alloc..| |]; vsimpl; done. }
    step. step. step. vsimpl.
    set (Pri' := <[a:=pr]> (vPri w)).
    set (N' := <[a:=Some y]> (<[r:=Some a]> (<[a:=Some a]> (<[a:=None]> (vN w))))).
    set (P' := <[y:=Some a]> (<[a:=Some r]> (<[a:=Some a]> (<[a:=None]> (vP w))))).
    assert (HRL : ∀ x, x ∈ r :: R0 → x ∈ L) by (intros x; by eapply inv_root_in).
    assert (Hring : ring N' P' (r :: a :: R0)).
    { apply (ring_splice _ _ r R0 a []).
      - eapply ring_frame; [| |by apply (inv_rring HI)].
        + intros x Hx%HRL. by fn_simpl.
        + intros x Hx%HRL. by fn_simpl.
      - apply ring_singleton. by fn_simpl.
      - intros x Hx%HRL Hxa%list_elem_of_singleton. congruence.
      - by fn_simpl.
      - by fn_simpl. }
    assert (Hpr' : Pri' a = pr) by (unfold Pri'; by fn_simpl).
    assert (Hprr : Pri' r = vPri w r) by (unfold Pri'; by fn_simpl).
    eexists _, (if f_ltb (Pri' r) (Pri' a) then r :: a :: R0 else a :: R0 ++ [r]).
    split; [reflexivity|]. split_and!.
    + constructor.
      * solve_halloc.
      * intros x [Hx|Hx%elem_of_singleton]%elem_of_union; red_alloc; auto.
      * hsimpl. unfold int_add. rewrite Hsz, int_wrap_id by lia. by rewrite <- Hsize.
      * hsimpl. rewrite Hpr', Hprr. unfold e0; simpl. by destruct (f_ltb _ _).
      * vsimpl. fold Pri'. apply minimal_cons_le.
        -- intros x Hx. unfold Pri'. assert (x ∈ L) by auto. fn_simpl. by apply Hmnl.
        -- by rewrite Hpr'.
        -- rewrite Hprr. by apply (inv_nan HI).
      * vsimpl. e0simpl e0. fold Pri'. eapply Inv_add_root; [done..| | |].
        -- destruct (f_ltb (Pri' r) (Pri' a)); [done|].
           by apply (ring_rotate _ _ [r] (a :: R0)).
        -- intros x. destruct (f_ltb (Pri' r) (Pri' a)); set_unfold; naive_solver.
        -- intros x Hx Hpx.
           assert (x ∉ r :: R0) as HxR.
           { intros ?%(inv_roots HI). naive_solver. }
           assert (x ≠ a ∧ x ≠ r ∧ x ≠ y) as (? & ? & ?).
           { split_and!; intros ->; try done. apply HxR. left. }
           by fn_simpl.
    + intros x Hx HxR.
      assert (x ≠ r ∧ x ≠ y) as (? & ?).
      { split_and!; intros ->; try done. apply HxR. left. }
      by esimpl.
    + intros x Hx. vsimpl. done.
    + by vsimpl.
    + intros x Hx. vsimpl. by fn_simpl.
    + vsimpl. by fn_simpl.
    + intros x. solve_alloc.
    + intros g Hg. by esimpl.
    + intros g. by rewrite !halloc_hupd.
Qed.

Lemma reach_root_anc Par n x y : reach_root Par n x → anc Par x y → reach_root Par n y.
Proof.
  intros Hr Ha. revert n Hr. induction Ha as [x|x p y Hp Ha IH]; intros n Hr; [done|].
  inversion Hr as [n' x' Hx|n' x' p' Hx Hr']; subst; [congruence|].
  rewrite Hp in Hx. injection Hx as <-.
  eapply (reach_root_mono _ n'); [lia|]. by apply IH.
Qed.

Lemma reach_root_acyclic Par n x p : reach_root Par n x → Par x = Some p → ¬ anc Par p x.
Proof.
  revert x p. induction n as [|n IH]; intros x p Hr Hp Ha.
  - inversion Hr; congruence.
  - inversion Hr as [n' x' Hx|n' x' p' Hx Hr']; subst; [congruence|].
    rewrite Hp in Hx. injection Hx as <-.
    eapply (IH x p); [|done..]. by eapply reach_root_anc.
Qed.

Lemma reach_root_cut Par e n x : reach_root Par n x → reach_root (<[e := None]> Par) n x.
Proof.
  induction 1 as [n x Hx|n x p Hx Hr IH].
  - constructor. destruct (decide (x = e)) as [->|]; by fn_simpl.
  - destruct (decide (x = e)) as [->|].
    + constructor. by fn_simpl.
    + eapply reach_root_step; [|done]. by fn_simpl.
Qed.

Lemma anc_cut_aux Par e q x :
  anc (<[e := None]> Par) q x → ¬ anc Par q e → anc Par q x ∧ x ≠ e.
Proof.
  induction 1 as [x|x q y Hq Ha IH]; intros Hnc.
  - split; [constructor|]. intros ->. apply Hnc. constructor.
  - destruct (decide (x = e)) as [->|Hx].
    { exfalso. apply Hnc. constructor. }
    rewrite fn_lookup_insert_ne in Hq by done.
    destruct IH as [IH1 IH2].
    + intros Hqe. apply Hnc. by eapply anc_step.
    + split; [|done]. by eapply anc_step.
Qed.

Lemma anc_cut Par e p x n :
  reach_root Par n e → Par e = Some p → anc (<[e := None]> Par) p x → anc Par p x ∧ x ≠ e.
Proof.
  intros Hr Hp Ha. eapply anc_cut_aux; [done|]. by eapply reach_root_acyclic.
Qed.

Lemma Inv_exempt_root N P Par Ch Deg Pri (E : gset nat) L R K :
  Inv N P Par Ch Deg Pri E L R K → (∀ x, x ∈ E → Par x = None) →
  Inv N P Par Ch Deg Pri ∅ L R K.
Proof.
  intros HI HE. destruct HI as [? ? ? ? ? ? ? Hord ? ?]. constructor; try done.
  intros x p Hx _ Hp. apply Hord; [done| |done]. intros HxE. by rewrite HE in Hp.
Qed.

Lemma Inv_exempt_mono N P Par Ch Deg Pri (E E' : gset nat) L R K :
  Inv N P Par Ch Deg Pri E L R K → E ⊆ E' → Inv N P Par Ch Deg Pri E' L R K.
Proof.
  intros HI HE. destruct HI as [? ? ? ? ? ? ? Hord ? ?]. constructor; try done.
  intros x p Hx HxE Hp. apply Hord; [done| |done]. set_solver.
Qed.

(** The priority of the root ring's head bounds every priority. *)
Lemma min_le_all N P Par Ch Deg Pri L r R K x :
  Inv N P Par Ch Deg Pri ∅ L (r :: R) K → minimal Pri (r :: R) → x ∈ L →
  f_leb (Pri r) (Pri x) = true.
Proof.
  intros HI Hm Hx. destruct (inv_acyc HI x Hx) as [n Hr].
  induction Hr as [n x Hp|n x p Hp Hr IH].
  - apply Hm. by apply (inv_roots HI).
  - eapply f_leb_trans; [apply IH; by eapply (inv_par HI)|].
    by apply (inv_ord HI).
Qed.

Lemma NoDup_app_cons_elem (B1 B2 : list nat) e x :
  NoDup (B1 ++ e :: B2) → x ∈ B1 ++ B2 ↔ x ∈ B1 ++ e :: B2 ∧ x ≠ e.
Proof.
  intros Hnd. apply list.NoDup_app in Hnd as (_ & H1 & [H2 _]%list.NoDup_cons).
  set_unfold. naive_solver.
Qed.

Lemma Inv_cut N P Par Ch Deg Pri (E : gset nat) L R K e p B1 B2 N' P' Ch' Deg' R' :
  Inv N P Par Ch Deg Pri E L R K → E ⊆ {[e]} → e ∈ L → Par e = Some p →
  K p = B1 ++ e :: B2 →
  ring N' P' R' → (∀ x, x ∈ R' ↔ x = e ∨ x ∈ R) →
  ring N' P' (B1 ++ B2) →
  (∀ x, x ∈ L → x ∉ R → x ∉ K p → N' x = N x ∧ P' x = P x) →
  Ch' p = list.head (B1 ++ B2) → (∀ q, q ≠ p → Ch' q = Ch q) →
  Deg' p = Deg p - 1 → (∀ q, q ≠ p → Deg' q = Deg q) →
  Inv N' P' (<[e := None]> Par) Ch' Deg' Pri ∅ L R' (<[p := B1 ++ B2]> K).
Proof.
  intros HI HE He Hp HK Hring HR' HringK Hfr HCh HCh' HDeg HDeg'.
  assert (HpL : p ∈ L) by (by eapply (inv_par HI)).
  assert (Hnd : NoDup (B1 ++ e :: B2)).
  { rewrite <- HK. eapply ring_NoDup. by apply (inv_kring HI). }
  constructor.
  - done.
  - intros x. rewrite HR'. destruct (decide (x = e)) as [->|Hx]; fn_simpl; [naive_solver|].
    rewrite (inv_roots HI). naive_solver.
  - intros q Hq. destruct (decide (q = p)) as [->|Hqp]; fn_simpl; [done|].
    eapply ring_frame; [| |by apply (inv_kring HI)].
    + intros x Hx. apply (inv_kids HI q x Hq) in Hx as [HxL HxP]. apply Hfr; [done| |].
      * intros ?%(inv_roots HI). naive_solver.
      * intros ?%(inv_kids HI); naive_solver.
    + intros x Hx. apply (inv_kids HI q x Hq) in Hx as [HxL HxP]. apply Hfr; [done| |].
      * intros ?%(inv_roots HI). naive_solver.
      * intros ?%(inv_kids HI); naive_solver.
  - intros q x Hq. destruct (decide (q = p)) as [->|Hqp]; fn_simpl.
    + rewrite NoDup_app_cons_elem by done. rewrite <- HK, (inv_kids HI) by done.
      destruct (decide (x = e)) as [->|Hx]; fn_simpl; naive_solver.
    + rewrite (inv_kids HI) by done.
      destruct (decide (x = e)) as [->|Hx]; fn_simpl; naive_solver.
  - intros q Hq. destruct (decide (q = p)) as [->|Hqp]; fn_simpl; [done|].
    rewrite HCh' by done. by apply (inv_child HI).
  - intros q Hq. destruct (decide (q = p)) as [->|Hqp]; fn_simpl.
    + rewrite HDeg, (inv_deg HI) by done. rewrite HK, !length_app. simpl. lia.
    + rewrite HDeg' by done. by apply (inv_deg HI).
  - intros x q Hx. destruct (decide (x = e)) as [->|Hxe]; fn_simpl; [done|].
    by apply (inv_par HI).
  - intros x q Hx _. destruct (decide (x = e)) as [->|Hxe]; fn_simpl; [done|].
    apply (inv_ord HI); [done|]. set_solver.
  - intros x Hx. destruct (inv_acyc HI x Hx) as [n Hn]. exists n. by apply reach_root_cut.
  - apply (inv_nan HI).
  - apply (inv_bound HI).
Qed.

Lemma frame_ok_refl L f w : frame_ok L f w w.
Proof. done. Qed.

Lemma frame_ok_trans L f w1 w2 w3 :
  frame_ok L f w1 w2 → frame_ok L f w2 w3 → frame_ok L f w1 w3.
Proof.
  intros (A1 & A2 & A3 & A4) (B1 & B2 & B3 & B4). split_and!.
  - intros x Hx. by rewrite B1, A1.
  - intros x. by rewrite B2, A2.
  - intros g Hg. by rewrite B3, A3.
  - intros g. by rewrite B4, A4.
Qed.

Lemma frame_ok_upd L f w w' a u :
  frame_ok L f w w' → a ∈ L → frame_ok L f w (upd a u w').
Proof.
  intros (A1 & A2 & A3 & A4) Ha. split_and!.
  - intros x Hx. rewrite entries_upd_ne by congruence. by apply A1.
  - intros x. by rewrite allocd_upd.
  - done.
  - done.
Qed.

Lemma frame_ok_hupd L f w w' u :
  frame_ok L f w w' → frame_ok L f w (hupd f u w').
Proof.
  intros (A1 & A2 & A3 & A4). split_and!.
  - done.
  - done.
  - intros g Hg. rewrite heaps_hupd_ne' by done. by apply A3.
  - intros g. by rewrite halloc_hupd.
Qed.

Ltac solve_frame :=
  repeat first [ apply frame_ok_hupd | apply frame_ok_upd; [|by eauto] ];
  first [ assumption | apply frame_ok_refl ].

Lemma ring_single_prev N P x l : ring N P (x :: l) → P x = Some x → l = [].
Proof.
  intros [Hnd Hp] Hx. destruct l as [|z' l _] using rev_ind; [done|].
  rewrite <- (assoc_L (++)) in Hp. simpl in Hp. apply path_snoc in Hp as [_ [_ HH]].
  rewrite Hx in HH. injection HH as <-.
  apply list.NoDup_cons in Hnd as [Hnd _]. exfalso. apply Hnd. apply elem_of_snoc. by right.
Qed.

(** The links written by [cutNode] before it recurses. *)
Lemma cut_rings N P e y z r yr B1 B2 R0 :
  ring N P (B1 ++ e :: B2) → ring N P (r :: R0) →
  (∀ x, x ∈ B1 ++ e :: B2 → x ∉ r :: R0) →
  N e = Some y → P e = Some z → N r = Some yr →
  let Nu := if decide (y = e) then N else <[z := Some y]> N in
  let Pu := if decide (y = e) then P else <[y := Some z]> P in
  let Nf := <[e := Some yr]> (<[r := Some e]> (<[e := Some e]> Nu)) in
  let Pf := <[yr := Some e]> (<[e := Some r]> (<[e := Some e]> Pu)) in
  ring Nf Pf (r :: e :: R0) ∧ ring Nf Pf (B1 ++ B2) ∧
  (y ≠ e → list.head (B2 ++ B1) = Some y ∧ z ≠ e) ∧ (y = e → B1 = [] ∧ B2 = []) ∧
  (∀ x, x ∉ B1 ++ e :: B2 → x ∉ r :: R0 → Nf x = N x ∧ Pf x = P x).
Proof.
  intros HrK HrR Hdisj Hy Hz Hyr Nu Pu Nf Pf.
  assert (HndK : NoDup (B1 ++ e :: B2)) by (by eapply ring_NoDup).
  assert (HeK : e ∈ B1 ++ e :: B2) by (set_unfold; naive_solver).
  assert (HyK : y ∈ B1 ++ e :: B2).
  { destruct (ring_next_in _ _ _ e HrK HeK) as (? & ? & ?). congruence. }
  assert (HzK : z ∈ B1 ++ e :: B2).
  { destruct (ring_prev_in _ _ _ e HrK HeK) as (? & ? & ?). congruence. }
  assert (HyrR : yr ∈ r :: R0).
  { destruct (ring_next_in _ _ _ r HrR) as (? & ? & ?); [left|]. congruence. }
  assert (Hsingle : y = e → B1 = [] ∧ B2 = []).
  { intros ->. apply ring_rotate in HrK. simpl in HrK.
    apply ring_single_next in HrK; [|done]. by apply app_eq_nil in HrK as [-> ->]. }
  assert (HrKu : ring Nu Pu (B1 ++ B2) ∧ (y ≠ e → list.head (B2 ++ B1) = Some y ∧ z ≠ e)).
  { unfold Nu, Pu. destruct (decide (y = e)) as [Hye|Hye].
    - destruct (Hsingle Hye) as [-> ->]. done.
    - assert (B1 ++ B2 ≠ []) as Hne.
      { intros [-> ->]%app_eq_nil. apply ring_next_head in HrK. simpl in HrK.
        congruence. }
      destruct (ring_unlink _ _ _ _ _ _ _ HrK Hne Hy Hz) as [? ?].
      split; [done|]. intros _. split; [done|].
      intros ->. apply ring_rotate in HrK. simpl in HrK.
      apply ring_single_prev in HrK; [|done]. by apply app_eq_nil in HrK as [-> ->]. }
  destruct HrKu as [HrKu Hhead].
  assert (Hne : ∀ x, x ∈ B1 ++ B2 → x ≠ e ∧ x ≠ r ∧ x ≠ yr).
  { intros x Hx. apply (NoDup_app_cons_elem _ _ e) in Hx; [|done]. destruct Hx as [Hx Hxe].
    split_and!; [done|intros ->; apply (Hdisj _ Hx)..]; [left|done]. }
  assert (HneR : ∀ x, x ∈ r :: R0 → x ≠ e ∧ x ≠ y ∧ x ≠ z).
  { intros x Hx. split_and!; intros ->; [apply (Hdisj e)|apply (Hdisj y)|apply (Hdisj z)]; done. }
  assert (HrRu : ring (<[e := Some e]> Nu) (<[e := Some e]> Pu) (r :: R0)).
  { eapply ring_frame; [| |exact HrR].
    - intros x (? & ? & ?)%HneR. unfold Nu. case_decide; by fn_simpl.
    - intros x (? & ? & ?)%HneR. unfold Pu. case_decide; by fn_simpl. }
  split_and!.
  - apply (ring_splice _ _ r R0 e [] yr e); [done| | | |].
    + apply ring_singleton. by fn_simpl.
    + intros x Hx Hxe%list_elem_of_singleton. subst. by apply (Hdisj e).
    + destruct (HneR r) as (? & ? & ?); [left|]. unfold Nu. case_decide; by fn_simpl.
    + by fn_simpl.
  - eapply ring_frame; [| |exact HrKu].
    + intros x (? & ? & ?)%Hne. unfold Nf. by fn_simpl.
    + intros x (? & ? & ?)%Hne. unfold Pf. by fn_simpl.
  - done.
  - done.
  - intros x HxK HxR.
    assert (x ≠ e ∧ x ≠ y ∧ x ≠ z ∧ x ≠ r ∧ x ≠ yr) as (? & ? & ? & ? & ?).
    { split_and!; intros ->; try done. apply HxR. left. }
    unfold Nf, Pf, Nu, Pu. case_decide; by fn_simpl.
Qed.

Ltac dec_simpl :=
  repeat first
    [ rewrite decide_True by (done || congruence)
    | rewrite decide_False by (done || congruence) ].

Ltac use_eqs :=
  repeat match goal with
         | H : fld_of _ _ _ _ = _ |- _ => rewrite H
         | H : hmin _ _ = _ |- _ => rewrite H
         end.

Ltac run := repeat (first [step | progress vsimpl | progress hsimpl | progress use_eqs | progress dec_simpl]).

(** The body of [cutNode] up to its recursive call. *)
Lemma cut_prefix_run fuel f (L : gset nat) w e p y z r yr B1 B2 :
  halloc w f → hmin w f = Some r →
  e ∈ L → p ∈ L → y ∈ L → z ∈ L → r ∈ L → yr ∈ L → (∀ x, x ∈ L → allocd w x) →
  vPar w e = Some p → vN w e = Some y → vP w e = Some z → vN w r = Some yr →
  vCh w p = list.head (B1 ++ e :: B2) → NoDup (B1 ++ e :: B2) →
  (y = e → B1 = [] ∧ B2 = []) → (y ≠ e → list.head (B2 ++ B1) = Some y ∧ z ≠ e) →
  p ≠ e → r ≠ e → r ≠ y → r ≠ z → - int_lim ≤ vDeg w p - 1 < int_lim →
  ∃ w5,
    cutNode (S fuel) f (Some e) w =
      ((if vMk w p then let* p1 := load parent (Some e) in cutNode fuel f p1
        else let* p1 := load parent (Some e) in store (with_marked true) p1) ;;;
       store (with_parent None) (Some e)) w5 ∧
    vN w5 = cut_N (vN w) e y z r yr ∧ vP w5 = cut_P (vP w) e y z r yr ∧
    vPar w5 = vPar w ∧ vPri w5 = vPri w ∧ vMk w5 = <[e := false]> (vMk w) ∧
    vCh w5 p = list.head (B1 ++ B2) ∧ (∀ q, q ≠ p → vCh w5 q = vCh w q) ∧
    vDeg w5 = <[p := vDeg w p - 1]> (vDeg w) ∧
    hmin w5 f = (if f_ltb (vPri w r) (vPri w e) then Some r else Some e) ∧
    hsize w5 = hsize w ∧ frame_ok L f w w5.
Proof.
  intros Hf Hmin He Hp Hy Hz Hr Hyr Hal HPar HNe HPz HNr HCh Hnd Hsingle Hsib Hpe Hre Hry Hrz Hbd.
  assert (Hsub : int_sub (vDeg w p) 1 = vDeg w p - 1) by (by apply int_wrap_id).
  assert (allocd w e ∧ allocd w p ∧ allocd w y ∧ allocd w z ∧ allocd w r ∧ allocd w yr)
    as (? & ? & ? & ? & ? & ?) by (split_and!; auto).
  cbn [cutNode]. unfold cut_N, cut_P.
  destruct (decide (y = e)) as [Hye|Hye].
  - destruct (Hsingle Hye) as [-> ->]. subst y. simpl in HCh.
    run.
    erewrite bind_run; cycle 1.
    { apply (mergeLists_run _ r e yr e); [solve_alloc..| |]; vsimpl; by use_eqs. }
    run.
    eexists. split; [reflexivity|]. split_and!; vsimpl; hsimpl; rewrite ?Hsub; try done.
    + intros q Hq. by vsimpl.
    + solve_frame.
  - destruct (Hsib Hye) as [Hhd Hze].
    destruct B1 as [|b B1].
    + simpl in HCh. rewrite app_nil_r in Hhd. simpl.
      run.
      erewrite bind_run; cycle 1.
      { apply (mergeLists_run _ r e yr e); [solve_alloc..| |]; vsimpl; by use_eqs. }
      run.
      eexists. split; [reflexivity|]. split_and!; vsimpl; hsimpl; rewrite ?Hsub; try done.
      * intros q Hq. by vsimpl.
      * solve_frame.
    + simpl in HCh.
      assert (b ≠ e).
      { intros ->. apply list.NoDup_cons in Hnd as [Hnd _]. apply Hnd. set_unfold. naive_solver. }
      run.
      erewrite bind_run; cycle 1.
      { apply (mergeLists_run _ r e yr e); [solve_alloc..| |]; vsimpl; by use_eqs. }
      run.
      eexists. split; [reflexivity|]. split_and!; vsimpl; hsimpl; rewrite ?Hsub; try done.
      solve_frame.
Qed.

Lemma cutNode_spec f L n : ∀ fuel w Par E R K e,
  (n < fuel)%nat → CutInv w f Par E L R K → E ⊆ {[e]} → e ∈ L → reach_root Par n e →
  (∀ x, anc Par e x → Par x = vPar w x) →
  ∃ w' Par' R' K',
    cutNode fuel f (Some e) w = Ok (tt, w') ∧
    CutInv w' f Par' ∅ L R' K' ∧
    Par' e = None ∧
    (∀ x, Par' x = Par x ∨ Par' x = None) ∧
    (∀ x, Par x = vPar w x → Par' x = vPar w' x) ∧
    vPri w' = vPri w ∧ hsize w' = hsize w ∧
    frame_ok L f w w'.
Proof.
  induction n as [n IH] using lt_wf_ind.
  intros fuel w Par E R K e Hfuel HC HE He Hr Hag.
  destruct fuel as [|fuel]; [lia|].
  destruct HC as [Hf Hal Hmin Hmnl HI].
  assert (Hae : allocd w e) by auto.
  assert (HPar : vPar w e = Par e) by (symmetry; apply Hag; constructor).
  destruct (Par e) as [p|] eqn:HPe; cycle 1.
  { cbn [cutNode]. run. eexists _, Par, R, K. split; [reflexivity|]. split_and!.
    - constructor; [solve_halloc|intros; solve_alloc|by hsimpl|by vsimpl|vsimpl].
      eapply Inv_exempt_root; [done|]. intros x Hx. assert (x = e) by set_solver. by subst.
    - done.
    - auto.
    - intros x Hx. by vsimpl.
    - by vsimpl.
    - by hsimpl.
    - solve_frame. }
  assert (HpL : p ∈ L) by (by eapply (inv_par HI)).
  assert (Hpe : p ≠ e).
  { intros ->. eapply reach_root_acyclic; [done..|constructor]. }
  assert (Hap : allocd w p) by auto.
  assert (HeK : e ∈ K p) by (by apply (inv_kids HI)).
  apply list_elem_of_split in HeK as (B1 & B2 & HK).
  destruct R as [|r R0].
  { apply inv_no_roots in HI. set_solver. }
  assert (HrL : r ∈ L) by (eapply inv_root_in; [done|left]).
  destruct (inv_next_in HI e He) as (y & Hy & HNe & _).
  destruct (inv_prev_in HI e He) as (z & Hz & HPz & _).
  destruct (inv_next_in HI r HrL) as (yr & Hyr & HNr & _).
  assert (Hay : allocd w y) by auto. assert (Haz : allocd w z) by auto.
  assert (Har : allocd w r) by auto. assert (Hayr : allocd w yr) by auto.
  assert (Hdisj : ∀ x, x ∈ B1 ++ e :: B2 → x ∉ r :: R0).
  { intros x. rewrite <- HK. intros Hx%(inv_kids HI) Hx'%(inv_roots HI); [|done]. naive_solver. }
  pose proof (inv_kring HI p HpL) as HrK. rewrite HK in HrK.
  destruct (cut_rings _ _ e y z r yr B1 B2 R0 HrK (inv_rring HI) Hdisj HNe HPz HNr)
    as (Hring1 & Hring2 & Hsib & Hsingle & Hfr).
  pose proof (inv_child HI p HpL) as HCh. rewrite HK in HCh.
  assert (Hre : r ≠ e).
  { intros ->. apply (Hdisj e); [set_unfold; naive_solver|left]. }
  assert (Hmin' : hmin w f = Some r) by done.
  assert (Hrn : reach_root Par (pred n) p ∧ (0 < n)%nat).
  { inversion Hr as [? ? Hx|? ? ? Hx Hr']; subst; [congruence|]. simpl.
    rewrite HPe in Hx. injection Hx as <-. split; [done|lia]. }
  destruct Hrn as [Hrp Hn0].
  assert (HneR : ∀ x, x ∈ r :: R0 → x ≠ e ∧ x ≠ y ∧ x ≠ z).
  { assert (e ∈ B1 ++ e :: B2) by (set_unfold; naive_solver).
    assert (y ∈ B1 ++ e :: B2).
    { destruct (ring_next_in _ _ _ e HrK) as (? & ? & ?); [done|]. congruence. }
    assert (z ∈ B1 ++ e :: B2).
    { destruct (ring_prev_in _ _ _ e HrK) as (? & ? & ?); [done|]. congruence. }
    intros x Hx. split_and!; intros ->; [apply (Hdisj e)|apply (Hdisj y)|apply (Hdisj z)]; done. }
  destruct (HneR r) as (_ & Hry & Hrz); [left|].
  assert (Hbd : - int_lim ≤ vDeg w p - 1 < int_lim).
  { pose proof (inv_deg_bound _ _ _ _ _ _ _ _ _ _ p HI HpL) as Hd.
    rewrite (inv_deg HI p HpL), HK, length_app in *. simpl in *. lia. }
  destruct (cut_prefix_run fuel f L w e p y z r yr B1 B2 Hf Hmin' He HpL Hy Hz HrL Hyr Hal
              HPar HNe HPz HNr HCh (ring_NoDup _ _ _ HrK) Hsingle Hsib Hpe Hre Hry Hrz Hbd) as
    (w5 & Hrun5 & HN5 & HP5 & HPar5 & HPri5 & HMk5 & HCh5 & HCh5' & HDeg5 & Hmin5 & Hsz5 & Hfr5).
  rewrite Hrun5. clear Hrun5.
  set (Par1 := <[e := None]> Par).
  set (R1 := if f_ltb (vPri w r) (vPri w e) then r :: e :: R0 else e :: R0 ++ [r]).
  set (K1 := <[p := B1 ++ B2]> K).
  assert (Hal5 : ∀ x, allocd w5 x ↔ allocd w x) by apply Hfr5.
  assert (HC5 : CutInv w5 f Par1 ∅ L R1 K1).
  { constructor.
    - apply Hfr5. done.
    - intros x Hx. apply Hal5. auto.
    - rewrite Hmin5. unfold R1. by destruct (f_ltb _ _).
    - rewrite HPri5. apply minimal_cons_le; [done|by apply (inv_nan HI)..].
    - rewrite HN5, HP5, HDeg5, HPri5.
      eapply (Inv_cut _ _ _ _ _ _ _ _ _ _ e p B1 B2); [done..| | | | |done| |by fn_simpl| ].
      + unfold R1. destruct (f_ltb _ _); [done|]. by apply (ring_rotate _ _ [r] (e :: R0)).
      + intros x. unfold R1. destruct (f_ltb _ _); set_unfold; naive_solver.
      + done.
      + intros x HxL HxR HxK. apply Hfr; [by rewrite <- HK|done].
      + done.
      + intros q Hq. by fn_simpl. }
  assert (HPar1e : vPar w5 e = Some p) by (by rewrite HPar5).
  assert (Hae5 : allocd w5 e) by (by apply Hal5).
  assert (Hap5 : allocd w5 p) by (by apply Hal5).
  destruct (vMk w p) eqn:HMkp.
  - (* the parent was marked: cascade *)
    run.
    destruct (IH (pred n) ltac:(lia) fuel w5 Par1 ∅ R1 K1 p) as
      (w6 & Par2 & R2 & K2 & Hrun6 & HC6 & HP2p & HP2 & HP2' & HPri6 & Hsz6 & Hfr6);
      [lia|done|set_solver|done|by apply reach_root_cut| |].
    { intros x [Hx Hxe]%(anc_cut _ _ _ _ n); [|done..].
      unfold Par1. fn_simpl. rewrite HPar5. apply Hag. by eapply anc_step. }
    rewrite (bind_run _ _ _ _ _ Hrun6).
    assert (Hae6 : allocd w6 e) by (by apply Hfr6).
    run. eexists _, Par2, R2, K2. split; [reflexivity|]. split_and!.
    + destruct HC6. constructor; [solve_halloc|intros; solve_alloc|by hsimpl|by vsimpl|by vsimpl].
    + destruct (HP2 e) as [HH|HH]; [|done]. rewrite HH. unfold Par1. by fn_simpl.
    + intros x. destruct (HP2 x) as [HH|HH]; [|by right]. rewrite HH. unfold Par1.
      destruct (decide (x = e)) as [->|]; fn_simpl; auto.
    + intros x Hx. vsimpl. destruct (decide (x = e)) as [->|Hxe]; fn_simpl.
      * destruct (HP2 e) as [HH|HH]; [|done]. rewrite HH. unfold Par1. by fn_simpl.
      * apply HP2'. unfold Par1. fn_simpl. by rewrite HPar5.
    + vsimpl. by rewrite HPri6, HPri5.
    + hsimpl. by rewrite Hsz6, Hsz5.
    + apply frame_ok_upd; [|done]. by eapply frame_ok_trans.
  - (* the parent gets marked *)
    run. eexists _, Par1, R1, K1. split; [reflexivity|]. split_and!.
    + destruct HC5. constructor; [solve_halloc|intros; solve_alloc|by hsimpl|by vsimpl|by vsimpl].
    + unfold Par1. by fn_simpl.
    + intros x. unfold Par1. destruct (decide (x = e)) as [->|]; fn_simpl; auto.
    + intros x Hx. vsimpl. unfold Par1. destruct (decide (x = e)) as [->|]; fn_simpl; [done|].
      by rewrite HPar5.
    + by vsimpl.
    + by hsimpl.
    + apply frame_ok_upd; [|done]. by apply frame_ok_upd.
Qed.

(** ** Decreasing a key *)

Lemma HeapInv_CutInv w f L R K :
  HeapInv w f L R K ↔ CutInv w f (vPar w) ∅ L R K ∧ hsize w f = Z.of_nat (size L).
Proof.
  split.
  - intros []. split; [constructor|]; done.
  - intros [[] ?]. constructor; done.
Qed.

Lemma Inv_decrease N P Par Ch Deg Pri L R K e newp :
  Inv N P Par Ch Deg Pri ∅ L R K → e ∈ L → f_leb newp (Pri e) = true →
  Inv N P Par Ch Deg (<[e := newp]> Pri) {[e]} L R K.
Proof.
  intros HI He Hle. destruct (f_leb_not_nan _ _ Hle) as [Hnan _].
  destruct HI as [? ? ? ? ? ? Hpar Hord ? Hn]. constructor; try done.
  - intros x p Hx HxE Hp. assert (x ≠ e) by set_solver. fn_simpl.
    destruct (decide (p = e)) as [->|]; fn_simpl.
    + eapply f_leb_trans; [done|]. by apply Hord.
    + by apply Hord.
  - intros x Hx. destruct (decide (x = e)) as [->|]; fn_simpl; auto.
Qed.

(** Moving the head of the root ring to [e]. *)
Lemma minimal_rotate Pri r R0 e :
  (∀ x, x ∈ r :: R0 → x ≠ e → f_leb (Pri r) (Pri x) = true) →
  e ∈ r :: R0 → f_leb (Pri e) (Pri r) = true →
  ∃ A B, r :: R0 = A ++ e :: B ∧ minimal Pri (e :: B ++ A).
Proof.
  intros Hm He Hle. apply list_elem_of_split in He as (A & B & HR).
  exists A, B. split; [done|]. simpl. intros x Hx.
  destruct (decide (x = e)) as [->|Hxe].
  - apply f_leb_refl. by destruct (f_leb_not_nan _ _ Hle).
  - eapply f_leb_trans; [done|]. apply Hm; [|done]. rewrite HR. set_unfold. naive_solver.
Qed.

Lemma Inv_rotate N P Par Ch Deg Pri E L A B K :
  Inv N P Par Ch Deg Pri E L (A ++ B) K → Inv N P Par Ch Deg Pri E L (B ++ A) K.
Proof.
  intros [Hr Hroots ? ? ? ? ? ? ? ?]. constructor; try done.
  - by apply ring_rotate.
  - intros x. rewrite <- Hroots. set_unfold. tauto.
Qed.

Lemma f_leb_ltb_false a b c : f_leb a b = true → f_ltb b c = true → f_leb c a = false.
Proof.
  destruct a, b, c; simpl; try done. rewrite Z.leb_le, Z.ltb_lt, Z.leb_gt. lia.
Qed.

Lemma Inv_exempt_ok N P Par Ch Deg Pri (E : gset nat) L R K :
  Inv N P Par Ch Deg Pri E L R K →
  (∀ x p, x ∈ E → Par x = Some p → f_leb (Pri p) (Pri x) = true) →
  Inv N P Par Ch Deg Pri ∅ L R K.
Proof.
  intros HI HE. destruct HI as [? ? ? ? ? ? ? Hord ? ?]. constructor; try done.
  intros x p Hx _ Hp. destruct (decide (x ∈ E)); [by eapply HE|by apply Hord].
Qed.

(** The last statement of [decreaseKeyUnchecked]: the new minimum. *)
Lemma dku_finish w f L R K e :
  halloc w f → (∀ x, x ∈ L → allocd w x) → hsize w f = Z.of_nat (size L) →
  hmin w f = list.head R →
  Inv (vN w) (vP w) (vPar w) (vCh w) (vDeg w) (vPri w) ∅ L R K →
  e ∈ L →
  (∀ r x, list.head R = Some r → x ∈ R → x ≠ e → f_leb (vPri w r) (vPri w x) = true) →
  (e ∉ R → ∀ r, list.head R = Some r → f_leb (vPri w e) (vPri w r) = false) →
  ∃ w' R',
    (let* pe := load Priority (Some e) in
     let* m := hload heap_min f in
     let* pm := load Priority m in
     if f_leb pe pm then hstore (with_min (Some e)) f else ret tt) w = Ok (tt, w') ∧
    HeapInv w' f L R' K ∧ vPri w' = vPri w ∧ frame_ok L f w w' ∧
    ((∀ x, x ∈ L → f_leb (vPri w e) (vPri w x) = true) → hmin w' f = Some e).
Proof.
  intros Hf Hal Hsz Hmin HI He Hmnl Hnr.
  assert (Hae : allocd w e) by auto.
  destruct R as [|r R0].
  { apply inv_no_roots in HI. set_solver. }
  assert (HrL : r ∈ L) by (eapply inv_root_in; [done|left]).
  assert (Har : allocd w r) by auto.
  assert (Hmin' : hmin w f = Some r) by done.
  assert (Hnan : vPri w e ≠ NaN) by (by apply (inv_nan HI)).
  assert (Hnanr : vPri w r ≠ NaN) by (by apply (inv_nan HI)).
  run. destruct (f_leb (vPri w e) (vPri w r)) eqn:Hc.
  - assert (HeR : e ∈ r :: R0).
    { destruct (decide (e ∈ r :: R0)) as [|HeR]; [done|]. by rewrite (Hnr HeR r) in Hc. }
    destruct (minimal_rotate (vPri w) r R0 e) as (A & B & HR & Hm); [intros x; by apply (Hmnl r x)|done..|].
    run.
    eexists _, (e :: B ++ A). split; [reflexivity|]. split_and!.
    + constructor; [solve_halloc|intros; solve_alloc|by hsimpl|by hsimpl|by vsimpl|vsimpl].
      rewrite HR in HI. by apply (Inv_rotate _ _ _ _ _ _ _ _ A (e :: B)).
    + by vsimpl.
    + solve_frame.
    + intros _. by hsimpl.
  - assert (Hre : r ≠ e).
    { intros ->. by rewrite f_leb_refl in Hc. }
    eexists _, (r :: R0). split; [reflexivity|]. split_and!.
    + constructor; try done. simpl. intros x Hx.
      destruct (decide (x = e)) as [->|]; [|by apply (Hmnl r x)].
      apply f_ltb_leb. by apply f_leb_false_ltb.
    + done.
    + apply frame_ok_refl.
    + intros Hall. rewrite Hall in Hc; done.
Qed.

Lemma decreaseKeyUnchecked_spec w f L R K e newp :
  HeapInv w f L R K → e ∈ L → f_leb newp (vPri w e) = true →
  ∃ n, ∀ fuel, (n ≤ fuel)%nat →
    ∃ w' R' K',
      decreaseKeyUnchecked fuel f (Some e) newp w = Ok (tt, w') ∧
      HeapInv w' f L R' K' ∧
      vPri w' = <[e := newp]> (vPri w) ∧
      frame_ok L f w w' ∧
      ((∀ x, x ∈ L → f_leb newp (vPri w x) = true) → hmin w' f = Some e).
Proof.
  intros HH He Hle. destruct (f_leb_not_nan _ _ Hle) as [Hnan Hnan'].
  destruct HH as [Hf Hal Hsz Hmin Hmnl HI].
  destruct (inv_acyc HI e He) as [n Hn]. exists (S n). intros fuel Hfuel.
  assert (Hae : allocd w e) by auto.
  pose proof (Inv_decrease _ _ _ _ _ _ _ _ _ e newp HI He Hle) as HI1.
  destruct R as [|r R0].
  { apply inv_no_roots in HI. set_solver. }
  assert (HrL : r ∈ L) by (eapply inv_root_in; [done|left]).
  assert (Har : allocd w r) by auto.
  assert (Hmin' : hmin w f = Some r) by done.
  unfold decreaseKeyUnchecked.
  destruct (vPar w e) as [p|] eqn:HPar.
  - (* [e] has a parent *)
    assert (HpL : p ∈ L) by (exact (inv_par HI e p He HPar)).
    assert (Hap : allocd w p) by auto.
    assert (Hpe : p ≠ e).
    { intros ->. eapply reach_root_acyclic; [done..|constructor]. }
    assert (HeR : e ∉ r :: R0).
    { intros ?%(inv_roots HI). naive_solver. }
    assert (Hre : r ≠ e) by (intros ->; apply HeR; left).
    run.
    destruct (f_leb newp (vPri w p)) eqn:Hcut.
    + (* cut *)
      set (w1 := upd e (with_Priority newp) w).
      destruct (cutNode_spec f L n fuel w1 (vPar w) {[e]} (r :: R0) K e) as
        (w2 & Par2 & R2 & K2 & Hrun2 & HC2 & HP2e & _ & HP2 & HPri2 & Hsz2 & Hfr2);
        [lia| |done|done|done| |].
      { constructor; unfold w1; [solve_halloc|intros; solve_alloc|by hsimpl| |by vsimpl].
        vsimpl. simpl. intros x Hx. assert (x ≠ e) by (by intros ->). fn_simpl. by apply Hmnl. }
      { intros x _. unfold w1. by vsimpl. }
      rewrite (bind_run _ _ _ _ _ Hrun2).
      assert (Par2 = vPar w2) as ->.
      { extensionality x. apply HP2. unfold w1. by vsimpl. }
      destruct HC2 as [Hf2 Hal2 Hmin2 Hmnl2 HI2].
      destruct (dku_finish w2 f L R2 K2 e) as (w3 & R3 & Hrun3 & HH3 & HPri3 & Hfr3 & Hmin3);
        [done|done| |done|done|done| | |].
      { rewrite Hsz2. unfold w1. by hsimpl. }
      { intros r2 x Hr2 Hx _. destruct R2 as [|? R2]; [done|]. injection Hr2 as ->.
        by apply Hmnl2. }
      { intros HeR2. exfalso. apply HeR2. by apply (inv_roots HI2). }
      exists w3, R3, K2. split; [exact Hrun3|]. split_and!.
      * done.
      * rewrite HPri3, HPri2. unfold w1. by vsimpl.
      * eapply frame_ok_trans; [|done]. eapply frame_ok_trans; [|done].
        unfold w1. solve_frame.
      * intros Hall. apply Hmin3. intros x Hx. rewrite HPri2. unfold w1. vsimpl.
        destruct (decide (x = e)) as [->|]; fn_simpl; [by apply f_leb_refl|auto].
    + (* no cut: the heap order still holds *)
      assert (Hlt : f_ltb (vPri w p) newp = true).
      { apply f_leb_false_ltb; [done|by apply (inv_nan HI)|done]. }
      rewrite bind_ret.
      set (w1 := upd e (with_Priority newp) w).
      destruct (dku_finish w1 f L (r :: R0) K e) as (w3 & R3 & Hrun3 & HH3 & HPri3 & Hfr3 & Hmin3);
        unfold w1.
      * solve_halloc.
      * intros; solve_alloc.
      * by hsimpl.
      * by hsimpl.
      * vsimpl. eapply Inv_exempt_ok; [done|].
        intros x q ->%elem_of_singleton Hq. assert (q = p) as -> by congruence.
        fn_simpl. by apply f_ltb_leb.
      * done.
      * vsimpl. intros r0 x [= <-] Hx Hxe. fn_simpl. by apply Hmnl.
      * vsimpl. intros _ r0 [= <-]. fn_simpl.
        eapply f_leb_ltb_false; [|done]. by apply (min_le_all _ _ _ _ _ _ L r R0 K p HI).
      * exists w3, R3, K. split; [exact Hrun3|]. split_and!.
        -- done.
        -- rewrite HPri3. unfold w1. by vsimpl.
        -- eapply frame_ok_trans; [|done]. unfold w1. solve_frame.
        -- intros Hall. rewrite Hall in Hcut; done.
  - (* [e] is a root *)
    step. step. vsimpl. rewrite HPar. dec_simpl. rewrite !bind_ret.
    set (w1 := upd e (with_Priority newp) w).
    destruct (dku_finish w1 f L (r :: R0) K e) as (w3 & R3 & Hrun3 & HH3 & HPri3 & Hfr3 & Hmin3);
      unfold w1.
    + solve_halloc.
    + intros; solve_alloc.
    + by hsimpl.
    + by hsimpl.
    + vsimpl. eapply Inv_exempt_root; [done|]. by intros x ->%elem_of_singleton.
    + done.
    + vsimpl. intros r0 x [= <-] Hx Hxe. fn_simpl.
      destruct (decide (r = e)) as [->|]; fn_simpl; [|by apply Hmnl].
      eapply f_leb_trans; [done|]. by apply Hmnl.
    + intros HeR. exfalso. apply HeR. by apply (inv_roots HI).
    + exists w3, R3, K. split; [exact Hrun3|]. split_and!.
      * done.
      * rewrite HPri3. unfold w1. by vsimpl.
      * eapply frame_ok_trans; [|done]. unfold w1. solve_frame.
      * intros Hall. apply Hmin3. intros x Hx. unfold w1. vsimpl.
        destruct (decide (x = e)) as [->|]; fn_simpl; [by apply f_leb_refl|auto].
Qed.

(** ** Removing the minimum: the children become roots *)

Lemma reach_root_weaken Par Par' n x :
  (∀ y, Par' y = Par y ∨ Par' y = None) → reach_root Par n x → reach_root Par' n x.
Proof.
  intros Hw. induction 1 as [n x Hx|n x p Hx Hr IH].
  - constructor. destruct (Hw x); congruence.
  - destruct (Hw x) as [HH|HH].
    + eapply reach_root_step; [|done]. congruence.
    + by constructor.
Qed.

Lemma Inv_remove_root N P Par Ch Deg Pri L r R0 K N' P' Par' R2 :
  Inv N P Par Ch Deg Pri ∅ L (r :: R0) K →
  ring N' P' R2 → (∀ x, x ∈ R2 ↔ x ∈ R0 ∨ x ∈ K r) →
  (∀ x, x ∈ K r → Par' x = None) → (∀ x, x ∉ K r → Par' x = Par x) →
  (∀ x, x ∈ L → x ∉ r :: R0 → x ∉ K r → N' x = N x ∧ P' x = P x) →
  Inv N' P' Par' Ch Deg Pri ∅ (L ∖ {[r]}) R2 K.
Proof.
  intros HI Hring HR2 HPar1 HPar2 Hfr.
  assert (HrL : r ∈ L) by (eapply inv_root_in; [done|left]).
  assert (HrP : Par r = None) by (eapply inv_root_par; [done|left]).
  assert (Hnd : r ∉ R0).
  { pose proof (ring_NoDup _ _ _ (inv_rring HI)) as [? _]%list.NoDup_cons. done. }
  assert (HrK : r ∉ K r).
  { intros ?%(inv_kids HI); [|done]. naive_solver. }
  assert (HKr : ∀ x, x ∈ K r ↔ x ∈ L ∧ Par x = Some r) by (intros x; by apply (inv_kids HI)).
  assert (HR : ∀ x, x ∈ r :: R0 ↔ x ∈ L ∧ Par x = None) by apply (inv_roots HI).
  assert (Hcase : ∀ x p, x ∈ L → x ≠ r → Par' x = Some p → Par x = Some p ∧ p ≠ r ∧ p ∈ L).
  { intros x p Hx Hxr Hp. destruct (decide (x ∈ K r)) as [HxK|HxK].
    - rewrite HPar1 in Hp; done.
    - rewrite HPar2 in Hp by done. split; [done|]. split; [|by eapply (inv_par HI)].
      intros ->. apply HxK. by apply HKr. }
  constructor.
  - done.
  - intros x. rewrite HR2, elem_of_difference, elem_of_singleton. split.
    + intros [Hx|Hx].
      * assert (x ∈ r :: R0) as [? ?]%HR by (by right).
        split_and!; [done|by intros ->|]. rewrite HPar2; [done|]. intros ?%HKr. naive_solver.
      * pose proof Hx as [? ?]%HKr. split_and!; [done|intros ->; done|by apply HPar1].
    + intros [[Hx Hxr] Hp]. destruct (decide (x ∈ K r)) as [|HxK]; [by right|left].
      rewrite HPar2 in Hp by done. assert (x ∈ r :: R0) as HH by (by apply HR).
      set_unfold. naive_solver.
  - intros p [Hp Hpr%not_elem_of_singleton]%elem_of_difference.
    eapply ring_frame; [| |by apply (inv_kring HI)].
    + intros x Hx. apply (inv_kids HI p x Hp) in Hx as [HxL HxP]. apply Hfr; [done| |].
      * intros ?%HR. naive_solver.
      * intros ?%HKr. naive_solver.
    + intros x Hx. apply (inv_kids HI p x Hp) in Hx as [HxL HxP]. apply Hfr; [done| |].
      * intros ?%HR. naive_solver.
      * intros ?%HKr. naive_solver.
  - intros p x [Hp Hpr%not_elem_of_singleton]%elem_of_difference.
    rewrite (inv_kids HI) by done. rewrite elem_of_difference, elem_of_singleton. split.
    + intros [Hx HxP]. assert (x ∉ K r) by (intros ?%HKr; naive_solver).
      split_and!; [done|intros ->; congruence|]. by rewrite HPar2.
    + intros [[Hx Hxr] HxP]. split; [done|]. by eapply Hcase.
  - intros p [Hp _]%elem_of_difference. by apply (inv_child HI).
  - intros p [Hp _]%elem_of_difference. by apply (inv_deg HI).
  - intros x p [Hx Hxr%not_elem_of_singleton]%elem_of_difference Hp.
    destruct (Hcase x p Hx Hxr Hp) as (? & ? & ?). set_solver.
  - intros x p [Hx Hxr%not_elem_of_singleton]%elem_of_difference _ Hp.
    destruct (Hcase x p Hx Hxr Hp) as (? & ? & ?). by apply (inv_ord HI).
  - intros x [Hx _]%elem_of_difference. destruct (inv_acyc HI x Hx) as [n Hn]. exists n.
    eapply reach_root_weaken; [|done]. intros y.
    destruct (decide (y ∈ K r)); [right; by apply HPar1|left; by apply HPar2].
  - intros x [Hx _]%elem_of_difference. by apply (inv_nan HI).
  - pose proof (inv_bound HI).
    assert (size (L ∖ {[r]}) ≤ size L)%nat by (apply subseteq_size; set_solver). lia.
Qed.

Lemma keeps_refl w : keeps w w.
Proof. by repeat split. Qed.

Lemma keeps_trans w1 w2 w3 : keeps w1 w2 → keeps w2 w3 → keeps w1 w3.
Proof.
  intros (A1 & A2 & A3 & A4 & A5 & A6 & A7 & A8) (B1 & B2 & B3 & B4 & B5 & B6 & B7 & B8).
  repeat split; congruence.
Qed.

Lemma keeps_upd_parent w a v : keeps w (upd a (with_parent v) w).
Proof. repeat split; by vsimpl. Qed.

Lemma clearParents_run (L : gset nat) f r c0 : ∀ B x w fuel,
  (length B < fuel)%nat →
  path (vN w) (vP w) x (B ++ [c0]) → c0 ∉ B →
  allocd w r → vCh w r = Some c0 → (∀ y, y ∈ x :: B → allocd w y ∧ y ∈ L) →
  ∃ w', clearParents fuel (Some r) (Some x) w = Ok (tt, w') ∧
    (∀ y, y ∈ x :: B → vPar w' y = None) ∧ (∀ y, y ∉ x :: B → vPar w' y = vPar w y) ∧
    keeps w w' ∧ frame_ok L f w w'.
Proof.
  induction B as [|b B IH]; intros x w fuel Hfuel Hp Hc0 Har HCh Hal.
  - destruct fuel as [|fuel]; [simpl in Hfuel; lia|]. cbn [clearParents].
    destruct (Hal x) as [Hax HxL]; [left|].
    simpl in Hp. destruct Hp as [[HNx _] _].
    run. eexists. split; [reflexivity|]. split_and!.
    + intros y ->%list_elem_of_singleton. by vsimpl.
    + intros y [Hyx _]%not_elem_of_cons. by vsimpl.
    + apply keeps_upd_parent.
    + solve_frame.
  - destruct fuel as [|fuel]; [simpl in Hfuel; lia|]. cbn [clearParents].
    destruct (Hal x) as [Hax HxL]; [left|].
    simpl in Hp. destruct Hp as [[HNx _] Hp].
    assert (b ≠ c0) by (intros ->; apply Hc0; left).
    run.
    destruct (IH b (upd x (with_parent None) w) fuel) as (w' & Hrun & HP1 & HP2 & Hk & Hfr).
    + simpl in Hfuel. lia.
    + by vsimpl.
    + intros ?. apply Hc0. by right.
    + solve_alloc.
    + by vsimpl.
    + intros y Hy. destruct (Hal y) as [? ?]; [by right|]. split; [solve_alloc|done].
    + exists w'. split; [exact Hrun|]. split_and!.
      * intros y [->|Hy]%elem_of_cons; [|by apply HP1].
        destruct (decide (x ∈ b :: B)); [by apply HP1|].
        rewrite HP2 by done. by vsimpl.
      * intros y Hy%not_elem_of_cons. destruct Hy as [Hyx Hy].
        rewrite HP2 by done. by vsimpl.
      * eapply keeps_trans; [apply keeps_upd_parent|done].
      * eapply frame_ok_trans; [|done]. solve_frame.
Qed.

Lemma keeps_data_refl w : keeps_data w w.
Proof. by repeat split. Qed.

Lemma keeps_data_trans w1 w2 w3 : keeps_data w1 w2 → keeps_data w2 w3 → keeps_data w1 w3.
Proof.
  intros (A1 & A2 & A3 & A4 & A5 & A6 & A7) (B1 & B2 & B3 & B4 & B5 & B6 & B7).
  repeat split; congruence.
Qed.

Lemma minimal_splice Pri one A two B :
  minimal Pri (one :: A) → minimal Pri (two :: B) → Pri one ≠ NaN → Pri two ≠ NaN →
  minimal Pri (if f_ltb (Pri one) (Pri two) then one :: B ++ two :: A
               else two :: A ++ one :: B).
Proof.
  intros H1 H2 Hn1 Hn2. destruct (f_ltb (Pri one) (Pri two)) eqn:Hlt; simpl; intros x Hx.
  - apply f_ltb_leb in Hlt.
    assert (x ∈ one :: A ∨ x ∈ two :: B) as [?|?] by (set_unfold; naive_solver).
    + by apply H1.
    + eapply f_leb_trans; [done|]. by apply H2.
  - apply f_ltb_false_leb in Hlt; [|done..].
    assert (x ∈ one :: A ∨ x ∈ two :: B) as [?|?] by (set_unfold; naive_solver).
    + eapply f_leb_trans; [done|]. by apply H1.
    + by apply H2.
Qed.

(** [mergeLists] on the heads of two disjoint rings. *)
Lemma mergeLists_rings w (L : gset nat) f R1 R2 :
  ring (vN w) (vP w) R1 → ring (vN w) (vP w) R2 →
  (∀ x, x ∈ R1 → x ∉ R2) → (∀ x, x ∈ R1 ++ R2 → allocd w x ∧ x ∈ L) →
  ∃ w' R',
    mergeLists (list.head R1) (list.head R2) w = Ok (list.head R', w') ∧
    ring (vN w') (vP w') R' ∧ (∀ x, x ∈ R' ↔ x ∈ R1 ∨ x ∈ R2) ∧
    (∀ x, x ∉ R1 → x ∉ R2 → vN w' x = vN w x ∧ vP w' x = vP w x) ∧
    keeps_data w w' ∧ frame_ok L f w w' ∧
    (minimal (vPri w) R1 → minimal (vPri w) R2 → (∀ x, x ∈ R1 ++ R2 → vPri w x ≠ NaN) →
     minimal (vPri w) R') ∧
    length R' = (length R1 + length R2)%nat.
Proof.
  intros Hr1 Hr2 Hdisj Hal.
  destruct R1 as [|one A], R2 as [|two B].
  - exists w, []. split; [done|].
    split_and!; try done; try apply keeps_data_refl; set_solver.
  - exists w, (two :: B). split; [done|].
    split_and!; try done; try apply keeps_data_refl; set_solver.
  - exists w, (one :: A). split; [done|].
    split_and!; try done; try apply keeps_data_refl; try set_solver; simpl; lia.
  - destruct (ring_next_in _ _ _ one Hr1) as (on & Hon & HNon); [left|].
    destruct (ring_next_in _ _ _ two Hr2) as (tn & Htn & HNtn); [left|].
    assert (Hal1 : ∀ x, x ∈ one :: A → allocd w x ∧ x ∈ L).
    { intros x Hx. apply Hal. apply elem_of_app. by left. }
    assert (Hal2 : ∀ x, x ∈ two :: B → allocd w x ∧ x ∈ L).
    { intros x Hx. apply Hal. apply elem_of_app. by right. }
    destruct (Hal1 one) as [? ?]; [left|]. destruct (Hal2 two) as [? ?]; [left|].
    destruct (Hal1 on) as [? ?]; [done|]. destruct (Hal2 tn) as [? ?]; [done|].
    pose proof (ring_splice _ _ one A two B on tn Hr1 Hr2 Hdisj HNon HNtn) as Hsp.
    eexists _, (if f_ltb (vPri w one) (vPri w two) then one :: B ++ two :: A
                else two :: A ++ one :: B).
    split; [|split_and!].
    + change (list.head (one :: A)) with (Some one).
      change (list.head (two :: B)) with (Some two).
      rewrite (mergeLists_run w one two on tn) by done.
      by destruct (f_ltb _ _).
    + vsimpl. destruct (f_ltb _ _); [done|].
      by apply (ring_rotate _ _ (one :: B) (two :: A)).
    + intros x. destruct (f_ltb _ _); set_unfold; naive_solver.
    + intros x Hx1 Hx2. vsimpl.
      assert (x ≠ one ∧ x ≠ two ∧ x ≠ on ∧ x ≠ tn) as (? & ? & ? & ?).
      { split_and!; intros ->; try done; [apply Hx1|apply Hx2]; left. }
      by fn_simpl.
    + repeat split; by vsimpl.
    + solve_frame.
    + intros Hm1 Hm2 Hnan. apply minimal_splice; [done..| |]; apply Hnan; set_unfold; naive_solver.
    + destruct (f_ltb _ _); simpl; rewrite length_app; simpl; lia.
Qed.

Lemma size_pos_of_elem (L : gset nat) x : x ∈ L → (0 < size L)%nat.
Proof.
  intros Hx. destruct (decide (size L = 0%nat)) as [H0|]; [|lia].
  apply size_empty_inv in H0. set_solver.
Qed.

Lemma dequeue_phase1 w f L r R0 K fuel :
  HeapInv w f L (r :: R0) K → (length (K r) < fuel)%nat →
  ∃ w3 R2,
    DequeueMin fuel f w =
      (let* m := hload heap_min f in
       if decide (m = None) then ret (Some r)
       else let* toVisit := collectRoots fuel [] m in
            consolidate fuel f toVisit [] ;;; ret (Some r)) w3 ∧
    halloc w3 f ∧ (∀ x, x ∈ L → allocd w3 x) ∧
    hsize w3 f = Z.of_nat (size (L ∖ {[r]})) ∧ hmin w3 f = list.head R2 ∧
    Inv (vN w3) (vP w3) (vPar w3) (vCh w3) (vDeg w3) (vPri w3) ∅ (L ∖ {[r]}) R2 K ∧
    vPri w3 = vPri w ∧ vDeg w3 = vDeg w ∧ vMk w3 = vMk w ∧ frame_ok L f w w3 ∧
    length R2 = (length R0 + length (K r))%nat.
Proof.
  intros [Hf Hal Hsz Hmin Hmnl HI] Hfuel.
  assert (HrL : r ∈ L) by (eapply inv_root_in; [done|left]).
  assert (Har : allocd w r) by auto.
  assert (Hmin' : hmin w f = Some r) by done.
  assert (Hsz0 : hsize w f ≠ 0).
  { rewrite Hsz. pose proof (size_pos_of_elem L r HrL). lia. }
  assert (Hsz' : Z.of_nat (size (L ∖ {[r]})) = hsize w f - 1).
  { rewrite Hsz. rewrite size_difference by set_solver. rewrite size_singleton.
    pose proof (size_pos_of_elem L r HrL). lia. }
  destruct (inv_next_in HI r HrL) as (y & Hy & HNr & _).
  destruct (inv_prev_in HI r HrL) as (z & Hz & HPr & _).
  assert (Hay : allocd w y) by auto. assert (Haz : allocd w z) by auto.
  pose proof (inv_rring HI) as HrR.
  pose proof (inv_kring HI r HrL) as HrK.
  pose proof (inv_child HI r HrL) as HChr.
  assert (HKL : ∀ x, x ∈ K r → allocd w x ∧ x ∈ L).
  { intros x Hx. assert (x ∈ L) by (exact (inv_kid_in HI r x HrL Hx)). auto. }
  assert (HRL : ∀ x, x ∈ r :: R0 → allocd w x ∧ x ∈ L).
  { intros x Hx. assert (x ∈ L) by (exact (inv_root_in HI x Hx)). auto. }
  assert (HRK : ∀ x, x ∈ r :: R0 → x ∉ K r).
  { intros x Hx%(inv_roots HI) Hx'%(inv_kids HI); [|done]. naive_solver. }
  assert (Hsub : int_sub (hsize w f) 1 = hsize w f - 1).
  { apply int_wrap_id. pose proof (inv_bound HI). pose proof (size_pos_of_elem L r HrL). lia. }
  unfold DequeueMin. run. rewrite Hsub.
  set (w0 := hupd f (with_size (hsize w f - 1)) w).
  (* the minimum leaves the root ring *)
  assert (∃ w1,
    (∀ {B} (k : unit → M B),
       bind (if decide (Some y = Some r) then hstore (with_min None) f
             else
               let* mp := load prev (Some r) in
               let* mn := load next (Some r) in
               store (with_next mn) mp ;;;
               let* mn0 := load next (Some r) in
               let* mp0 := load prev (Some r) in
               store (with_prev mp0) mn0 ;;;
               let* mn1 := load next (Some r) in hstore (with_min mn1) f) k w0 = k tt w1) ∧
    ring (vN w1) (vP w1) R0 ∧ hmin w1 f = list.head R0 ∧
    (∀ x, x ∉ r :: R0 → vN w1 x = vN w x ∧ vP w1 x = vP w x) ∧
    vPar w1 = vPar w ∧ vCh w1 = vCh w ∧ vDeg w1 = vDeg w ∧ vPri w1 = vPri w ∧
    vMk w1 = vMk w ∧ hsize w1 f = hsize w f - 1 ∧ frame_ok L f w w1)
    as (w1 & Hrun1 & Hr1 & Hmin1 & Hfr1 & HPar1 & HCh1 & HDeg1 & HPri1 & HMk1 & Hsz1 & Hfo1).
  { destruct (decide (y = r)) as [->|Hyr].
    - apply ring_single_next in HrR as ->; [|done].
      eexists. split; [intros B k; unfold w0; run; reflexivity|].
      split_and!; try done; try (by vsimpl); try (by hsimpl).
      unfold w0. solve_frame.
    - destruct R0 as [|y' A].
      { apply ring_next_head in HrR. simpl in HrR. congruence. }
      assert (y' = y) as ->.
      { apply ring_next_head in HrR. simpl in HrR. congruence. }
      assert (Hzr : z ≠ r).
      { intros ->. apply ring_single_prev in HrR; done. }
      eexists. split; [intros B k; unfold w0; run; reflexivity|].
      split_and!; try (by vsimpl); try (by hsimpl).
      + vsimpl. by apply (ring_unlink_head _ _ r).
      + intros x Hx.
        assert (z ∈ r :: y :: A).
        { destruct (ring_prev_in _ _ _ r HrR) as (? & ? & ?); [left|]. congruence. }
        assert (x ≠ z ∧ x ≠ y) as [? ?].
        { split; intros ->; apply Hx; [done|]. right; left. }
        vsimpl. by fn_simpl.
      + unfold w0. solve_frame. }
  rewrite Hrun1. clear Hrun1.
  assert (Hal1 : ∀ x, allocd w1 x ↔ allocd w x) by apply Hfo1.
  assert (Hf1 : halloc w1 f) by (by apply Hfo1).
  assert (Har1 : allocd w1 r) by (by apply Hal1).
  assert (HChr1 : vCh w1 r = list.head (K r)) by (by rewrite HCh1).
  run.
  (* its children lose their parent *)
  assert (HrK1 : ring (vN w1) (vP w1) (K r)).
  { eapply ring_frame; [| |exact HrK]; intros x Hx; apply Hfr1; intros ?; by eapply HRK. }
  assert (∃ w2,
    (∀ {B} (k : unit → M B),
       bind (if decide (list.head (K r) ≠ None) then clearParents fuel (Some r) (list.head (K r))
             else ret tt) k w1 = k tt w2) ∧
    (∀ x, x ∈ K r → vPar w2 x = None) ∧ (∀ x, x ∉ K r → vPar w2 x = vPar w1 x) ∧
    keeps w1 w2 ∧ frame_ok L f w1 w2)
    as (w2 & Hrun2 & HP2 & HP2' & Hk2 & Hfo2).
  { destruct (K r) as [|c0 B] eqn:HKr.
    - exists w1. split; [intros B k; by dec_simpl|].
      split_and!; [by intros x ?%elem_of_nil|done|apply keeps_refl|apply frame_ok_refl].
    - destruct (clearParents_run L f r c0 B c0 w1 fuel) as (w2 & Hrun & ? & ? & ? & ?).
      + simpl in Hfuel. lia.
      + apply HrK1.
      + by apply ring_NoDup, list.NoDup_cons in HrK1 as [? _].
      + done.
      + done.
      + intros x Hx. destruct (HKL x Hx). split; [by apply Hal1|done].
      + exists w2. split; [|done]. intros B' k. simpl. dec_simpl.
        by rewrite (bind_run _ _ _ _ _ Hrun). }
  rewrite Hrun2. clear Hrun2.
  destruct Hk2 as (HN2 & HP2l & HCh2 & HDeg2 & HPri2 & HMk2 & Hmin2 & Hsz2).
  assert (Hal2 : ∀ x, allocd w2 x ↔ allocd w1 x) by apply Hfo2.
  assert (Hf2 : halloc w2 f) by (by apply Hfo2).
  assert (Har2 : allocd w2 r) by (by apply Hal2).
  step. rewrite Hmin2, Hmin1. step. rewrite HCh2, HChr1.
  (* the two rings are merged *)
  destruct (mergeLists_rings w2 L f R0 (K r)) as
    (w3 & R2 & Hrun3 & Hr3 & HR3 & Hfr3 & Hk3 & Hfo3 & _ & Hlen3).
  { by rewrite HN2, HP2l. }
  { by rewrite HN2, HP2l. }
  { intros x Hx. apply HRK. by right. }
  { intros x [Hx|Hx]%elem_of_app.
    - destruct (HRL x) as [? ?]; [by right|]. split; [|done]. by apply Hal2, Hal1.
    - destruct (HKL x Hx) as [? ?]. split; [|done]. by apply Hal2, Hal1. }
  rewrite (bind_run _ _ _ _ _ Hrun3).
  destruct Hk3 as (HPar3 & HCh3 & HDeg3 & HPri3 & HMk3 & Hmin3 & Hsz3).
  assert (Hf3 : halloc w3 f) by (by apply Hfo3).
  step.
  exists (hupd f (with_min (list.head R2)) w3), R2. split; [reflexivity|].
  split_and!.
  - solve_halloc.
  - intros x Hx. red_alloc. apply Hfo3, Hal2, Hal1. auto.
  - hsimpl. rewrite Hsz3, Hsz2, Hsz1. done.
  - by hsimpl.
  - vsimpl. rewrite HCh3, HCh2, HCh1, HDeg3, HDeg2, HDeg1, HPri3, HPri2, HPri1.
    eapply Inv_remove_root; [done|done|done| | |].
    + intros x Hx. rewrite HPar3. by apply HP2.
    + intros x Hx. rewrite HPar3, HP2' by done. by rewrite HPar1.
    + intros x HxL HxR HxK.
      destruct (Hfr3 x) as [-> ->]; [intros ?; apply HxR; by right|done|].
      rewrite HN2, HP2l. by apply Hfr1.
  - vsimpl. by rewrite HPri3, HPri2, HPri1.
  - vsimpl. by rewrite HDeg3, HDeg2, HDeg1.
  - vsimpl. by rewrite HMk3, HMk2, HMk1.
  - apply frame_ok_hupd. eapply frame_ok_trans; [|done]. by eapply frame_ok_trans.
  - done.
Qed.

(** ** Consolidation *)

Lemma reach_root_link Par mn mx n x :
  Par mx = None → Par mn = None → mn ≠ mx →
  reach_root Par n x → reach_root (<[mx := Some mn]> Par) (S n) x.
Proof.
  intros Hmx Hmn Hne. induction 1 as [n x Hx|n x p Hx Hr IH].
  - destruct (decide (x = mx)) as [->|].
    + eapply reach_root_step; [by fn_simpl|]. constructor. by fn_simpl.
    + constructor. by fn_simpl.
  - assert (x ≠ mx) by congruence.
    eapply reach_root_step; [|done]. by fn_simpl.
Qed.

(** The root [mx] becomes a child of the root [mn]. *)
Lemma Inv_link N P Par Ch Deg Pri L Rc K mn mx N' P' Rc' newK :
  Inv N P Par Ch Deg Pri ∅ L Rc K →
  mn ∈ Rc → mx ∈ Rc → mn ≠ mx → f_leb (Pri mn) (Pri mx) = true →
  ring N' P' Rc' → (∀ x, x ∈ Rc' ↔ x ∈ Rc ∧ x ≠ mx) →
  ring N' P' newK → (∀ x, x ∈ newK ↔ x = mx ∨ x ∈ K mn) →
  length newK = S (length (K mn)) →
  (∀ x, x ∈ L → x ∉ Rc → x ∉ K mn → N' x = N x ∧ P' x = P x) →
  Inv N' P' (<[mx := Some mn]> Par) (<[mn := list.head newK]> Ch)
    (<[mn := Deg mn + 1]> Deg) Pri ∅ L Rc' (<[mn := newK]> K).
Proof.
  intros HI Hmn Hmx Hne Hle Hring HRc' HringK HnewK Hlen Hfr.
  pose proof (inv_roots HI) as HR.
  assert (HmnL : mn ∈ L) by (by apply HR).
  assert (HmxL : mx ∈ L) by (by apply HR).
  assert (HmnP : Par mn = None) by (by apply HR).
  assert (HmxP : Par mx = None) by (by apply HR).
  constructor.
  - done.
  - intros x. rewrite HRc', HR. destruct (decide (x = mx)) as [->|]; fn_simpl; naive_solver.
  - intros p Hp. destruct (decide (p = mn)) as [->|Hpm]; fn_simpl; [done|].
    eapply ring_frame; [| |by apply (inv_kring HI)].
    + intros x Hx. apply (inv_kids HI p x Hp) in Hx as [HxL HxP]. apply Hfr; [done| |].
      * intros ?%HR. naive_solver.
      * intros ?%(inv_kids HI); naive_solver.
    + intros x Hx. apply (inv_kids HI p x Hp) in Hx as [HxL HxP]. apply Hfr; [done| |].
      * intros ?%HR. naive_solver.
      * intros ?%(inv_kids HI); naive_solver.
  - intros p x Hp. destruct (decide (p = mn)) as [->|Hpm]; fn_simpl.
    + rewrite HnewK, (inv_kids HI) by done.
      destruct (decide (x = mx)) as [->|]; fn_simpl; naive_solver.
    + rewrite (inv_kids HI) by done.
      destruct (decide (x = mx)) as [->|]; fn_simpl; naive_solver.
  - intros p Hp. destruct (decide (p = mn)) as [->|Hpm]; fn_simpl; [done|].
    by apply (inv_child HI).
  - intros p Hp. destruct (decide (p = mn)) as [->|Hpm]; fn_simpl.
    + rewrite Hlen, (inv_deg HI) by done. lia.
    + by apply (inv_deg HI).
  - intros x p Hx. destruct (decide (x = mx)) as [->|]; fn_simpl.
    + by intros [= <-].
    + by apply (inv_par HI).
  - intros x p Hx _. destruct (decide (x = mx)) as [->|]; fn_simpl.
    + by intros [= <-].
    + by apply (inv_ord HI).
  - intros x Hx. destruct (inv_acyc HI x Hx) as [n Hn]. exists (S n).
    by apply reach_root_link.
  - apply (inv_nan HI).
  - apply (inv_bound HI).
Qed.

Lemma growTable_lookup T d i :
  growTable T d !! i = Some None ∨ growTable T d !! i = T !! i.
Proof.
  unfold growTable. destruct (decide (i < length T)%nat).
  - right. by rewrite lookup_app_l.
  - rewrite lookup_app_r by lia.
    destruct (replicate _ _ !! _) eqn:HH.
    + apply lookup_replicate in HH as [-> _]. by left.
    + right. symmetry. apply lookup_ge_None. lia.
Qed.

Lemma growTable_lookup_Some T d i t :
  growTable T d !! i = Some (Some t) ↔ T !! i = Some (Some t).
Proof.
  split.
  - intros HH. destruct (growTable_lookup T d i) as [H1|H1]; congruence.
  - intros HH. unfold growTable. rewrite lookup_app_l; [done|]. by eapply lookup_lt_Some.
Qed.

Lemma growTable_length T d : 0 ≤ d → (Z.to_nat d < length (growTable T d))%nat.
Proof. intros Hd. unfold growTable. rewrite length_app, length_replicate. lia. Qed.

Lemma tableGet_run {B} T d (k : ptr → M B) w :
  0 ≤ d →
  ∃ s, growTable T d !! Z.to_nat d = Some s ∧
       bind (tableGet (growTable T d) d) k w = k s w.
Proof.
  intros Hd. destruct (lookup_lt_is_Some_2 (growTable T d) (Z.to_nat d)) as [s Hs].
  { by apply growTable_length. }
  exists s. split; [done|]. unfold tableGet. rewrite decide_False by lia. by rewrite Hs.
Qed.

Lemma tableSet_run {B} T d v (k : list ptr → M B) w :
  0 ≤ d →
  bind (tableSet (growTable T d) d v) k w = k (<[Z.to_nat d := v]> (growTable T d)) w.
Proof.
  intros Hd. unfold tableSet. rewrite decide_False by lia.
  rewrite decide_True by (by apply growTable_length). done.
Qed.

(** The loop that lists the roots goes once around the root ring. *)
Lemma collect_run m : ∀ B A x w fuel,
  NoDup (A ++ x :: B) → list.head A = Some m →
  path (vN w) (vP w) x (B ++ [m]) → (∀ y, y ∈ x :: B → allocd w y) →
  (S (length B) < fuel)%nat →
  collectRoots fuel (Some <$> A) (Some x) w = Ok (Some <$> (A ++ x :: B), w).
Proof.
  induction B as [|b B IH]; intros A x w fuel Hnd HA Hp Hal Hfuel.
  - destruct fuel as [|[|fuel]]; [simpl in Hfuel; lia..|].
    destruct A as [|m' A]; [done|]. injection HA as ->.
    assert (m ≠ x).
    { intros ->. apply list.NoDup_cons in Hnd as [Hnd _]. apply Hnd. set_unfold. naive_solver. }
    assert (allocd w x) by (apply Hal; left).
    simpl in Hp. destruct Hp as [[HNx _] _].
    cbn [collectRoots]. simpl.
    rewrite bool_decide_eq_false_2 by congruence. simpl. run.
    rewrite bool_decide_eq_true_2 by done. simpl.
    unfold ret. do 2 f_equal.
    change (Some m :: (Some <$> A) ++ [Some x] = Some m :: (Some <$> A ++ [x])).
    by rewrite fmap_app.
  - destruct fuel as [|fuel]; [simpl in Hfuel; lia|].
    destruct A as [|m' A]; [done|]. injection HA as ->.
    assert (m ≠ x).
    { intros ->. apply list.NoDup_cons in Hnd as [Hnd _]. apply Hnd. set_unfold. naive_solver. }
    assert (allocd w x) by (apply Hal; left).
    simpl in Hp. destruct Hp as [[HNx _] Hp].
    cbn [collectRoots]. simpl.
    rewrite bool_decide_eq_false_2 by congruence. simpl. run.
    change (Some m :: list_fmap nat ptr Some A ++ [Some x])
      with ((Some <$> (m :: A)) ++ (Some <$> [x])).
    rewrite <- fmap_app.
    rewrite (IH ((m :: A) ++ [x]) b w fuel).
    + by rewrite <- (assoc_L (++)).
    + by rewrite <- (assoc_L (++)).
    + done.
    + done.
    + intros y Hy. apply Hal. by right.
    + simpl in Hfuel. lia.
Qed.

Lemma collect_start w m R' fuel :
  ring (vN w) (vP w) (m :: R') → (∀ y, y ∈ m :: R' → allocd w y) →
  (S (length R') < fuel)%nat →
  collectRoots fuel [] (Some m) w = Ok (Some <$> (m :: R'), w).
Proof.
  intros [Hnd Hp] Hal Hfuel.
  destruct fuel as [|fuel]; [lia|].
  assert (allocd w m) by (apply Hal; left).
  destruct R' as [|x B].
  - destruct fuel as [|fuel]; [simpl in Hfuel; lia|].
    simpl in Hp. destruct Hp as [[HNx _] _].
    cbn [collectRoots]. simpl. run.
    by rewrite bool_decide_eq_true_2 by done.
  - simpl in Hp. destruct Hp as [[HNx _] Hp].
    cbn [collectRoots]. simpl. run.
    change (collectRoots fuel _ (Some x) w) with (collectRoots fuel (Some <$> [m]) (Some x) w).
    rewrite (collect_run m B [m] x w fuel); try done.
    + intros y Hy. apply Hal. by right.
    + simpl in Hfuel. lia.
Qed.

(** One merge of the consolidation: the root [mx] is linked under the
    root [mn]. *)
Lemma link_run {B} (X : M B) w f (L : gset nat) Rc K mn mx :
  halloc w f → (∀ x, x ∈ L → allocd w x) →
  Inv (vN w) (vP w) (vPar w) (vCh w) (vDeg w) (vPri w) ∅ L Rc K →
  mn ∈ Rc → mx ∈ Rc → mn ≠ mx → f_leb (vPri w mn) (vPri w mx) = true →
  ∃ w1 Rc1 K1,
    (let* mn' := load next (Some mx) in
     let* mp := load prev (Some mx) in
     store (with_prev mp) mn' ;;;
     let* mp0 := load prev (Some mx) in
     let* mn0 := load next (Some mx) in
     store (with_next mn0) mp0 ;;;
     store (with_next (Some mx)) (Some mx) ;;;
     store (with_prev (Some mx)) (Some mx) ;;;
     let* mc := load child (Some mn) in
     let* r := mergeLists mc (Some mx) in
     store (with_child r) (Some mn) ;;;
     store (with_parent (Some mn)) (Some mx) ;;;
     store (with_marked false) (Some mx) ;;;
     let* dm := load degree (Some mn) in
     store (with_degree (int_add dm 1)) (Some mn) ;;; X) w = X w1 ∧
    Inv (vN w1) (vP w1) (vPar w1) (vCh w1) (vDeg w1) (vPri w1) ∅ L Rc1 K1 ∧
    (∀ x, x ∈ Rc1 ↔ x ∈ Rc ∧ x ≠ mx) ∧ (length Rc1 < length Rc)%nat ∧
    vDeg w1 = <[mn := vDeg w mn + 1]> (vDeg w) ∧ vPri w1 = vPri w ∧
    hmin w1 = hmin w ∧ hsize w1 = hsize w ∧ vMk w1 = <[mx := false]> (vMk w) ∧
    frame_ok L f w w1.
Proof.
  intros Hf Hal HI Hmn Hmx Hne Hle.
  pose proof (inv_roots HI) as HR.
  assert (HmnL : mn ∈ L) by (by apply HR).
  assert (HmxL : mx ∈ L) by (by apply HR).
  destruct (inv_next_in HI mx HmxL) as (y & Hy & HNy & _).
  destruct (inv_prev_in HI mx HmxL) as (z & Hz & HPz & _).
  assert (allocd w mn ∧ allocd w mx ∧ allocd w y ∧ allocd w z) as (? & ? & ? & ?)
    by (split_and!; auto).
  pose proof (inv_rring HI) as HrR.
  pose proof Hmx as (A & A' & HRc)%list_elem_of_split.
  rewrite HRc in HrR.
  assert (HAne : A ++ A' ≠ []).
  { intros [-> ->]%app_eq_nil. rewrite HRc in Hmn. set_unfold. naive_solver. }
  destruct (ring_unlink _ _ _ _ _ _ _ HrR HAne HNy HPz) as [Hru _].
  assert (HyR : y ∈ Rc).
  { destruct (ring_next_in _ _ _ mx (inv_rring HI) Hmx) as (? & ? & ?). congruence. }
  assert (HzR : z ∈ Rc).
  { destruct (ring_prev_in _ _ _ mx (inv_rring HI) Hmx) as (? & ? & ?). congruence. }
  assert (Hnd : NoDup (A ++ mx :: A')) by (by eapply ring_NoDup).
  assert (HAA : ∀ x, x ∈ A ++ A' ↔ x ∈ Rc ∧ x ≠ mx).
  { intros x. rewrite HRc. by apply NoDup_app_cons_elem. }
  assert (HKR : ∀ x, x ∈ K mn → x ∉ Rc).
  { intros x Hx%(inv_kids HI) Hx'%HR; [|done]. naive_solver. }
  assert (HKL : ∀ x, x ∈ K mn → x ∈ L).
  { intros x Hx. exact (inv_kid_in HI mn x HmnL Hx). }
  pose proof (inv_child HI mn HmnL) as HCh.
  assert (Hadd : int_add (vDeg w mn) 1 = vDeg w mn + 1).
  { apply int_wrap_id.
    pose proof (inv_deg_bound_succ _ _ _ _ _ _ _ _ _ _ mn mx HI HmnL HmxL) as Hd.
    pose proof int_lim_pos. split; [|apply Hd]; [|intros ?; by eapply HKR]. 
    assert (0 ≤ vDeg w mn + 1); [|lia]. apply Hd. intros ?; by eapply HKR. }
  assert (y ≠ mx ∧ z ≠ mx) as [Hymx Hzmx].
  { pose proof (ring_rotate _ _ _ _ HrR) as Hrot. simpl in Hrot. split; intros ->.
    - apply ring_single_next in Hrot; [|done]. by apply app_eq_nil in Hrot as [-> ->].
    - apply ring_single_prev in Hrot; [|done]. by apply app_eq_nil in Hrot as [-> ->]. }
  run.
  set (ws := upd mx (with_prev (Some mx)) (upd mx (with_next (Some mx))
               (upd z (with_next (Some y)) (upd y (with_prev (Some z)) w)))).
  assert (Hals : ∀ x, allocd ws x ↔ allocd w x).
  { intros x. unfold ws. solve_alloc. }
  destruct (mergeLists_rings ws L f (K mn) [mx]) as
    (wm & newK & Hrunm & Hrm & Hnew & Hfrm & Hkm & Hfom & _ & Hlen).
  { unfold ws. vsimpl. eapply ring_frame; [| |by apply (inv_kring HI mn)].
    - intros x Hx. assert (x ≠ mx ∧ x ≠ z) as [? ?] by (split; intros ->; by eapply HKR).
      by fn_simpl.
    - intros x Hx. assert (x ≠ mx ∧ x ≠ y) as [? ?] by (split; intros ->; by eapply HKR).
      by fn_simpl. }
  { apply ring_singleton. unfold ws. vsimpl. by fn_simpl. }
  { intros x Hx Hx'%list_elem_of_singleton. subst. by eapply HKR. }
  { intros x [Hx|Hx%list_elem_of_singleton]%elem_of_app; subst.
    - split; [apply Hals|]; auto.
    - split; [apply Hals|]; auto. }
  change (list.head [mx]) with (Some mx) in Hrunm.
  rewrite (bind_run _ _ _ _ _ Hrunm).
  destruct Hkm as (HParm & HChm & HDegm & HPrim & HMkm & Hminm & Hszm).
  assert (Halm : ∀ x, allocd wm x ↔ allocd w x).
  { intros x. rewrite <- Hals. apply Hfom. }
  assert (allocd wm mn ∧ allocd wm mx) as [? ?] by (split; apply Halm; done).
  run.
  eexists _, (A ++ A'), (<[mn := newK]> K). split; [reflexivity|]. split_and!.
  - vsimpl. rewrite HParm, HChm, HDegm, HPrim. unfold ws. vsimpl. rewrite Hadd.
    eapply (Inv_link _ _ _ _ _ _ _ _ _ mn mx); [done..| |done| | | |].
    + eapply ring_frame; [| |exact Hru].
      * intros x [HxR Hxm]%HAA. destruct (Hfrm x) as [-> _].
        -- intros ?. by eapply HKR.
        -- by intros ?%list_elem_of_singleton.
        -- unfold ws. vsimpl. by fn_simpl.
      * intros x [HxR Hxm]%HAA. destruct (Hfrm x) as [_ ->].
        -- intros ?. by eapply HKR.
        -- by intros ?%list_elem_of_singleton.
        -- unfold ws. vsimpl. by fn_simpl.
    + done.
    + intros x. rewrite Hnew. set_unfold. naive_solver.
    + rewrite Hlen. simpl. lia.
    + intros x HxL HxR HxK. destruct (Hfrm x) as [-> ->]; [done| |].
      * intros ?%list_elem_of_singleton. naive_solver.
      * assert (x ≠ mx ∧ x ≠ y ∧ x ≠ z) as (? & ? & ?) by (split_and!; intros ->; done).
        unfold ws. vsimpl. by fn_simpl.
  - done.
  - rewrite HRc, !length_app. simpl. lia.
  - vsimpl. rewrite HDegm. unfold ws. vsimpl. by rewrite Hadd.
  - vsimpl. rewrite HPrim. unfold ws. by vsimpl.
  - hsimpl. rewrite Hminm. unfold ws. by hsimpl.
  - hsimpl. rewrite Hszm. unfold ws. by hsimpl.
  - vsimpl. rewrite HMkm. unfold ws. by vsimpl.
  - do 4 (apply frame_ok_upd; [|done]). eapply frame_ok_trans; [|done].
    unfold ws. solve_frame.
Qed.

Lemma mergeLoop_spec f L n : ∀ fuel w Rc K T c,
  length Rc = n → (n ≤ fuel)%nat → ConsInv w f L Rc K T → c ∈ Rc → ¬ in_tbl T c →
  ∃ w' Rc' K' T' c',
    mergeLoop fuel T (Some c) w = Ok ((T', Some c'), w') ∧
    ConsInv w' f L Rc' K' T' ∧ c' ∈ Rc' ∧ in_tbl T' c' ∧ (c' = c ∨ in_tbl T c') ∧
    (∀ t, in_tbl T' t → t = c' ∨ in_tbl T t) ∧
    (∀ x, x ∈ Rc' ↔ x ∈ Rc ∧ (x = c ∨ in_tbl T x → in_tbl T' x)) ∧
    f_leb (vPri w c') (vPri w c) = true ∧
    (∀ t, in_tbl T t → in_tbl T' t ∨ f_leb (vPri w c') (vPri w t) = true) ∧
    (length Rc' ≤ length Rc)%nat ∧
    vPri w' = vPri w ∧ hmin w' = hmin w ∧ hsize w' = hsize w ∧
    (∀ x, vMk w' x = true → vMk w x = true) ∧ frame_ok L f w w'.
Proof.
  induction n as [n IH] using lt_wf_ind.
  intros fuel w Rc K T c Hlen Hfuel [Hf Hal HI HT] Hc HcT.
  assert (HcL : c ∈ L) by (by eapply inv_root_in).
  assert (Hac : allocd w c) by auto.
  assert (Hd : 0 ≤ vDeg w c) by (rewrite (inv_deg HI) by done; lia).
  assert (Hnanc : vPri w c ≠ NaN) by (by apply (inv_nan HI)).
  assert (0 < n)%nat.
  { subst n. destruct Rc; [by apply elem_of_nil in Hc|simpl; lia]. }
  destruct fuel as [|fuel]; [lia|].
  cbn [mergeLoop]. step.
  set (d := vDeg w c) in *. set (T1 := growTable T d).
  assert (HdT1 : (Z.to_nat d < length T1)%nat) by (by apply growTable_length).
  destruct (lookup_lt_is_Some_2 T1 (Z.to_nat d) HdT1) as [s Hs].
  assert (HT1 : ∀ i t, T1 !! i = Some (Some t) ↔ T !! i = Some (Some t)).
  { intros i t. apply growTable_lookup_Some. }
  unfold tableGet at 1. rewrite decide_False by lia. rewrite Hs. rewrite bind_ret.
  destruct s as [o|].
  - (* the slot is taken: merge *)
    assert (HoT : T !! Z.to_nat d = Some (Some o)) by (by apply HT1).
    destruct (HT _ _ HoT) as [HoR Hdo].
    assert (Hoc : o ≠ c).
    { intros ->. apply HcT. by eexists. }
    assert (HoL : o ∈ L) by (by eapply inv_root_in).
    assert (Hao : allocd w o) by auto.
    assert (Hnano : vPri w o ≠ NaN) by (by apply (inv_nan HI)).
    step. fold d. unfold tableGet at 1. rewrite decide_False by lia. rewrite Hs, bind_ret.
    step. fold d. unfold tableSet at 1. rewrite decide_False by lia.
    rewrite decide_True by done. rewrite bind_ret. step. step.
    set (T2 := <[Z.to_nat d := None]> T1).
    assert (HT2 : ∀ t, in_tbl T2 t ↔ in_tbl T t ∧ t ≠ o).
    { intros t. unfold in_tbl, T2. split.
      - intros [i Hi]. rewrite list_lookup_insert in Hi. case_decide as Hdec; [done|].
        apply HT1 in Hi. split; [by eexists|]. intros ->.
        destruct (HT _ _ Hi) as [_ Hdi]. apply Hdec. split; [|done]. lia.
      - intros [[i Hi] Hto]. exists i. rewrite list_lookup_insert_ne; [by apply HT1|].
        intros <-. congruence. }
    assert (Hlink : ∀ mn mx, mn ∈ Rc → mx ∈ Rc → mn ≠ mx →
      f_leb (vPri w mn) (vPri w mx) = true →
      (mn = o ∧ mx = c ∨ mn = c ∧ mx = o) →
      ∃ w' Rc' K' T' c',
        (let* mn' := load next (Some mx) in
         let* mp := load prev (Some mx) in
         store (with_prev mp) mn' ;;;
         let* mp0 := load prev (Some mx) in
         let* mn0 := load next (Some mx) in
         store (with_next mn0) mp0 ;;;
         store (with_next (Some mx)) (Some mx) ;;;
         store (with_prev (Some mx)) (Some mx) ;;;
         let* mc := load child (Some mn) in
         let* r := mergeLists mc (Some mx) in
         store (with_child r) (Some mn) ;;;
         store (with_parent (Some mn)) (Some mx) ;;;
         store (with_marked false) (Some mx) ;;;
         let* dm := load degree (Some mn) in
         store (with_degree (int_add dm 1)) (Some mn) ;;; mergeLoop fuel T2 (Some mn)) w
          = Ok ((T', Some c'), w') ∧
        ConsInv w' f L Rc' K' T' ∧ c' ∈ Rc' ∧ in_tbl T' c' ∧ (c' = c ∨ in_tbl T c') ∧
        (∀ t, in_tbl T' t → t = c' ∨ in_tbl T t) ∧
        (∀ x, x ∈ Rc' ↔ x ∈ Rc ∧ (x = c ∨ in_tbl T x → in_tbl T' x)) ∧
        f_leb (vPri w c') (vPri w c) = true ∧
        (∀ t, in_tbl T t → in_tbl T' t ∨ f_leb (vPri w c') (vPri w t) = true) ∧
        (length Rc' ≤ length Rc)%nat ∧
        vPri w' = vPri w ∧ hmin w' = hmin w ∧ hsize w' = hsize w ∧
        (∀ x, vMk w' x = true → vMk w x = true) ∧ frame_ok L f w w').
    { intros mn mx Hmn Hmx Hne Hle Hcase.
      destruct (link_run (mergeLoop fuel T2 (Some mn)) w f L Rc K mn mx) as
        (w1 & Rc1 & K1 & Hrun1 & HI1 & HRc1 & Hlen1 & HDeg1 & HPri1 & Hmin1 & Hsz1 & HMk1 & Hfo1);
        [done..|].
      rewrite Hrun1. clear Hrun1.
      assert (Hmn1 : mn ∈ Rc1) by (by apply HRc1).
      assert (HmnT2 : ¬ in_tbl T2 mn).
      { intros [HH ?]%HT2. destruct Hcase as [[-> ->]|[-> ->]]; done. }
      destruct (IH (length Rc1) ltac:(lia) fuel w1 Rc1 K1 T2 mn) as
        (w' & Rc' & K' & T' & c' & Hrun & HC' & Hc' & Hc'T & Hc'o & HT' & HRc' & Hle' & Hrem & Hlen' &
         HPri' & Hmin' & Hsz' & HMk' & Hfo'); [done|lia| |done|done|].
      { constructor; [by apply Hfo1|intros; apply Hfo1; auto|done|].
        intros i t Hi. unfold T2 in Hi. rewrite list_lookup_insert in Hi.
        case_decide as Hdec; [done|].
        apply HT1 in Hi. destruct (HT _ _ Hi) as [HtR Hti].
        assert (t ≠ o).
        { intros ->. apply Hdec. split; [|done]. lia. }
        assert (t ≠ c).
        { intros ->. apply HcT. by eexists. }
        split.
        - apply HRc1. split; [done|]. destruct Hcase as [[-> ->]|[-> ->]]; done.
        - rewrite HDeg1. assert (t ≠ mn) by (destruct Hcase as [[-> ->]|[-> ->]]; done).
          by fn_simpl. }
      rewrite HPri1 in *.
      assert (Hmnc : f_leb (vPri w mn) (vPri w c) = true ∧ f_leb (vPri w mn) (vPri w o) = true).
      { destruct Hcase as [[-> ->]|[-> ->]]; split; try done; by apply f_leb_refl. }
      destruct Hmnc as [Hmnc Hmno].
      exists w', Rc', K', T', c'. split; [done|]. split_and!; try done.
      - destruct Hc'o as [->|[HH _]%HT2]; [|by right].
        destruct Hcase as [[-> ->]|[-> ->]]; [right; by eexists|by left].
      - intros t [->|[HH _]%HT2]%HT'; auto.
      - intros x. rewrite HRc', HRc1. split.
        + intros [[HxR Hxm] Himp]. split; [done|]. intros [->|HxT].
          * apply Himp. left. destruct Hcase as [[-> ->]|[-> ->]]; done.
          * apply Himp. destruct (decide (x = o)) as [->|].
            -- left. destruct Hcase as [[-> ->]|[-> ->]]; done.
            -- right. by apply HT2.
        + intros [HxR Himp].
          assert (x ≠ mx) as Hxm.
          { intros ->. assert (in_tbl T' mx) as HmxT'.
            { apply Himp. destruct Hcase as [[-> ->]|[-> ->]]; [by left|right; by eexists]. }
            destruct HmxT' as [i Hi]. destruct (co_tbl _ _ _ _ _ _ HC' _ _ Hi) as [HH _].
            apply HRc' in HH as [HH _]. apply HRc1 in HH as [_ HH]. done. }
          split; [done|]. intros [->|[HxT _]%HT2]; apply Himp.
          * destruct Hcase as [[-> ->]|[-> ->]]; [right; by eexists|by left].
          * by right.
      - by eapply f_leb_trans.
      - intros t HtT. destruct (decide (t = o)) as [->|].
        + right. by eapply f_leb_trans.
        + apply Hrem. by apply HT2.
      - lia.
      - by rewrite Hmin'.
      - by rewrite Hsz'.
      - intros x Hx%HMk'. rewrite HMk1 in Hx.
        destruct (decide (x = mx)) as [->|]; [by rewrite fn_lookup_insert in Hx|].
        by rewrite fn_lookup_insert_ne in Hx.
      - by eapply frame_ok_trans. }
    destruct (f_ltb (vPri w o) (vPri w c)) eqn:Hlt.
    + apply (Hlink o c); [done..| |by left]. by apply f_ltb_leb.
    + apply (Hlink c o); [done..| | |by right]; [done|]. by apply f_ltb_false_leb.
  - (* the slot is free *)
    unfold tableSet. rewrite decide_False by lia. rewrite decide_True by done.
    rewrite bind_ret.
    assert (HTd : ∀ i t, T !! i = Some (Some t) → i ≠ Z.to_nat d).
    { intros i t Hi%HT1 ->. congruence. }
    exists w, Rc, K, (<[Z.to_nat d := Some c]> T1), c. split; [reflexivity|].
    assert (Hin : in_tbl (<[Z.to_nat d := Some c]> T1) c).
    { exists (Z.to_nat d). by apply list_lookup_insert_eq. }
    assert (Hsub : ∀ t, in_tbl T t → in_tbl (<[Z.to_nat d := Some c]> T1) t).
    { intros t [i Hi]. exists i. rewrite list_lookup_insert_ne; [by apply HT1|].
      apply not_eq_sym. by eapply HTd. }
    split_and!; try done.
    + constructor; try done. intros i t Hi. rewrite list_lookup_insert in Hi.
      case_decide as Hdec.
      * destruct Hdec as [<- _]. injection Hi as <-. split; [done|]. fold d. lia.
      * apply HT. by apply HT1.
    + by left.
    + intros t [i Hi]. rewrite list_lookup_insert in Hi. case_decide.
      * left. congruence.
      * right. exists i. by apply HT1.
    + intros x. split; [|tauto]. intros HxR. split; [done|]. intros [->|?]; auto.
    + by apply f_leb_refl.
    + intros t Ht%Hsub. by left.
Qed.

Lemma consolidate_spec f L : ∀ V fuel w Rc K T m,
  (length Rc ≤ fuel)%nat → ConsInv w f L Rc K T →
  NoDup V → (∀ v, v ∈ V → v ∈ Rc ∧ ¬ in_tbl T v) → (∀ x, x ∈ Rc → in_tbl T x ∨ x ∈ V) →
  hmin w f = Some m → (in_tbl T m ∨ list.head V = Some m) →
  (∀ t, in_tbl T t → f_leb (vPri w m) (vPri w t) = true) →
  ∃ w' R' K',
    consolidate fuel f (Some <$> V) T w = Ok (tt, w') ∧
    halloc w' f ∧ (∀ x, x ∈ L → allocd w' x) ∧
    hmin w' f = list.head R' ∧ minimal (vPri w') R' ∧
    Inv (vN w') (vP w') (vPar w') (vCh w') (vDeg w') (vPri w') ∅ L R' K' ∧
    distinct_degrees (vDeg w') R' ∧
    vPri w' = vPri w ∧ hsize w' = hsize w ∧
    (∀ x, vMk w' x = true → vMk w x = true) ∧ frame_ok L f w w'.
Proof.
  induction V as [|v V IH]; intros fuel w Rc K T m Hfuel HC Hnd HV Hcov Hmin Hm Hmnl.
  - destruct HC as [Hf Hal HI HT].
    destruct Hm as [HmT|?]; [|done].
    assert (Hall : ∀ x, x ∈ Rc → in_tbl T x).
    { intros x Hx. destruct (Hcov x Hx) as [?|?%elem_of_nil]; done. }
    assert (HmR : m ∈ Rc).
    { destruct HmT as [i Hi]. by apply (HT i m). }
    apply list_elem_of_split in HmR as (A & B & HRc).
    exists w, (m :: B ++ A), K. split; [reflexivity|]. split_and!; try done.
    + simpl. intros x Hx. apply Hmnl, Hall. rewrite HRc. set_unfold. naive_solver.
    + rewrite HRc in HI. by apply (Inv_rotate _ _ _ _ _ _ _ _ A (m :: B)).
    + intros x y Hx Hy Hxy Hdeg.
      destruct (Hall x) as [i Hi]; [rewrite HRc; set_unfold; naive_solver|].
      destruct (Hall y) as [j Hj]; [rewrite HRc; set_unfold; naive_solver|].
      destruct (HT _ _ Hi) as [_ Hdi]. destruct (HT _ _ Hj) as [_ Hdj].
      assert (i = j) by lia. subst j. congruence.
  - apply list.NoDup_cons in Hnd as [HvV HndV].
    destruct (HV v) as [HvR HvT]; [left|].
    destruct (mergeLoop_spec f L (length Rc) fuel w Rc K T v) as
      (w1 & Rc1 & K1 & T1 & c' & Hrun1 & HC1 & Hc' & Hc'T & Hc'o & HT1 & HRc1 & Hle1 & Hrem & Hlen1 &
       HPri1 & Hmin1 & Hsz1 & HMk1 & Hfo1); [done..|].
    pose proof HC as [Hf Hal HI HT].
    pose proof HC1 as [Hf1 Hal1 HI1 HT1'].
    assert (HmL : m ∈ L).
    { destruct Hm as [[i Hi]|[= ->]].
      - apply (inv_root_in HI). by apply (HT i m).
      - by apply (inv_root_in HI). }
    assert (Hc'L : c' ∈ L) by (exact (inv_root_in HI1 c' Hc')).
    assert (Hnanm : vPri w m ≠ NaN) by (by apply (inv_nan HI)).
    assert (Hnanc : vPri w c' ≠ NaN) by (rewrite <- HPri1; by apply (inv_nan HI1)).
    cbn [fmap list_fmap consolidate].
    rewrite (bind_run _ _ _ _ _ Hrun1). simpl.
    assert (allocd w1 c' ∧ allocd w1 m) as [? ?] by (split; auto).
    assert (Hmin1' : hmin w1 f = Some m) by (by rewrite Hmin1).
    step. step. rewrite Hmin1'. step. rewrite HPri1.
    set (m' := if f_leb (vPri w c') (vPri w m) then c' else m).
    set (w2 := if f_leb (vPri w c') (vPri w m) then hupd f (with_min (Some c')) w1 else w1).
    assert (Hrun2 : ∀ {B} (k : unit → M B),
      bind (if f_leb (vPri w c') (vPri w m) then hstore (with_min (Some c')) f else ret tt) k w1
      = k tt w2).
    { intros B k. unfold w2. destruct (f_leb (vPri w c') (vPri w m)); by run. }
    rewrite Hrun2. clear Hrun2.
    assert (HC2 : ConsInv w2 f L Rc1 K1 T1).
    { unfold w2. destruct (f_leb (vPri w c') (vPri w m)); [|done].
      constructor; [solve_halloc|intros; solve_alloc|by vsimpl|by vsimpl]. }
    assert (Hmin2 : hmin w2 f = Some m').
    { unfold w2, m'. destruct (f_leb (vPri w c') (vPri w m)); [by hsimpl|done]. }
    assert (HPri2 : vPri w2 = vPri w).
    { unfold w2. destruct (f_leb (vPri w c') (vPri w m)); [by vsimpl|done]. }
    assert (Hfo2 : frame_ok L f w w2).
    { unfold w2. destruct (f_leb (vPri w c') (vPri w m)); [by apply frame_ok_hupd|done]. }
    assert (Hsz2 : hsize w2 = hsize w).
    { unfold w2. destruct (f_leb (vPri w c') (vPri w m)); [by hsimpl|done]. }
    assert (HMk2 : ∀ x, vMk w2 x = true → vMk w x = true).
    { unfold w2. destruct (f_leb (vPri w c') (vPri w m)); [vsimpl|]; done. }
    assert (Hm'T : in_tbl T1 m' ∧ ∀ t, in_tbl T1 t → f_leb (vPri w m') (vPri w t) = true).
    { unfold m'. destruct (f_leb (vPri w c') (vPri w m)) eqn:Hcmp.
      - split; [done|]. intros t [->|HtT]%HT1; [by apply f_leb_refl|].
        eapply f_leb_trans; [done|]. by apply Hmnl.
      - assert (Hlt : f_leb (vPri w m) (vPri w c') = true).
        { apply f_ltb_leb. by apply f_leb_false_ltb. }
        split.
        + destruct Hm as [HmT|[= ->]]; [|congruence].
          destruct (Hrem m HmT) as [?|?]; [done|congruence].
        + intros t [->|HtT]%HT1; [done|]. by apply Hmnl. }
    destruct Hm'T as [Hm'T Hm'le].
    destruct (IH fuel w2 Rc1 K1 T1 m') as
      (w' & R' & K' & Hrun & Hf' & Hal' & Hmin' & Hmnl' & HI' & Hdd & HPri' & Hsz' & HMk' & Hfo').
    + lia.
    + done.
    + done.
    + intros v' Hv'. destruct (HV v') as [Hv'R Hv'T]; [by right|]. split.
      * apply HRc1. split; [done|]. intros [->|?]; done.
      * intros [->|?]%HT1; [|done]. destruct Hc'o as [->|?]; done.
    + intros x [HxR Himp]%HRc1. destruct (Hcov x HxR) as [?|[->|?]%elem_of_cons]; auto.
    + done.
    + by left.
    + by rewrite HPri2.
    + exists w', R', K'. split; [exact Hrun|]. split_and!; try done.
      * by rewrite HPri', HPri2.
      * by rewrite Hsz', Hsz2.
      * auto.
      * by eapply frame_ok_trans.
Qed.

(** [DequeueMin] ends when its fuel is the number of entries plus two. *)
Lemma DequeueMin_spec_fuel w f L R K fuel :
  HeapInv w f L R K → (size L + 2 ≤ fuel)%nat →
    ∃ w' R' K',
      DequeueMin fuel f w = Ok (list.head R, w') ∧
      HeapInv w' f (L ∖ opt_set (list.head R)) R' K' ∧
      (R ≠ [] → distinct_degrees (vDeg w') R') ∧
      vPri w' = vPri w ∧
      (∀ x, vMk w' x = true → vMk w x = true) ∧ frame_ok L f w w'.
Proof.
  intros HH Hfuel0. destruct R as [|r R0].
  - destruct HH as [Hf Hal Hsz Hmin Hmnl HI].
    assert (L = ∅) as -> by (by eapply inv_no_roots).
    exists w, [], K. split.
    + unfold DequeueMin. rewrite size_empty in Hsz. run. reflexivity.
    + simpl. rewrite difference_empty_L. split_and!; try done.
  - assert (Hfuel : (length (K r) + length R0 + 2 ≤ fuel)%nat).
    { pose proof (hi_inv _ _ _ _ _ HH) as HI.
      assert (HrL : r ∈ L) by (apply (inv_root_in HI); left).
      assert (Hnd : NoDup (K r ++ r :: R0)).
      { apply list.NoDup_app. split_and!.
        - apply (ring_NoDup _ _ _ (inv_kring HI r HrL)).
        - intros x Hx%(inv_kids HI) HxR%(inv_roots HI); [|done]. naive_solver.
        - apply (ring_NoDup _ _ _ (inv_rring HI)). }
      apply (NoDup_length_size _ L) in Hnd.
      - rewrite length_app in Hnd. simpl in Hnd. lia.
      - intros x [Hx|Hx]%elem_of_app; [by apply (inv_kid_in HI r)|by apply (inv_root_in HI)]. }
    destruct (dequeue_phase1 w f L r R0 K fuel HH) as
      (w3 & R2 & Hrun3 & Hf3 & Hal3 & Hsz3 & Hmin3 & HI3 & HPri3 & HDeg3 & HMk3 & Hfo3 & Hlen3);
      [lia|].
    rewrite Hrun3. clear Hrun3. simpl.
    step. destruct R2 as [|m R2'].
    + rewrite Hmin3. simpl. dec_simpl.
      exists w3, [], K. split; [reflexivity|]. split_and!; try done.
      * constructor; try done. intros x Hx. apply Hal3. set_solver.
      * intros _ x y Hx. by apply elem_of_nil in Hx.
      * intros x Hx. by rewrite HMk3 in Hx.
    + rewrite Hmin3. simpl. dec_simpl.
      assert (HRL : ∀ y, y ∈ m :: R2' → allocd w3 y).
      { intros y Hy. apply Hal3. apply (inv_root_in HI3) in Hy. set_solver. }
      rewrite (bind_run _ _ _ _ _ (collect_start w3 m R2' fuel (inv_rring HI3) HRL
                 ltac:(simpl in Hlen3; lia))).
      destruct (consolidate_spec f (L ∖ {[r]}) (m :: R2') fuel w3 (m :: R2') K [] m) as
        (w' & R' & K' & Hrun & Hf' & Hal' & Hmin' & Hmnl' & HI' & Hdd & HPri' & Hsz' & HMk' & Hfo').
      * simpl in *. lia.
      * constructor; try done;
          try (intros i t Hi; by rewrite lookup_nil in Hi);
          try (intros x Hx; apply Hal3; set_solver).
      * by apply (ring_NoDup _ _ _ (inv_rring HI3)).
      * intros v Hv. split; [done|]. intros [i Hi]. by rewrite lookup_nil in Hi.
      * intros x Hx. by right.
      * done.
      * by right.
      * intros t [i Hi]. by rewrite lookup_nil in Hi.
      * rewrite (bind_run _ _ _ _ _ Hrun).
        exists w', R', K'. split; [reflexivity|]. split_and!.
        -- constructor; try done. by rewrite Hsz', Hsz3.
        -- done.
        -- by rewrite HPri'.
        -- intros x Hx%HMk'. by rewrite HMk3 in Hx.
        -- eapply frame_ok_trans; [done|].
           destruct Hfo' as (A1 & A2 & A3 & A4). split_and!; try done.
           intros x Hx. apply A1. set_solver.
Qed.

Lemma DequeueMin_spec w f L R K :
  HeapInv w f L R K →
  ∃ n, ∀ fuel, (n ≤ fuel)%nat →
    ∃ w' R' K',
      DequeueMin fuel f w = Ok (list.head R, w') ∧
      HeapInv w' f (L ∖ opt_set (list.head R)) R' K' ∧
      (R ≠ [] → distinct_degrees (vDeg w') R') ∧
      vPri w' = vPri w ∧
      (∀ x, vMk w' x = true → vMk w x = true) ∧ frame_ok L f w w'.
Proof.
  intros HH. exists (size L + 2)%nat. intros fuel Hfuel. by apply (DequeueMin_spec_fuel w f L R K).
Qed.

(** ** Heaps side by side: frame and union *)

Lemma Inv_ext N P Par Ch Deg Pri N' P' Par' Ch' Deg' Pri' (E L : gset nat) R K :
  (∀ x, x ∈ L → N' x = N x ∧ P' x = P x ∧ Par' x = Par x ∧ Ch' x = Ch x ∧
                Deg' x = Deg x ∧ Pri' x = Pri x) →
  Inv N P Par Ch Deg Pri E L R K → Inv N' P' Par' Ch' Deg' Pri' E L R K.
Proof.
  intros Hext HI.
  assert (HR : ∀ x, x ∈ R → x ∈ L) by (intros x; apply (inv_root_in HI)).
  assert (HK : ∀ p x, p ∈ L → x ∈ K p → x ∈ L) by (intros p x; apply (inv_kid_in HI)).
  constructor.
  - eapply ring_frame; [| |by apply (inv_rring HI)]; intros x Hx%HR; by apply Hext.
  - intros x. rewrite (inv_roots HI). split; intros [Hx HP]; (split; [done|]).
    + destruct (Hext x Hx) as (_ & _ & -> & _). done.
    + destruct (Hext x Hx) as (_ & _ & <- & _). done.
  - intros p Hp. eapply ring_frame; [| |by apply (inv_kring HI)];
      intros x Hx; apply Hext; by eapply HK.
  - intros p x Hp. rewrite (inv_kids HI) by done. split; intros [Hx HP]; (split; [done|]).
    + destruct (Hext x Hx) as (_ & _ & -> & _). done.
    + destruct (Hext x Hx) as (_ & _ & <- & _). done.
  - intros p Hp. destruct (Hext p Hp) as (_ & _ & _ & -> & _). by apply (inv_child HI).
  - intros p Hp. destruct (Hext p Hp) as (_ & _ & _ & _ & -> & _). by apply (inv_deg HI).
  - intros x p Hx. destruct (Hext x Hx) as (_ & _ & -> & _). by apply (inv_par HI).
  - intros x p Hx HxE. destruct (Hext x Hx) as (_ & _ & HP & _ & _ & ->). rewrite HP.
    intros Hp. assert (p ∈ L) by (by eapply (inv_par HI)).
    destruct (Hext p) as (_ & _ & _ & _ & _ & ->); [done|]. by apply (inv_ord HI).
  - intros x Hx. destruct (inv_acyc HI x Hx) as [n Hn]. exists n.
    eapply (reach_root_ext Par Par' L); [| |done..].
    + intros y Hy. by destruct (Hext y Hy) as (_ & _ & -> & _).
    + apply (inv_par HI).
  - intros x Hx. destruct (Hext x Hx) as (_ & _ & _ & _ & _ & ->). by apply (inv_nan HI).
  - apply (inv_bound HI).
Qed.

Lemma fld_of_frame {A} (d : A) fld w w' x :
  entries w' !! x = entries w !! x → fld_of d fld w' x = fld_of d fld w x.
Proof. intros HH. unfold fld_of. by rewrite HH. Qed.

Lemma minimal_ext Pri Pri' R :
  (∀ x, x ∈ R → Pri' x = Pri x) → minimal Pri R → minimal Pri' R.
Proof.
  destruct R as [|r R]; [done|]. simpl. intros Hext Hm x Hx.
  rewrite !Hext; [by apply Hm|done|left].
Qed.

(** An operation that leaves the entries of a heap and its object alone
    keeps its invariant. *)
Lemma HeapInv_frame w w' f L R K :
  (∀ x, x ∈ L → entries w' !! x = entries w !! x) →
  heaps w' !! f = heaps w !! f →
  HeapInv w f L R K → HeapInv w' f L R K.
Proof.
  intros He Hh [Hf Hal Hsz Hmin Hmnl HI].
  assert (HR : ∀ x, x ∈ R → x ∈ L) by (intros x; apply (inv_root_in HI)).
  constructor.
  - unfold halloc in *. rewrite elem_of_dom in *. by rewrite Hh.
  - intros x Hx. unfold allocd in *. rewrite elem_of_dom in *. rewrite He by done.
    apply elem_of_dom. by apply Hal.
  - unfold hsize in *. by rewrite Hh.
  - unfold hmin in *. by rewrite Hh.
  - eapply minimal_ext; [|done]. intros x Hx%HR. by apply fld_of_frame, He.
  - eapply Inv_ext; [|done]. intros x Hx. split_and!; by apply fld_of_frame, He.
Qed.

Lemma HeapInv_empty w f K :
  heaps w !! f = Some (mkFibHeap None 0) → HeapInv w f ∅ [] K.
Proof.
  intros Hf. constructor.
  - apply elem_of_dom. by eexists.
  - by intros x ?%not_elem_of_empty.
  - unfold hsize. by rewrite Hf.
  - unfold hmin. by rewrite Hf.
  - done.
  - constructor; try done; try (by intros ? ?%not_elem_of_empty);
      try (by intros ? ? ?%not_elem_of_empty).
    intros x. split; [by intros ?%elem_of_nil|by intros [?%not_elem_of_empty _]].
Qed.

(** The union of two heaps whose root rings were spliced. *)
Lemma Inv_union N P Par Ch Deg Pri (L1 L2 : gset nat) R1 R2 K1 K2 N' P' R' :
  Inv N P Par Ch Deg Pri ∅ L1 R1 K1 → Inv N P Par Ch Deg Pri ∅ L2 R2 K2 →
  L1 ## L2 → Z.of_nat (size L1) + Z.of_nat (size L2) < int_lim →
  ring N' P' R' → (∀ x, x ∈ R' ↔ x ∈ R1 ∨ x ∈ R2) →
  (∀ x, x ∉ R1 → x ∉ R2 → N' x = N x ∧ P' x = P x) →
  Inv N' P' Par Ch Deg Pri ∅ (L1 ∪ L2) R'
    (λ p, if decide (p ∈ L1) then K1 p else K2 p).
Proof.
  intros HI1 HI2 Hdisj Hbd Hring HR' Hfr.
  assert (Hc1 : ∀ x p, x ∈ L1 → Par x = Some p → p ∈ L1) by apply (inv_par HI1).
  assert (Hc2 : ∀ x p, x ∈ L2 → Par x = Some p → p ∈ L2) by apply (inv_par HI2).
  constructor.
  - done.
  - intros x. rewrite HR', (inv_roots HI1), (inv_roots HI2), elem_of_union. tauto.
  - intros p Hp. destruct (decide (p ∈ L1)) as [Hp1|Hp1].
    + eapply ring_frame; [| |by apply (inv_kring HI1)].
      * intros x Hx. apply (inv_kids HI1 p x Hp1) in Hx as [HxL HxP]. apply Hfr.
        -- intros ?%(inv_roots HI1). naive_solver.
        -- intros ?%(inv_roots HI2). naive_solver.
      * intros x Hx. apply (inv_kids HI1 p x Hp1) in Hx as [HxL HxP]. apply Hfr.
        -- intros ?%(inv_roots HI1). naive_solver.
        -- intros ?%(inv_roots HI2). naive_solver.
    + assert (Hp2 : p ∈ L2) by set_solver.
      eapply ring_frame; [| |by apply (inv_kring HI2)].
      * intros x Hx. apply (inv_kids HI2 p x Hp2) in Hx as [HxL HxP]. apply Hfr.
        -- intros ?%(inv_roots HI1). naive_solver.
        -- intros ?%(inv_roots HI2). naive_solver.
      * intros x Hx. apply (inv_kids HI2 p x Hp2) in Hx as [HxL HxP]. apply Hfr.
        -- intros ?%(inv_roots HI1). naive_solver.
        -- intros ?%(inv_roots HI2). naive_solver.
  - intros p x Hp. destruct (decide (p ∈ L1)) as [Hp1|Hp1].
    + rewrite (inv_kids HI1) by done. rewrite elem_of_union. split; [naive_solver|].
      intros [[?|Hx2] HP]; [done|]. exfalso. apply (Hdisj p); [done|]. by eapply Hc2.
    + assert (Hp2 : p ∈ L2) by set_solver.
      rewrite (inv_kids HI2) by done. rewrite elem_of_union. split; [naive_solver|].
      intros [[Hx1|?] HP]; [|done]. exfalso. apply Hp1. by eapply Hc1.
  - intros p Hp. destruct (decide (p ∈ L1)) as [Hp1|Hp1].
    + by apply (inv_child HI1).
    + apply (inv_child HI2). set_solver.
  - intros p Hp. destruct (decide (p ∈ L1)) as [Hp1|Hp1].
    + by apply (inv_deg HI1).
    + apply (inv_deg HI2). set_solver.
  - intros x p [Hx|Hx]%elem_of_union HP; apply elem_of_union; [left|right]; eauto.
  - intros x p [Hx|Hx]%elem_of_union _ HP; [by apply (inv_ord HI1)|by apply (inv_ord HI2)].
  - intros x [Hx|Hx]%elem_of_union; [by apply (inv_acyc HI1)|by apply (inv_acyc HI2)].
  - intros x [Hx|Hx]%elem_of_union; [by apply (inv_nan HI1)|by apply (inv_nan HI2)].
  - rewrite size_union by done. lia.
Qed.

Lemma halloc_hins f v w g : halloc (hins f v w) g ↔ g = f ∨ halloc w g.
Proof. unfold halloc, hins; simpl. rewrite dom_insert_L. set_solver. Qed.

Lemma hmin_hins f v w : hmin (hins f v w) = <[f := heap_min v]> (hmin w).
Proof.
  extensionality g. unfold hmin, hins; simpl. destruct (decide (f = g)) as [<-|].
  - by rewrite fn_lookup_insert, lookup_insert_eq.
  - by rewrite fn_lookup_insert_ne, lookup_insert_ne.
Qed.

Lemma hsize_hins f v w : hsize (hins f v w) = <[f := heap_size v]> (hsize w).
Proof.
  extensionality g. unfold hsize, hins; simpl. destruct (decide (f = g)) as [<-|].
  - by rewrite fn_lookup_insert, lookup_insert_eq.
  - by rewrite fn_lookup_insert_ne, lookup_insert_ne.
Qed.

Lemma bind_NewFibHeap {B} (k : hptr → M B) w :
  bind NewFibHeap k w =
    k (fresh (dom (heaps w))) (hins (fresh (dom (heaps w))) (mkFibHeap None 0) w).
Proof. done. Qed.

Lemma HeapInv_empty' w f K :
  halloc w f → hmin w f = None → hsize w f = 0 → HeapInv w f ∅ [] K.
Proof.
  intros Hf Hmin Hsz. constructor.
  - done.
  - by intros x ?%not_elem_of_empty.
  - by rewrite Hsz, size_empty.
  - done.
  - done.
  - constructor; try done; try (by intros ? ?%not_elem_of_empty);
      try (by intros ? ? ?%not_elem_of_empty).
    intros x. split; [by intros ?%elem_of_nil|by intros [?%not_elem_of_empty _]].
Qed.

Lemma MergeFibHeap_spec w h1 h2 L1 L2 R1 R2 K1 K2 :
  HeapInv w h1 L1 R1 K1 → HeapInv w h2 L2 R2 K2 → h1 ≠ h2 → L1 ## L2 →
  Z.of_nat (size L1) + Z.of_nat (size L2) < int_lim →
  let h3 := fresh (dom (heaps w)) in
  ∃ w' R' K',
    MergeFibHeap h1 h2 w = Ok (h3, w') ∧
    HeapInv w' h3 (L1 ∪ L2) R' K' ∧ HeapInv w' h1 ∅ [] K1 ∧ HeapInv w' h2 ∅ [] K1 ∧
    hsize w' h3 = hsize w h1 + hsize w h2 ∧
    vPri w' = vPri w ∧ vMk w' = vMk w ∧
    (∀ x, x ∉ L1 ∪ L2 → entries w' !! x = entries w !! x) ∧
    (∀ x, allocd w' x ↔ allocd w x) ∧
    (∀ g, g ≠ h1 → g ≠ h2 → g ≠ h3 → heaps w' !! g = heaps w !! g) ∧
    (∀ g, halloc w' g ↔ g = h3 ∨ halloc w g).
Proof.
  intros [Hf1 Hal1 Hsz1 Hmin1 Hmnl1 HI1] [Hf2 Hal2 Hsz2 Hmin2 Hmnl2 HI2] Hne Hdisj Hbd h3.
  assert (Hadd : int_add (hsize w h1) (hsize w h2) = hsize w h1 + hsize w h2).
  { apply int_wrap_id. pose proof int_lim_pos. lia. }
  assert (Hh3 : ¬ halloc w h3) by apply is_fresh.
  assert (h1 ≠ h3 ∧ h2 ≠ h3) as [Hn13 Hn23] by (split; intros ->; done).
  unfold MergeFibHeap. rewrite bind_NewFibHeap. fold h3.
  set (w1 := hins h3 (mkFibHeap None 0) w).
  assert (halloc w1 h1 ∧ halloc w1 h2 ∧ halloc w1 h3) as (? & ? & ?).
  { unfold w1. rewrite !halloc_hins. auto. }
  assert (Hm1 : hmin w1 h1 = list.head R1).
  { unfold w1. rewrite hmin_hins. by fn_simpl. }
  assert (Hm2 : hmin w1 h2 = list.head R2).
  { unfold w1. rewrite hmin_hins. by fn_simpl. }
  assert (Hs1 : hsize w1 h1 = hsize w h1).
  { unfold w1. rewrite hsize_hins. by fn_simpl. }
  assert (Hs2 : hsize w1 h2 = hsize w h2).
  { unfold w1. rewrite hsize_hins. by fn_simpl. }
  step. step. rewrite Hm1, Hm2.
  assert (HRL1 : ∀ x, x ∈ R1 → x ∈ L1) by (intros x; apply (inv_root_in HI1)).
  assert (HRL2 : ∀ x, x ∈ R2 → x ∈ L2) by (intros x; apply (inv_root_in HI2)).
  destruct (mergeLists_rings w1 (L1 ∪ L2) h3 R1 R2) as
    (w2 & R' & Hrun2 & Hr2 & HR2 & Hfr2 & Hk2 & Hfo2 & Hmnl & _).
  { apply (inv_rring HI1). }
  { apply (inv_rring HI2). }
  { intros x Hx1%HRL1 Hx2%HRL2. by apply (Hdisj x). }
  { intros x [Hx%HRL1|Hx%HRL2]%elem_of_app; (split; [unfold w1, allocd; simpl|set_solver]).
    - by apply Hal1.
    - by apply Hal2. }
  rewrite (bind_run _ _ _ _ _ Hrun2).
  destruct Hk2 as (HPar2 & HCh2 & HDeg2 & HPri2 & HMk2 & Hmin2' & Hsz2').
  assert (halloc w2 h1 ∧ halloc w2 h2 ∧ halloc w2 h3) as (? & ? & ?).
  { split_and!; by apply Hfo2. }
  run. rewrite Hsz2', Hs1, Hs2, Hadd.
  eexists _, R', _. split; [reflexivity|]. split_and!.
  - constructor.
    + solve_halloc.
    + intros x Hx. red_alloc. apply Hfo2. unfold w1, allocd; simpl.
      apply elem_of_union in Hx as [?|?]; [by apply Hal1|by apply Hal2].
    + hsimpl. rewrite Hsz1, Hsz2. rewrite size_union by done. lia.
    + by hsimpl.
    + vsimpl. rewrite HPri2. apply Hmnl; [done..|].
      intros x [Hx%HRL1|Hx%HRL2]%elem_of_app; [by apply (inv_nan HI1)|by apply (inv_nan HI2)].
    + vsimpl. rewrite HPar2, HCh2, HDeg2, HPri2.
      eapply Inv_union; [exact HI1|exact HI2|done..].
  - apply HeapInv_empty'; [solve_halloc|by hsimpl|by hsimpl].
  - apply HeapInv_empty'; [solve_halloc|by hsimpl|by hsimpl].
  - by hsimpl.
  - vsimpl. by rewrite HPri2.
  - vsimpl. by rewrite HMk2.
  - intros x Hx. esimpl. by apply Hfo2.
  - intros x. red_alloc. by rewrite (proj1 (proj2 Hfo2)).
  - intros g Hg1 Hg2 Hg3. esimpl. destruct Hfo2 as (_ & _ & -> & _); [|done].
    unfold w1, hins; simpl. by rewrite lookup_insert_ne.
  - intros g. rewrite !halloc_hupd. destruct Hfo2 as (_ & _ & _ & ->).
    unfold w1. by rewrite halloc_hins.
Qed.

Lemma le_run_refl {A} (c : M A) : le_run c c.
Proof. by intros w. Qed.

Lemma le_run_fuel {A} (c : M A) : le_run out_of_fuel c.
Proof. by intros w. Qed.

Lemma le_run_bind {A B} (c c' : M A) (k k' : A → M B) :
  le_run c c' → (∀ a, le_run (k a) (k' a)) → le_run (bind c k) (bind c' k').
Proof.
  intros Hc Hk w. unfold bind. intros Hne.
  destruct (c w) as [[a w1]| |] eqn:Hcw; try done.
  - rewrite (Hc w), Hcw by (by rewrite Hcw). by apply Hk.
  - rewrite (Hc w), Hcw by (by rewrite Hcw). done.
Qed.

Lemma le_run_Ok {A} (c c' : M A) w x : le_run c c' → c w = Ok x → c' w = Ok x.
Proof. intros Hc Hw. rewrite (Hc w); [done|]. by rewrite Hw. Qed.

Ltac mono :=
  repeat first
    [ apply le_run_refl
    | assumption
    | solve [auto]
    | apply le_run_bind; [|intros ?]
    | match goal with
      | |- le_run (if ?b then _ else _) _ => destruct b
      | |- le_run (match ?x with _ => _ end) _ => destruct x
      end ].

Lemma clearParents_mono n : ∀ m minElem curr,
  (n ≤ m)%nat → le_run (clearParents n minElem curr) (clearParents m minElem curr).
Proof.
  induction n as [|n IH]; intros m minElem curr Hnm; [apply le_run_fuel|].
  destruct m as [|m]; [lia|]. cbn [clearParents]. mono; apply IH; lia.
Qed.

Lemma collectRoots_mono n : ∀ m toVisit curr,
  (n ≤ m)%nat → le_run (collectRoots n toVisit curr) (collectRoots m toVisit curr).
Proof.
  induction n as [|n IH]; intros m toVisit curr Hnm; [apply le_run_fuel|].
  destruct m as [|m]; [lia|]. cbn [collectRoots]. mono; apply IH; lia.
Qed.

Lemma mergeLoop_mono n : ∀ m T curr,
  (n ≤ m)%nat → le_run (mergeLoop n T curr) (mergeLoop m T curr).
Proof.
  induction n as [|n IH]; intros m T curr Hnm; [apply le_run_fuel|].
  destruct m as [|m]; [lia|]. cbn [mergeLoop]. mono; apply IH; lia.
Qed.

Lemma consolidate_mono n m f : ∀ V T,
  (n ≤ m)%nat → le_run (consolidate n f V T) (consolidate m f V T).
Proof.
  induction V as [|v V IH]; intros T Hnm; [apply le_run_refl|].
  cbn [consolidate]. apply le_run_bind; [by apply mergeLoop_mono|]. intros tc.
  mono; by apply IH.
Qed.

Lemma cutNode_mono n : ∀ m f e,
  (n ≤ m)%nat → le_run (cutNode n f e) (cutNode m f e).
Proof.
  induction n as [|n IH]; intros m f e Hnm; [apply le_run_fuel|].
  destruct m as [|m]; [lia|]. cbn [cutNode]. mono; apply IH; lia.
Qed.

Lemma DequeueMin_mono n m f : (n ≤ m)%nat → le_run (DequeueMin n f) (DequeueMin m f).
Proof.
  intros Hnm. unfold DequeueMin.
  pose proof (λ a b, clearParents_mono n m a b Hnm).
  pose proof (λ a b, collectRoots_mono n m a b Hnm).
  pose proof (λ a b, consolidate_mono n m f a b Hnm).
  mono; auto.
Qed.

Lemma decreaseKeyUnchecked_mono n m f e p :
  (n ≤ m)%nat → le_run (decreaseKeyUnchecked n f e p) (decreaseKeyUnchecked m f e p).
Proof. intros Hnm. unfold decreaseKeyUnchecked. mono; by apply cutNode_mono. Qed.

Lemma DecreaseKey_mono n m f e p :
  (n ≤ m)%nat → le_run (DecreaseKey n f e p) (DecreaseKey m f e p).
Proof.
  intros Hnm. unfold DecreaseKey.
  pose proof (λ a b c, decreaseKeyUnchecked_mono n m a b c Hnm). mono; auto.
Qed.

Lemma Delete_mono n m f e : (n ≤ m)%nat → le_run (Delete n f e) (Delete m f e).
Proof.
  intros Hnm. unfold Delete.
  pose proof (λ a b c, decreaseKeyUnchecked_mono n m a b c Hnm).
  pose proof (λ a, DequeueMin_mono n m a Hnm). mono; auto.
Qed.

(** ** DecreaseKey and Delete *)

Lemma DecreaseKey_error w f e newp fuel :
  allocd w e → f_gtb newp (vPri w e) = true →
  DecreaseKey fuel f (Some e) newp w = Ok (Some ErrorExceedsPriority, w).
Proof.
  intros He Hgt. unfold DecreaseKey, checkPriority. run. by rewrite Hgt.
Qed.

Lemma DecreaseKey_ok w f L R K e newp :
  HeapInv w f L R K → e ∈ L → f_leb newp (vPri w e) = true →
  ∃ n, ∀ fuel, (n ≤ fuel)%nat →
    ∃ w' R' K',
      DecreaseKey fuel f (Some e) newp w = Ok (None, w') ∧
      HeapInv w' f L R' K' ∧
      vPri w' = <[e := newp]> (vPri w) ∧
      frame_ok L f w w' ∧
      ((∀ x, x ∈ L → f_leb newp (vPri w x) = true) → hmin w' f = Some e).
Proof.
  intros HH He Hle.
  destruct (decreaseKeyUnchecked_spec w f L R K e newp HH He Hle) as [n Hn].
  exists n. intros fuel Hfuel. destruct (Hn fuel Hfuel) as (w' & R' & K' & Hrun & Hrest).
  exists w', R', K'. split; [|done].
  assert (Hae : allocd w e) by (by apply (hi_alloc _ _ _ _ _ HH)).
  assert (Hgt : f_gtb newp (vPri w e) = false).
  { unfold f_gtb. destruct (f_ltb (vPri w e) newp) eqn:Hlt; [|done].
    by rewrite (f_leb_ltb_false _ _ _ (f_leb_refl _ (proj2 (f_leb_not_nan _ _ Hle))) Hlt) in Hle. }
  unfold DecreaseKey, checkPriority. run. rewrite Hgt.
  by rewrite (bind_run _ _ _ _ _ Hrun).
Qed.

Lemma Delete_spec w f L R K e :
  HeapInv w f L R K → e ∈ L →
  ∃ n, ∀ fuel, (n ≤ fuel)%nat →
    ∃ w1 w' R' K',
      decreaseKeyUnchecked fuel f (Some e) math_Inf_neg w = Ok (tt, w1) ∧
      DequeueMin fuel f w1 = Ok (Some e, w') ∧
      Delete fuel f (Some e) w = Ok (tt, w') ∧
      HeapInv w' f (L ∖ {[e]}) R' K' ∧
      (∀ x, x ≠ e → vPri w' x = vPri w x) ∧
      (∀ x, x ≠ e → x ∈ L → vMk w' x = true → vMk w1 x = true) ∧
      frame_ok L f w w'.
Proof.
  intros HH He.
  assert (Hnan : ∀ x, x ∈ L → vPri w x ≠ NaN) by apply (inv_nan (hi_inv _ _ _ _ _ HH)).
  assert (Hle : ∀ x, x ∈ L → f_leb math_Inf_neg (vPri w x) = true).
  { intros x Hx. specialize (Hnan x Hx). by destruct (vPri w x). }
  destruct (decreaseKeyUnchecked_spec w f L R K e math_Inf_neg HH He (Hle e He)) as [n1 Hn1].
  destruct (Hn1 n1 (le_n _)) as (w1 & R1 & K1 & Hrun1 & HH1 & HPri1 & Hfo1 & Hmin1).
  specialize (Hmin1 Hle).
  assert (Hhd : list.head R1 = Some e).
  { by rewrite <- (hi_min _ _ _ _ _ HH1). }
  destruct (DequeueMin_spec w1 f L R1 K1 HH1) as [n2 Hn2].
  destruct (Hn2 n2 (le_n _)) as (w' & R' & K' & Hrun2 & HH2 & _ & HPri2 & HMk2 & Hfo2).
  rewrite Hhd in Hrun2, HH2. simpl in HH2.
  exists (n1 `max` n2)%nat. intros fuel Hfuel. exists w1, w', R', K'.
  assert (Hr1 : decreaseKeyUnchecked fuel f (Some e) math_Inf_neg w = Ok (tt, w1)).
  { eapply le_run_Ok; [|exact Hrun1]. apply decreaseKeyUnchecked_mono. lia. }
  assert (Hr2 : DequeueMin fuel f w1 = Ok (Some e, w')).
  { eapply le_run_Ok; [|exact Hrun2]. apply DequeueMin_mono. lia. }
  split_and!; try done.
  - unfold Delete. by rewrite (bind_run _ _ _ _ _ Hr1), (bind_run _ _ _ _ _ Hr2).
  - intros x Hx. rewrite HPri2, HPri1. by fn_simpl.
  - intros x _ _. apply HMk2.
  - by eapply frame_ok_trans.
Qed.

Lemma WInv_alloc w G h x : WInv w G → x ∈ G h → allocd w x.
Proof.
  intros HW Hx. destruct (decide (h ∈ dom (heaps w))) as [Hh|Hh].
  - destruct (wi_heap _ _ HW h Hh) as (R & K & HH). by apply (hi_alloc _ _ _ _ _ HH).
  - rewrite (wi_none _ _ HW h Hh) in Hx. set_solver.
Qed.

Lemma WInv_size w G h : WInv w G → Z.of_nat (size (G h)) ≤ Z.of_nat (size (dom (entries w))).
Proof.
  intros HW. apply inj_le, subseteq_size. intros x Hx. by eapply WInv_alloc.
Qed.

Lemma WInv_size2 w G h1 h2 :
  WInv w G → h1 ≠ h2 →
  Z.of_nat (size (G h1)) + Z.of_nat (size (G h2)) ≤ Z.of_nat (size (dom (entries w))).
Proof.
  intros HW Hne. pose proof (wi_disj _ _ HW h1 h2 Hne) as Hd.
  rewrite <- Nat2Z.inj_add, <- size_union by done.
  apply inj_le, subseteq_size. intros x [Hx|Hx]%elem_of_union; by eapply WInv_alloc.
Qed.

Lemma dom_entries_eq w w' :
  (∀ x, allocd w' x ↔ allocd w x) → dom (entries w') = dom (entries w).
Proof. intros H. apply set_eq. intros x. apply H. Qed.

(** A call on heap [h] leaves the other heaps as they were. *)
Lemma WInv_frame w w' G G' h :
  WInv w G → halloc w h → frame_ok (G h) h w w' →
  (∃ R K, HeapInv w' h (G' h) R K) → G' h ⊆ G h → (∀ g, g ≠ h → G' g = G g) →
  WInv w' G'.
Proof.
  intros HW Hh (Hfe & Hfa & Hfh & Hfha) HH Hsub HG'. constructor.
  - intros g Hg. destruct (decide (g = h)) as [->|Hgh]; [done|].
    rewrite HG' by done. apply Hfha in Hg.
    destruct (wi_heap _ _ HW g Hg) as (R & K & HHg). exists R, K.
    eapply HeapInv_frame; [| |done].
    + intros x Hx. apply Hfe. intros Hx'. by apply (wi_disj _ _ HW g h Hgh x).
    + by apply Hfh.
  - intros g Hg. destruct (decide (g = h)) as [->|Hgh].
    + exfalso. apply Hg. by apply Hfha.
    + rewrite HG' by done. apply (wi_none _ _ HW). intros ?. apply Hg. by apply Hfha.
  - intros g1 g2 Hne. pose proof (wi_disj _ _ HW g1 g2 Hne) as Hd.
    destruct (decide (g1 = h)) as [->|H1]; destruct (decide (g2 = h)) as [->|H2];
      rewrite ?(HG' g1), ?(HG' g2) by done; set_solver.
  - rewrite (dom_entries_eq w w') by done. apply (wi_bound _ _ HW).
Qed.

Lemma WInv_empty : WInv empty_world (λ _, ∅).
Proof.
  constructor.
  - intros h Hh. unfold halloc, empty_world in Hh. simpl in Hh. set_solver.
  - done.
  - intros h1 h2 _. set_solver.
  - unfold empty_world. simpl. rewrite dom_empty_L, size_empty. apply int_lim_pos.
Qed.

Lemma WInv_New w G h w' :
  WInv w G → NewFibHeap w = Ok (h, w') → WInv w' G.
Proof.
  intros HW Hrun. unfold NewFibHeap in Hrun. injection Hrun as <- <-.
  set (h := fresh (dom (heaps w))).
  assert (Hh : ¬ halloc w h) by apply is_fresh.
  constructor.
  - intros g Hg. destruct (decide (g = h)) as [->|Hgh].
    + rewrite (wi_none _ _ HW h Hh). exists [], (λ _, []). apply HeapInv_empty.
      simpl. by rewrite lookup_insert_eq.
    + assert (Hg' : halloc w g).
      { unfold halloc in *. simpl in Hg. set_solver. }
      destruct (wi_heap _ _ HW g Hg') as (R & K & HH). exists R, K.
      eapply HeapInv_frame; [| |done]; [done|]. simpl. by rewrite lookup_insert_ne.
  - intros g Hg. apply (wi_none _ _ HW). intros Hg'. apply Hg.
    unfold halloc in *. simpl. set_solver.
  - apply (wi_disj _ _ HW).
  - apply (wi_bound _ _ HW).
Qed.

Lemma WInv_Enqueue w G h el pr r w' :
  WInv w G → halloc w h → pr ≠ NaN →
  Z.of_nat (size (dom (entries w))) + 1 < int_lim →
  Enqueue h el pr w = Ok (r, w') →
  WInv w' (<[h := G h ∪ opt_set r]> G).
Proof.
  intros HW Hh Hpr Hbd Hrun.
  destruct (wi_heap _ _ HW h Hh) as (R & K & HH).
  pose proof (WInv_size w G h HW) as Hsz.
  destruct (Enqueue_spec w h (G h) R K el pr HH Hpr ltac:(lia)) as
    (w1 & R1 & Hrun1 & HH1 & Hfe & _ & _ & _ & _ & Hal & Hfh & Hfha).
  rewrite Hrun in Hrun1. injection Hrun1 as -> ->. simpl.
  set (a := fresh (dom (entries w))) in *.
  assert (Ha : ¬ allocd w a) by apply fresh_not_allocd.
  assert (HaG : ∀ g, a ∉ G g).
  { intros g Hg. apply Ha. by eapply WInv_alloc. }
  constructor.
  - intros g Hg. destruct (decide (g = h)) as [->|Hgh]; fn_simpl; [by eauto|].
    apply Hfha in Hg. destruct (wi_heap _ _ HW g Hg) as (Rg & Kg & HHg). exists Rg, Kg.
    eapply HeapInv_frame; [| |done].
    + intros x Hx. apply Hfe.
      * intros ->. by apply (HaG g).
      * intros HxR%(inv_root_in (hi_inv _ _ _ _ _ HH)). by apply (wi_disj _ _ HW g h Hgh x).
    + by apply Hfh.
  - intros g Hg. destruct (decide (g = h)) as [->|Hgh]; fn_simpl.
    + exfalso. apply Hg. by apply Hfha.
    + apply (wi_none _ _ HW). intros ?. apply Hg. by apply Hfha.
  - intros g1 g2 Hne. pose proof (wi_disj _ _ HW g1 g2 Hne) as Hd.
    pose proof (HaG g1). pose proof (HaG g2).
    destruct (decide (g1 = h)) as [->|H1]; destruct (decide (g2 = h)) as [->|H2];
      fn_simpl; set_solver.
  - assert (dom (entries w1) = {[a]} ∪ dom (entries w)) as ->.
    { apply set_eq. intros x. rewrite elem_of_union, elem_of_singleton. apply Hal. }
    rewrite size_union by (unfold allocd in Ha; set_solver). rewrite size_singleton. lia.
Qed.

Lemma Min_run w h : halloc w h → Min h w = Ok (hmin w h, w).
Proof.
  intros Hh. unfold Min, hload, hmin. apply elem_of_dom in Hh as [fh Hfh]. by rewrite Hfh.
Qed.

Lemma Len_run w h : halloc w h → Len h w = Ok (hsize w h, w).
Proof.
  intros Hh. unfold Len, hload, hsize. apply elem_of_dom in Hh as [fh Hfh]. by rewrite Hfh.
Qed.

Lemma WInv_DequeueMin w G h fuel r w' :
  WInv w G → halloc w h → DequeueMin fuel h w = Ok (r, w') →
  WInv w' (<[h := G h ∖ opt_set r]> G).
Proof.
  intros HW Hh Hrun.
  destruct (wi_heap _ _ HW h Hh) as (R & K & HH).
  destruct (DequeueMin_spec w h (G h) R K HH) as [n Hn].
  destruct (Hn (fuel `max` n)%nat (Nat.le_max_r _ _)) as (w1 & R1 & K1 & Hrun1 & HH1 & _ & _ & _ & Hfo).
  rewrite (le_run_Ok _ _ _ _ (DequeueMin_mono fuel _ h (Nat.le_max_l _ n)) Hrun) in Hrun1.
  injection Hrun1 as -> ->.
  eapply (WInv_frame w w1 G _ h); [done..| | |].
  - fn_simpl. eauto.
  - fn_simpl. set_solver.
  - intros g Hg. by fn_simpl.
Qed.

Lemma WInv_DecreaseKey w G h fuel e pr r w' :
  WInv w G → halloc w h → e ∈ G h → pr ≠ NaN →
  DecreaseKey fuel h (Some e) pr w = Ok (r, w') →
  WInv w' G.
Proof.
  intros HW Hh He Hpr Hrun.
  destruct (wi_heap _ _ HW h Hh) as (R & K & HH).
  assert (Hae : allocd w e) by (by apply (hi_alloc _ _ _ _ _ HH)).
  destruct (f_gtb pr (vPri w e)) eqn:Hgt.
  - rewrite (DecreaseKey_error w h e pr fuel Hae Hgt) in Hrun. by injection Hrun as <- <-.
  - assert (Hle : f_leb pr (vPri w e) = true).
    { apply f_ltb_false_leb; [|done..]. by apply (inv_nan (hi_inv _ _ _ _ _ HH)). }
    destruct (DecreaseKey_ok w h (G h) R K e pr HH He Hle) as [n Hn].
    destruct (Hn (fuel `max` n)%nat (Nat.le_max_r _ _)) as (w1 & R1 & K1 & Hrun1 & HH1 & _ & Hfo & _).
    rewrite (le_run_Ok _ _ _ _ (DecreaseKey_mono fuel _ h (Some e) pr (Nat.le_max_l _ n)) Hrun) in Hrun1.
    injection Hrun1 as -> ->.
    eapply (WInv_frame w w1 G G h); [done..| | |]; eauto.
Qed.

Lemma WInv_Delete w G h fuel e w' :
  WInv w G → halloc w h → e ∈ G h →
  Delete fuel h (Some e) w = Ok (tt, w') →
  WInv w' (<[h := G h ∖ {[e]}]> G).
Proof.
  intros HW Hh He Hrun.
  destruct (wi_heap _ _ HW h Hh) as (R & K & HH).
  destruct (Delete_spec w h (G h) R K e HH He) as [n Hn].
  destruct (Hn (fuel `max` n)%nat (Nat.le_max_r _ _)) as
    (w0 & w1 & R1 & K1 & _ & _ & Hrun1 & HH1 & _ & _ & Hfo).
  rewrite (le_run_Ok _ _ _ _ (Delete_mono fuel _ h (Some e) (Nat.le_max_l _ n)) Hrun) in Hrun1.
  injection Hrun1 as ->.
  eapply (WInv_frame w w1 G _ h); [done..| | |].
  - fn_simpl. eauto.
  - fn_simpl. set_solver.
  - intros g Hg. by fn_simpl.
Qed.

Lemma WInv_Merge w G h1 h2 h3 w' :
  WInv w G → halloc w h1 → halloc w h2 → h1 ≠ h2 →
  MergeFibHeap h1 h2 w = Ok (h3, w') →
  WInv w' (<[h3 := G h1 ∪ G h2]> (<[h1 := ∅]> (<[h2 := ∅]> G))).
Proof.
  intros HW Hh1 Hh2 Hne Hrun.
  destruct (wi_heap _ _ HW h1 Hh1) as (R1 & K1 & HH1).
  destruct (wi_heap _ _ HW h2 Hh2) as (R2 & K2 & HH2).
  pose proof (wi_disj _ _ HW h1 h2 Hne) as Hd.
  pose proof (WInv_size2 w G h1 h2 HW Hne) as Hsz. pose proof (wi_bound _ _ HW) as Hbd.
  destruct (MergeFibHeap_spec w h1 h2 _ _ R1 R2 K1 K2 HH1 HH2 Hne Hd ltac:(lia)) as
    (w1 & R' & K' & Hrun1 & HH3 & HH1' & HH2' & _ & _ & _ & Hfe & Hal & Hfh & Hfha).
  rewrite Hrun in Hrun1. injection Hrun1 as -> ->.
  set (h3 := fresh (dom (heaps w))) in *.
  assert (Hh3 : ¬ halloc w h3) by apply is_fresh.
  assert (h1 ≠ h3 ∧ h2 ≠ h3) as [Hn13 Hn23] by (split; intros ->; done).
  pose proof (wi_none _ _ HW h3 Hh3) as HG3.
  constructor.
  - intros g Hg. apply Hfha in Hg.
    destruct (decide (g = h3)) as [->|Hg3]; fn_simpl; [by eauto|].
    destruct (decide (g = h1)) as [->|Hg1]; fn_simpl; [by eauto|].
    destruct (decide (g = h2)) as [->|Hg2]; fn_simpl; [by eauto|].
    destruct Hg as [?|Hg]; [done|].
    destruct (wi_heap _ _ HW g Hg) as (Rg & Kg & HHg). exists Rg, Kg.
    eapply HeapInv_frame; [| |done].
    + intros x Hx. apply Hfe. intros [Hx'|Hx']%elem_of_union.
      * by apply (wi_disj _ _ HW g h1 Hg1 x).
      * by apply (wi_disj _ _ HW g h2 Hg2 x).
    + by apply Hfh.
  - intros g Hg. assert (g ≠ h3 ∧ ¬ halloc w g) as [Hg3 Hg'].
    { split; [intros ->|intros ?]; apply Hg, Hfha; auto. }
    assert (g ≠ h1 ∧ g ≠ h2) as [? ?] by (split; intros ->; done).
    fn_simpl. by apply (wi_none _ _ HW).
  - intros g1 g2 Hg.
    pose proof (wi_disj _ _ HW g1 g2 Hg). pose proof (wi_disj _ _ HW g1 h1).
    pose proof (wi_disj _ _ HW g1 h2). pose proof (wi_disj _ _ HW h1 g2).
    pose proof (wi_disj _ _ HW h2 g2).
    clearbody h3.
    destruct (decide (g1 = h3)); destruct (decide (g2 = h3));
      destruct (decide (g1 = h1)); destruct (decide (g2 = h1));
      destruct (decide (g1 = h2)); destruct (decide (g2 = h2));
      subst; fn_simpl; try done; set_solver.
  - rewrite (dom_entries_eq w w1) by done. done.
Qed.

Lemma step_WInv o w G w' G' : WInv w G → step o w G w' G' → WInv w' G'.
Proof.
  intros HW Hs. destruct Hs.
  - by eapply WInv_New.
  - by eapply WInv_Enqueue.
  - rewrite Min_run in H0 by done. by injection H0 as <- <-.
  - rewrite Len_run in H0 by done. by injection H0 as <- <-.
  - by eapply WInv_DequeueMin.
  - by eapply WInv_DecreaseKey.
  - by eapply WInv_Delete.
  - by eapply WInv_Merge.
Qed.

Lemma reach_WInv ops w G : reach ops w G → WInv w G.
Proof.
  induction 1 as [|ops o w G w' G' _ IH Hs]; [apply WInv_empty|]. by eapply step_WInv.
Qed.

Lemma HeapInv_min w f L R K :
  HeapInv w f L R K → L ≠ ∅ →
  ∃ m, list.head R = Some m ∧ m ∈ L ∧ ∀ x, x ∈ L → pri_le w m x.
Proof.
  intros [Hf Hal Hsz Hmin Hmnl HI] Hne. destruct R as [|r R0].
  - by apply inv_no_roots in HI.
  - exists r. split_and!; [done|by apply (inv_root_in HI); left|].
    intros x Hx. by eapply min_le_all.
Qed.

Lemma HeapInv_nil w f L K : HeapInv w f L [] K → L = ∅.
Proof. intros [Hf Hal Hsz Hmin Hmnl HI]. by apply inv_no_roots in HI. Qed.

Lemma drain_spec n : ∀ w f L R K,
  size L = n → HeapInv w f L R K →
  ∃ m l w' K',
    (∀ k fuel, (m ≤ k)%nat → (m ≤ fuel)%nat → drain k fuel f w = Ok (l, w')) ∧
    l ≡ₚ elements L ∧ StronglySorted (pri_le w) l ∧
    HeapInv w' f ∅ [] K' ∧ vPri w' = vPri w ∧ frame_ok L f w w'.
Proof.
  induction n as [|n IH]; intros w f L R K Hsz HH.
  - apply size_empty_inv in Hsz. apply leibniz_equiv in Hsz. subst L.
    assert (R = []) as ->.
    { destruct R as [|r R0]; [done|]. destruct HH as [_ _ _ _ _ HI].
      pose proof (inv_root_in HI r ltac:(left)). set_solver. }
    destruct (DequeueMin_spec w f ∅ [] K HH) as [n1 Hn1].
    destruct (Hn1 n1 (le_n _)) as (w1 & R1 & K1 & Hrun1 & HH1 & _ & HPri1 & _ & Hfo1).
    simpl in *. rewrite difference_empty_L in HH1.
    assert (R1 = []) as ->.
    { destruct R1 as [|r R0]; [done|]. destruct HH1 as [_ _ _ _ _ HI].
      pose proof (inv_root_in HI r ltac:(left)). set_solver. }
    exists (S n1), [], w1, K1. split_and!; try done.
    + intros k fuel Hk Hfuel. destruct k as [|k]; [lia|]. cbn [drain].
      rewrite (bind_run _ _ _ _ _ (le_run_Ok _ _ _ _
        (DequeueMin_mono n1 fuel f ltac:(lia)) Hrun1)). done.
    + constructor.
  - assert (HLne : L ≠ ∅).
    { intros ->. by rewrite size_empty in Hsz. }
    destruct (HeapInv_min w f L R K HH HLne) as (r & Hhd & HrL & Hmin).
    destruct (DequeueMin_spec w f L R K HH) as [n1 Hn1].
    destruct (Hn1 n1 (le_n _)) as (w1 & R1 & K1 & Hrun1 & HH1 & _ & HPri1 & _ & Hfo1).
    rewrite Hhd in Hrun1, HH1. simpl in HH1.
    assert (Hsz1 : size (L ∖ {[r]}) = n).
    { rewrite size_difference by set_solver. rewrite size_singleton. lia. }
    destruct (IH w1 f _ R1 K1 Hsz1 HH1) as (m & l & w' & K' & Hrun & Hperm & Hsort & HH' & HPri' & Hfo').
    exists (S (n1 `max` m)), (r :: l), w', K'. split_and!.
    + intros k fuel Hk Hfuel. destruct k as [|k]; [lia|]. cbn [drain].
      rewrite (bind_run _ _ _ _ _ (le_run_Ok _ _ _ _
        (DequeueMin_mono n1 fuel f ltac:(lia)) Hrun1)).
      rewrite (bind_run _ _ _ _ _ (Hrun k fuel ltac:(lia) ltac:(lia))). done.
    + rewrite Hperm. symmetry.
      rewrite (union_difference_singleton_L r L HrL) at 1.
      apply elements_union_singleton. set_solver.
    + constructor.
      * clear -Hsort HPri1. induction Hsort as [|a l' Hs IHs Hall]; constructor; [done|].
        revert Hall. apply Forall_impl. intros b. unfold pri_le. by rewrite HPri1.
      * apply list.Forall_forall. intros x Hx. apply Hmin.
        rewrite Hperm in Hx. apply elem_of_elements in Hx. set_solver.
    + done.
    + by rewrite HPri', HPri1.
    + eapply frame_ok_trans; [done|].
      destruct Hfo' as (A1 & A2 & A3 & A4). split_and!; try done.
      intros x Hx. apply A1. set_solver.
Qed.

Lemma reach_heap ops w G h :
  reach ops w G → halloc w h → ∃ R K, HeapInv w h (G h) R K.
Proof. intros Hr Hh. by apply (wi_heap _ _ (reach_WInv _ _ _ Hr)). Qed.

Lemma HeapInv_Len w f L R K : HeapInv w f L R K → Len f w = Ok (Z.of_nat (size L), w).
Proof. intros HH. rewrite Len_run by apply HH. by rewrite (hi_size _ _ _ _ _ HH). Qed.

Lemma HeapInv_Min w f L R K : HeapInv w f L R K → Min f w = Ok (list.head R, w).
Proof. intros HH. rewrite Min_run by apply HH. by rewrite (hi_min _ _ _ _ _ HH). Qed.

(** The minimum of a non-empty heap, through [Min] and through [DequeueMin]. *)
Lemma min_correct w f L R K :
  HeapInv w f L R K → L ≠ ∅ →
  ∃ m, m ∈ L ∧ (∀ x, x ∈ L → pri_le w m x) ∧
    Min f w = Ok (Some m, w) ∧
    ∃ n w' R' K', 
      (∀ fuel, (n ≤ fuel)%nat → DequeueMin fuel f w = Ok (Some m, w')) ∧
      HeapInv w' f (L ∖ {[m]}) R' K' ∧ vPri w' = vPri w.
Proof.
  intros HH Hne. destruct (HeapInv_min w f L R K HH Hne) as (m & Hhd & Hm & Hmin).
  exists m. split_and!; [done..| |].
  - by rewrite (HeapInv_Min _ _ _ _ _ HH), Hhd.
  - destruct (DequeueMin_spec w f L R K HH) as [n Hn].
    destruct (Hn n (le_n _)) as (w' & R' & K' & Hrun & HH' & _ & HPri & _).
    rewrite Hhd in Hrun, HH'. exists n, w', R', K'. split_and!; [|done..].
    intros fuel Hfuel. eapply le_run_Ok; [|exact Hrun]. by apply DequeueMin_mono.
Qed.

(** C1: in a reachable state where heap [h] is not empty, [Min] returns,
    without changing the state, an entry of the heap whose priority is least
    among the entries of the heap, and [DequeueMin] returns the same entry
    and removes it: the heap's contents lose exactly that entry and [Len]
    drops by one. *)
Theorem C1_min_correct ops w G h :
  reach ops w G → halloc w h → G h ≠ ∅ →
  ∃ m, m ∈ G h ∧ (∀ x, x ∈ G h → pri_le w m x) ∧
    Min h w = Ok (Some m, w) ∧
    ∃ n, ∀ fuel, (n ≤ fuel)%nat →
      ∃ w', DequeueMin fuel h w = Ok (Some m, w') ∧
            reach (ops ++ [ODequeueMin h]) w' (<[h := G h ∖ {[m]}]> G) ∧
            vPri w' = vPri w ∧
            Len h w' = Ok (hsize w h - 1, w').
Proof.
  intros Hr Hh Hne. destruct (reach_heap _ _ _ _ Hr Hh) as (R & K & HH).
  destruct (min_correct w h (G h) R K HH Hne) as
    (m & Hm & Hmin & HMin & n & w' & R' & K' & Hrun & HH' & HPri).
  exists m. split_and!; [done..|]. exists n. intros fuel Hfuel. exists w'.
  split_and!; [by apply Hrun| |done|].
  - eapply reach_snoc; [done|].
    apply (step_DequeueMin w G h fuel (Some m) w' Hh). by apply Hrun.
  - rewrite (HeapInv_Len _ _ _ _ _ HH'). rewrite (hi_size _ _ _ _ _ HH).
    rewrite size_difference by set_solver. rewrite size_singleton.
    pose proof (size_pos_of_elem _ _ Hm). do 3 f_equal. lia.
Qed.

(** C2: in a reachable state, calling [DequeueMin] on heap [h] until it
    returns nil yields every entry of the heap exactly once, in
    non-decreasing order of the stored priorities; the heap is empty
    afterwards. *)
Theorem C2_sorted_extraction ops w G h :
  reach ops w G → halloc w h →
  ∃ n l w',
    (∀ k fuel, (n ≤ k)%nat → (n ≤ fuel)%nat → drain k fuel h w = Ok (l, w')) ∧
    l ≡ₚ elements (G h) ∧ StronglySorted (pri_le w) l ∧
    vPri w' = vPri w ∧ Len h w' = Ok (0, w').
Proof.
  intros Hr Hh. destruct (reach_heap _ _ _ _ Hr Hh) as (R & K & HH).
  destruct (drain_spec _ w h (G h) R K eq_refl HH) as
    (n & l & w' & K' & Hrun & Hperm & Hsort & HH' & HPri & _).
  exists n, l, w'. split_and!; [done..|].
  by rewrite (HeapInv_Len _ _ _ _ _ HH'), size_empty.
Qed.

(** C3: for an entry [e] of heap [h] in a reachable state and a priority
    [p] that is not NaN: if [p] is greater than the priority of [e],
    [DecreaseKey] returns the error and the state is unchanged; if [p] is at
    most the priority of [e], it returns no error, the priority of [e] is
    [p] and no other priority changes, and [Min] and [DequeueMin] then return
    an entry that is least for the new priorities.  One of the two cases
    applies. *)
Theorem C3_decrease_key ops w G h e p :
  reach ops w G → halloc w h → e ∈ G h → p ≠ NaN →
  (f_gtb p (vPri w e) = true ∨ f_leb p (vPri w e) = true) ∧
  (f_gtb p (vPri w e) = true →
     ∀ fuel, DecreaseKey fuel h (Some e) p w = Ok (Some ErrorExceedsPriority, w)) ∧
  (f_leb p (vPri w e) = true →
     ∃ n w',
       (∀ fuel, (n ≤ fuel)%nat → DecreaseKey fuel h (Some e) p w = Ok (None, w')) ∧
       vPri w' = <[e := p]> (vPri w) ∧
       reach (ops ++ [ODecreaseKey h e p]) w' G ∧
       ∃ m, m ∈ G h ∧
         (∀ x, x ∈ G h → f_leb (<[e := p]> (vPri w) m) (<[e := p]> (vPri w) x) = true) ∧
         Min h w' = Ok (Some m, w') ∧
         ∃ n' w'', ∀ fuel, (n' ≤ fuel)%nat → DequeueMin fuel h w' = Ok (Some m, w'')).
Proof.
  intros Hr Hh He Hp. destruct (reach_heap _ _ _ _ Hr Hh) as (R & K & HH).
  assert (Hae : allocd w e) by (by apply (hi_alloc _ _ _ _ _ HH)).
  assert (Hpe : vPri w e ≠ NaN) by (by apply (inv_nan (hi_inv _ _ _ _ _ HH))).
  split_and!.
  - unfold f_gtb. destruct (f_ltb (vPri w e) p) eqn:Hlt; [by left|right].
    by apply f_ltb_false_leb.
  - intros Hgt fuel. by apply DecreaseKey_error.
  - intros Hle. destruct (DecreaseKey_ok w h (G h) R K e p HH He Hle) as [n Hn].
    destruct (Hn n (le_n _)) as (w' & R' & K' & Hrun & HH' & HPri & _).
    assert (Hrun' : ∀ fuel, (n ≤ fuel)%nat →
              DecreaseKey fuel h (Some e) p w = Ok (None, w')).
    { intros fuel Hfuel. eapply le_run_Ok; [|exact Hrun]. by apply DecreaseKey_mono. }
    exists n, w'. split_and!; [done..| |].
    + eapply reach_snoc; [done|].
      by apply (step_DecreaseKey w G h n e p None w' Hh He Hp).
    + destruct (min_correct w' h (G h) R' K' HH' ltac:(set_solver)) as
        (m & Hm & Hmin & HMin & n' & w'' & _ & _ & Hrun'' & _).
      exists m. split_and!; [done| |done|by eauto].
      intros x Hx. rewrite <- HPri. by apply Hmin.
Qed.

Lemma step_unmarked o w G w' G' :
  WInv w G → step o w G w' G' → cut_free o = true →
  (∀ x, vMk w x = false) → ∀ x, vMk w' x = false.
Proof.
  intros HW Hs Hcf Hmk. destruct Hs as
    [w G h w' Hrun|w G h el pr r w' Hh Hpr Hbd Hrun|w G h r w' Hh Hrun|w G h n w' Hh Hrun
    |w G h fuel r w' Hh Hrun|w G h fuel e pr r w' Hh He Hpr Hrun
    |w G h fuel e w' Hh He Hrun|w G h1 h2 h3 w' Hh1 Hh2 Hne Hrun]; try done.
  - unfold NewFibHeap in Hrun. injection Hrun as <- <-. done.
  - destruct (wi_heap _ _ HW h Hh) as (R & K & HH).
    pose proof (WInv_size w G h HW) as Hsz.
    destruct (Enqueue_spec w h (G h) R K el pr HH Hpr ltac:(lia)) as
      (w1 & R1 & Hrun1 & _ & _ & _ & _ & HMk & HMka & _).
    rewrite Hrun in Hrun1. injection Hrun1 as -> ->.
    intros x. destruct (decide (x = fresh (dom (entries w)))) as [->|Hx]; [done|].
    by rewrite HMk.
  - rewrite Min_run in Hrun by done. by injection Hrun as <- <-.
  - rewrite Len_run in Hrun by done. by injection Hrun as <- <-.
  - destruct (wi_heap _ _ HW h Hh) as (R & K & HH).
    destruct (DequeueMin_spec w h (G h) R K HH) as [n Hn].
    destruct (Hn (fuel `max` n)%nat (Nat.le_max_r _ _)) as
      (w1 & R1 & K1 & Hrun1 & _ & _ & _ & HMk & _).
    rewrite (le_run_Ok _ _ _ _ (DequeueMin_mono fuel _ h (Nat.le_max_l _ n)) Hrun) in Hrun1.
    injection Hrun1 as -> ->.
    intros x. destruct (vMk w1 x) eqn:Hx; [|done]. by rewrite <- (Hmk x), HMk.
  - destruct (wi_heap _ _ HW h1 Hh1) as (R1 & K1 & HH1).
    destruct (wi_heap _ _ HW h2 Hh2) as (R2 & K2 & HH2).
    pose proof (wi_disj _ _ HW h1 h2 Hne) as Hd.
    pose proof (WInv_size2 w G h1 h2 HW Hne) as Hsz. pose proof (wi_bound _ _ HW) as Hbd.
    destruct (MergeFibHeap_spec w h1 h2 _ _ R1 R2 K1 K2 HH1 HH2 Hne Hd ltac:(lia)) as
      (w1 & R' & K' & Hrun1 & _ & _ & _ & _ & _ & HMk & _).
    rewrite Hrun in Hrun1. injection Hrun1 as -> ->. by rewrite HMk.
Qed.

(** C4, as the code has it: in the states reached from no heap by calls of
    NewFibHeap, Enqueue, Min, Len, DequeueMin and MergeFibHeap only, no
    entry is marked, so no root is. *)
Theorem C4_unmarked_without_cuts ops w G :
  reach ops w G → forallb cut_free ops = true → ∀ x, vMk w x = false.
Proof.
  induction 1 as [|ops o w G w' G' Hr IH Hs]; intros Hcf.
  - intros x. unfold fld_of, empty_world. simpl. by rewrite lookup_empty.
  - rewrite forallb_app in Hcf. apply andb_prop in Hcf as [Hcf1 Hcf2].
    simpl in Hcf2. rewrite andb_true_r in Hcf2.
    eapply step_unmarked; [by eapply reach_WInv|done..|by apply IH].
Qed.

(** C5: when [DequeueMin] returns, two distinct roots of the heap (entries
    of the heap without parent) have different degrees. *)
Theorem C5_distinct_root_degrees ops w G h :
  reach ops w G → halloc w h →
  ∃ n, ∀ fuel, (n ≤ fuel)%nat →
    ∃ r w', DequeueMin fuel h w = Ok (r, w') ∧
      ∀ x y, x ∈ G h ∖ opt_set r → y ∈ G h ∖ opt_set r →
             vPar w' x = None → vPar w' y = None → x ≠ y →
             vDeg w' x ≠ vDeg w' y.
Proof.
  intros Hr Hh. destruct (reach_heap _ _ _ _ Hr Hh) as (R & K & HH).
  destruct (DequeueMin_spec w h (G h) R K HH) as [n Hn].
  exists n. intros fuel Hfuel.
  destruct (Hn fuel Hfuel) as (w' & R' & K' & Hrun & HH' & Hdd & _).
  exists (list.head R), w'. split; [done|].
  intros x y Hx Hy HPx HPy Hxy.
  destruct R as [|r R0].
  { apply HeapInv_nil in HH. rewrite HH in Hx. set_solver. }
  apply Hdd; [done| | |done].
  - apply (inv_roots (hi_inv _ _ _ _ _ HH')). done.
  - apply (inv_roots (hi_inv _ _ _ _ _ HH')). done.
Qed.

(** C6: for two distinct heaps of a reachable state, [MergeFibHeap] returns
    a new heap whose [Len] is the sum of the two lengths before the call and
    whose extraction sequence holds the entries of both heaps, each once, in
    non-decreasing order of priority; both arguments are left with [Min]
    nil and [Len] zero. *)
Theorem C6_merge ops w G h1 h2 :
  reach ops w G → halloc w h1 → halloc w h2 → h1 ≠ h2 →
  ∃ h3 w',
    MergeFibHeap h1 h2 w = Ok (h3, w') ∧
    Len h3 w' = Ok (hsize w h1 + hsize w h2, w') ∧
    Min h1 w' = Ok (None, w') ∧ Len h1 w' = Ok (0, w') ∧
    Min h2 w' = Ok (None, w') ∧ Len h2 w' = Ok (0, w') ∧
    vPri w' = vPri w ∧
    ∃ n l w'',
      (∀ k fuel, (n ≤ k)%nat → (n ≤ fuel)%nat → drain k fuel h3 w' = Ok (l, w'')) ∧
      l ≡ₚ elements (G h1 ∪ G h2) ∧ StronglySorted (pri_le w) l.
Proof.
  intros Hr Hh1 Hh2 Hne. pose proof (reach_WInv _ _ _ Hr) as HW.
  destruct (wi_heap _ _ HW h1 Hh1) as (R1 & K1 & HH1).
  destruct (wi_heap _ _ HW h2 Hh2) as (R2 & K2 & HH2).
  pose proof (wi_disj _ _ HW h1 h2 Hne) as Hd.
  pose proof (WInv_size2 w G h1 h2 HW Hne) as Hsz. pose proof (wi_bound _ _ HW) as Hbd.
  destruct (MergeFibHeap_spec w h1 h2 _ _ R1 R2 K1 K2 HH1 HH2 Hne Hd ltac:(lia)) as
    (w' & R' & K' & Hrun & HH3 & HH1' & HH2' & Hsz3 & HPri & _).
  exists (fresh (dom (heaps w))), w'. split_and!; [done| | | | | |done|].
  - rewrite Len_run by apply HH3. by rewrite Hsz3.
  - by rewrite (HeapInv_Min _ _ _ _ _ HH1').
  - by rewrite (HeapInv_Len _ _ _ _ _ HH1'), size_empty.
  - by rewrite (HeapInv_Min _ _ _ _ _ HH2').
  - by rewrite (HeapInv_Len _ _ _ _ _ HH2'), size_empty.
  - destruct (drain_spec _ w' _ _ R' K' eq_refl HH3) as
      (n & l & w'' & K'' & Hrun' & Hperm & Hsort & _).
    exists n, l, w''. split_and!; [done..|].
    clear -Hsort HPri. induction Hsort as [|a l' Hs IHs Hall]; constructor; [done|].
    revert Hall. apply Forall_impl. intros b. unfold pri_le. by rewrite HPri.
Qed.

(** C7: for an entry [e] of heap [h] in a reachable state, [Delete] runs
    as [DecreaseKey] of [e] to minus infinity followed by a [DequeueMin] that
    returns [e]; afterwards [Len] is one less, the heap holds its former
    entries except [e] (its extraction sequence is a permutation of them),
    and the priorities of the other entries are unchanged. *)
Theorem C7_delete ops w G h e :
  reach ops w G → halloc w h → e ∈ G h →
  ∃ n w1 w',
    (∀ fuel, (n ≤ fuel)%nat →
       Delete fuel h (Some e) w = Ok (tt, w') ∧
       DecreaseKey fuel h (Some e) math_Inf_neg w = Ok (None, w1) ∧
       DequeueMin fuel h w1 = Ok (Some e, w')) ∧
    reach (ops ++ [ODelete h e]) w' (<[h := G h ∖ {[e]}]> G) ∧
    Len h w' = Ok (hsize w h - 1, w') ∧
    (∀ x, x ≠ e → vPri w' x = vPri w x) ∧
    ∃ m l w'',
      (∀ k fuel, (m ≤ k)%nat → (m ≤ fuel)%nat → drain k fuel h w' = Ok (l, w'')) ∧
      l ≡ₚ elements (G h ∖ {[e]}) ∧ e ∉ l ∧ (∀ x, x ∈ G h → x ≠ e → x ∈ l).
Proof.
  intros Hr Hh He. destruct (reach_heap _ _ _ _ Hr Hh) as (R & K & HH).
  assert (Hae : allocd w e) by (by apply (hi_alloc _ _ _ _ _ HH)).
  destruct (Delete_spec w h (G h) R K e HH He) as [n Hn].
  destruct (Hn n (le_n _)) as (w1 & w' & R' & K' & Hrun1 & Hrun2 & Hrun & HH' & HPri & _ & Hfo).
  assert (Hall : ∀ fuel, (n ≤ fuel)%nat →
       Delete fuel h (Some e) w = Ok (tt, w') ∧
       DecreaseKey fuel h (Some e) math_Inf_neg w = Ok (None, w1) ∧
       DequeueMin fuel h w1 = Ok (Some e, w')).
  { intros fuel Hfuel. split_and!.
    - eapply le_run_Ok; [|exact Hrun]. by apply Delete_mono.
    - unfold DecreaseKey, checkPriority. run.
      assert (f_gtb math_Inf_neg (vPri w e) = false) as ->
        by (unfold f_gtb; by destruct (vPri w e)).
      erewrite bind_run; [done|].
      eapply le_run_Ok; [|exact Hrun1]. by apply decreaseKeyUnchecked_mono.
    - eapply le_run_Ok; [|exact Hrun2]. by apply DequeueMin_mono. }
  exists n, w1, w'. split_and!; [done| | |done|].
  - eapply reach_snoc; [done|].
    apply (step_Delete w G h n e w' Hh He). by apply Hall.
  - rewrite (HeapInv_Len _ _ _ _ _ HH'). rewrite (hi_size _ _ _ _ _ HH).
    rewrite size_difference by set_solver. rewrite size_singleton.
    pose proof (size_pos_of_elem _ _ He). do 3 f_equal. lia.
  - destruct (drain_spec _ w' _ _ R' K' eq_refl HH') as
      (m & l & w'' & K'' & Hrun' & Hperm & _).
    exists m, l, w''. split_and!; [done..| |].
    + rewrite Hperm. rewrite elem_of_elements. set_solver.
    + intros x Hx Hxe. rewrite Hperm. rewrite elem_of_elements. set_solver.
Qed.

(** C8: on a heap of size zero [DequeueMin] returns nil, for any fuel, and
    the state is unchanged. *)
Theorem C8_dequeue_empty w h fuel :
  halloc w h → hsize w h = 0 → DequeueMin fuel h w = Ok (None, w).
Proof.
  intros Hh Hsz. unfold DequeueMin. run. done.
Qed.

(** No run of [c] with more fuel panics when one with enough fuel ends. *)
Lemma no_panic {A} (F : nat → M A) w n x :
  (∀ a b, (a ≤ b)%nat → le_run (F a) (F b)) →
  F n w = Ok x → ∀ fuel, F fuel w ≠ Panic.
Proof.
  intros Hmono Hn fuel Hp.
  pose proof (Hmono fuel (fuel `max` n)%nat (Nat.le_max_l _ _) w) as H1.
  pose proof (le_run_Ok _ _ _ _ (Hmono n (fuel `max` n)%nat (Nat.le_max_r _ _)) Hn) as H2.
  rewrite Hp in H1. rewrite H1 in H2; done.
Qed.

(** C9: for an entry [e] of heap [h] in a reachable state the heap's [min]
    is not nil, and neither [DecreaseKey] (with a priority that is not NaN)
    nor [Delete] nor the call of [decreaseKeyUnchecked] they make ends in a
    nil dereference, whatever the fuel. *)
Theorem C9_min_present ops w G h e :
  reach ops w G → halloc w h → e ∈ G h →
  hmin w h ≠ None ∧
  (∀ fuel p, p ≠ NaN → DecreaseKey fuel h (Some e) p w ≠ Panic) ∧
  (∀ fuel, Delete fuel h (Some e) w ≠ Panic) ∧
  (∀ fuel p, f_leb p (vPri w e) = true →
     decreaseKeyUnchecked fuel h (Some e) p w ≠ Panic).
Proof.
  intros Hr Hh He. destruct (reach_heap _ _ _ _ Hr Hh) as (R & K & HH).
  assert (Hae : allocd w e) by (by apply (hi_alloc _ _ _ _ _ HH)).
  assert (Hpe : vPri w e ≠ NaN) by (by apply (inv_nan (hi_inv _ _ _ _ _ HH))).
  split_and!.
  - destruct (HeapInv_min w h (G h) R K HH ltac:(set_solver)) as (m & Hhd & _).
    by rewrite (hi_min _ _ _ _ _ HH), Hhd.
  - intros fuel p Hp. destruct (f_gtb p (vPri w e)) eqn:Hgt.
    + by rewrite DecreaseKey_error.
    + assert (Hle : f_leb p (vPri w e) = true) by (by apply f_ltb_false_leb).
      destruct (DecreaseKey_ok w h (G h) R K e p HH He Hle) as [n Hn].
      destruct (Hn n (le_n _)) as (w' & _ & _ & Hrun & _).
      eapply (no_panic (λ k, DecreaseKey k h (Some e) p)); [|exact Hrun].
      intros a b Hab. by apply DecreaseKey_mono.
  - intros fuel. destruct (Delete_spec w h (G h) R K e HH He) as [n Hn].
    destruct (Hn n (le_n _)) as (w1 & w' & _ & _ & _ & _ & Hrun & _).
    eapply (no_panic (λ k, Delete k h (Some e))); [|exact Hrun].
    intros a b Hab. by apply Delete_mono.
  - intros fuel p Hle.
    destruct (decreaseKeyUnchecked_spec w h (G h) R K e p HH He Hle) as [n Hn].
    destruct (Hn n (le_n _)) as (w' & _ & _ & Hrun & _).
    eapply (no_panic (λ k, decreaseKeyUnchecked k h (Some e) p)); [|exact Hrun].
    intros a b Hab. by apply decreaseKeyUnchecked_mono.
Qed.

(** C10: in a reachable state [DequeueMin] returns as soon as its loops
    may run two more times than the heap has entries, and [cutNode] on an
    entry of the heap returns as soon as its recursion may be deeper than
    the entry's chain of parents, which ends in a root. *)
Theorem C10_termination ops w G h :
  reach ops w G → halloc w h →
  (∀ fuel, (size (G h) + 2 ≤ fuel)%nat → ∃ r w', DequeueMin fuel h w = Ok (r, w')) ∧
  (∀ e, e ∈ G h →
     ∃ n, reach_root (vPar w) n e ∧
          ∀ fuel, (n < fuel)%nat → ∃ w', cutNode fuel h (Some e) w = Ok (tt, w')).
Proof.
  intros Hr Hh. destruct (reach_heap _ _ _ _ Hr Hh) as (R & K & HH). split.
  - intros fuel Hfuel.
    destruct (DequeueMin_spec_fuel w h (G h) R K fuel HH Hfuel) as (w' & _ & _ & Hrun & _).
    by eauto.
  - intros e He. destruct (inv_acyc (hi_inv _ _ _ _ _ HH) e He) as [n Hn].
    exists n. split; [done|]. intros fuel Hfuel.
    apply HeapInv_CutInv in HH as [HC _].
    destruct (cutNode_spec h (G h) n fuel w (vPar w) ∅ R K e Hfuel HC) as
      (w' & _ & _ & _ & Hrun & _); [set_solver|done..|].
    by eauto.
Qed.

Ltac ex_halloc := unfold halloc; apply (bool_decide_unpack _); vm_compute; exact I.

Ltac ex_run := first [ex_halloc | vm_compute; reflexivity].

Lemma ex_reach5 : reach ex_ops5 ex_w5 ex_G5.
Proof.
  apply (reach_snoc [ONew; ONew; OEnqueue 0%nat "a" (Fin 1); OEnqueue 0%nat "b" (Fin 2)]
           _ ex_w4 ex_G4).
  - apply (reach_snoc [ONew; ONew; OEnqueue 0%nat "a" (Fin 1)] _ ex_w3 ex_G3).
    + apply (reach_snoc [ONew; ONew] _ ex_w2 ex_G0).
      * apply (reach_snoc [ONew] _ ex_w1 ex_G0).
        -- apply (reach_snoc [] _ empty_world ex_G0); [apply reach_nil|].
           apply (step_New _ _ 0%nat). ex_run.
        -- apply (step_New _ _ 1%nat). ex_run.
      * apply (step_Enqueue ex_w2 ex_G0 0%nat "a" (Fin 1) (Some 0%nat));
      ex_run.
    + apply (step_Enqueue ex_w3 ex_G3 0%nat "b" (Fin 2) (Some 1%nat));
      ex_run.
  - apply (step_Enqueue ex_w4 ex_G4 0%nat "c" (Fin 3) (Some 2%nat));
      ex_run.
Qed.

Lemma ex_reach : reach ex_ops ex_w6 ex_G6.
Proof.
  apply (reach_snoc ex_ops5 _ ex_w5 ex_G5); [apply ex_reach5|].
  apply (step_DequeueMin ex_w5 ex_G5 0%nat 5 (Some 0%nat)); ex_run.
Qed.

Lemma ex_reach7 : reach (ex_ops ++ [ODecreaseKey 0%nat 2%nat (Fin 0)]) ex_w7 ex_G6.
Proof.
  apply (reach_snoc ex_ops _ ex_w6 ex_G6); [apply ex_reach|].
  apply (step_DecreaseKey ex_w6 ex_G6 0%nat 5 2%nat (Fin 0) None); ex_run.
Qed.

(** C4, as the claim states it, fails: after [Enqueue] of [a], [b], [c],
    one [DequeueMin] and [DecreaseKey] of [c] to 0, the entry [b] is in the
    heap, has no parent and is marked. *)
Lemma C4_marked_root :
  reach (ex_ops ++ [ODecreaseKey 0%nat 2%nat (Fin 0)]) ex_w7 ex_G6 ∧
  1%nat ∈ ex_G6 0%nat ∧ vPar ex_w7 1%nat = None ∧ vMk ex_w7 1%nat = true.
Proof.
  split_and!; [apply ex_reach7|ex_halloc|vm_compute; reflexivity..].
Qed.

Lemma C1_min_correct_witness :
  reach ex_ops ex_w6 ex_G6 ∧ halloc ex_w6 0%nat ∧ ex_G6 0%nat ≠ ∅ ∧
  ∃ m, m ∈ ex_G6 0%nat ∧ (∀ x, x ∈ ex_G6 0%nat → pri_le ex_w6 m x) ∧
    Min 0%nat ex_w6 = Ok (Some m, ex_w6) ∧
    ∃ n, ∀ fuel, (n ≤ fuel)%nat →
      ∃ w', DequeueMin fuel 0%nat ex_w6 = Ok (Some m, w') ∧
            reach (ex_ops ++ [ODequeueMin 0%nat]) w'
              (<[0%nat := ex_G6 0%nat ∖ {[m]}]> ex_G6) ∧
            vPri w' = vPri ex_w6 ∧
            Len 0%nat w' = Ok (hsize ex_w6 0%nat - 1, w').
Proof.
  assert (H1 : halloc ex_w6 0%nat) by ex_halloc.
  assert (H2 : ex_G6 0%nat ≠ ∅) by ex_halloc.
  split_and!; [exact ex_reach|exact H1|exact H2|].
  exact (C1_min_correct ex_ops ex_w6 ex_G6 0%nat ex_reach H1 H2).
Defined.

Lemma C2_sorted_extraction_witness :
  reach ex_ops ex_w6 ex_G6 ∧ halloc ex_w6 0%nat ∧
  ∃ n l w',
    (∀ k fuel, (n ≤ k)%nat → (n ≤ fuel)%nat → drain k fuel 0%nat ex_w6 = Ok (l, w')) ∧
    l ≡ₚ elements (ex_G6 0%nat) ∧ StronglySorted (pri_le ex_w6) l ∧
    vPri w' = vPri ex_w6 ∧ Len 0%nat w' = Ok (0, w').
Proof.
  assert (H1 : halloc ex_w6 0%nat) by ex_halloc.
  split_and!; [exact ex_reach|exact H1|].
  exact (C2_sorted_extraction ex_ops ex_w6 ex_G6 0%nat ex_reach H1).
Defined.

Lemma C3_decrease_key_witness :
  reach ex_ops ex_w6 ex_G6 ∧ halloc ex_w6 0%nat ∧ 2%nat ∈ ex_G6 0%nat ∧ Fin 0 ≠ NaN ∧
  (f_gtb (Fin 0) (vPri ex_w6 2%nat) = true ∨ f_leb (Fin 0) (vPri ex_w6 2%nat) = true) ∧
  (f_gtb (Fin 0) (vPri ex_w6 2%nat) = true →
     ∀ fuel, DecreaseKey fuel 0%nat (Some 2%nat) (Fin 0) ex_w6
             = Ok (Some ErrorExceedsPriority, ex_w6)) ∧
  (f_leb (Fin 0) (vPri ex_w6 2%nat) = true →
     ∃ n w',
       (∀ fuel, (n ≤ fuel)%nat →
          DecreaseKey fuel 0%nat (Some 2%nat) (Fin 0) ex_w6 = Ok (None, w')) ∧
       vPri w' = <[2%nat := Fin 0]> (vPri ex_w6) ∧
       reach (ex_ops ++ [ODecreaseKey 0%nat 2%nat (Fin 0)]) w' ex_G6 ∧
       ∃ m, m ∈ ex_G6 0%nat ∧
         (∀ x, x ∈ ex_G6 0%nat →
            f_leb (<[2%nat := Fin 0]> (vPri ex_w6) m) (<[2%nat := Fin 0]> (vPri ex_w6) x) = true) ∧
         Min 0%nat w' = Ok (Some m, w') ∧
         ∃ n' w'', ∀ fuel, (n' ≤ fuel)%nat → DequeueMin fuel 0%nat w' = Ok (Some m, w'')).
Proof.
  assert (H1 : halloc ex_w6 0%nat) by ex_halloc.
  assert (H2 : 2%nat ∈ ex_G6 0%nat) by ex_halloc.
  assert (H3 : Fin 0 ≠ NaN) by discriminate.
  split_and!; [exact ex_reach|exact H1|exact H2|exact H3|..];
    apply (C3_decrease_key ex_ops ex_w6 ex_G6 0%nat 2%nat (Fin 0) ex_reach H1 H2 H3).
Defined.

Lemma C4_unmarked_without_cuts_witness :
  reach ex_ops ex_w6 ex_G6 ∧ forallb cut_free ex_ops = true ∧ ∀ x, vMk ex_w6 x = false.
Proof.
  split_and!; [exact ex_reach|reflexivity|].
  exact (C4_unmarked_without_cuts ex_ops ex_w6 ex_G6 ex_reach eq_refl).
Defined.

Lemma C5_distinct_root_degrees_witness :
  reach ex_ops5 ex_w5 ex_G5 ∧ halloc ex_w5 0%nat ∧
  ∃ n, ∀ fuel, (n ≤ fuel)%nat →
    ∃ r w', DequeueMin fuel 0%nat ex_w5 = Ok (r, w') ∧
      ∀ x y, x ∈ ex_G5 0%nat ∖ opt_set r → y ∈ ex_G5 0%nat ∖ opt_set r →
             vPar w' x = None → vPar w' y = None → x ≠ y →
             vDeg w' x ≠ vDeg w' y.
Proof.
  assert (H1 : halloc ex_w5 0%nat) by ex_halloc.
  split_and!; [exact ex_reach5|exact H1|].
  exact (C5_distinct_root_degrees ex_ops5 ex_w5 ex_G5 0%nat ex_reach5 H1).
Defined.

Lemma C6_merge_witness :
  reach ex_ops ex_w6 ex_G6 ∧ halloc ex_w6 0%nat ∧ halloc ex_w6 1%nat ∧ 0%nat ≠ 1%nat ∧
  ∃ h3 w',
    MergeFibHeap 0%nat 1%nat ex_w6 = Ok (h3, w') ∧
    Len h3 w' = Ok (hsize ex_w6 0%nat + hsize ex_w6 1%nat, w') ∧
    Min 0%nat w' = Ok (None, w') ∧ Len 0%nat w' = Ok (0, w') ∧
    Min 1%nat w' = Ok (None, w') ∧ Len 1%nat w' = Ok (0, w') ∧
    vPri w' = vPri ex_w6 ∧
    ∃ n l w'',
      (∀ k fuel, (n ≤ k)%nat → (n ≤ fuel)%nat → drain k fuel h3 w' = Ok (l, w'')) ∧
      l ≡ₚ elements (ex_G6 0%nat ∪ ex_G6 1%nat) ∧ StronglySorted (pri_le ex_w6) l.
Proof.
  assert (H1 : halloc ex_w6 0%nat) by ex_halloc.
  assert (H2 : halloc ex_w6 1%nat) by ex_halloc.
  assert (H3 : 0%nat ≠ 1%nat) by discriminate.
  split_and!; [exact ex_reach|exact H1|exact H2|exact H3|].
  exact (C6_merge ex_ops ex_w6 ex_G6 0%nat 1%nat ex_reach H1 H2 H3).
Defined.

Lemma C7_delete_witness :
  reach ex_ops ex_w6 ex_G6 ∧ halloc ex_w6 0%nat ∧ 2%nat ∈ ex_G6 0%nat ∧
  ∃ n w1 w',
    (∀ fuel, (n ≤ fuel)%nat →
       Delete fuel 0%nat (Some 2%nat) ex_w6 = Ok (tt, w') ∧
       DecreaseKey fuel 0%nat (Some 2%nat) math_Inf_neg ex_w6 = Ok (None, w1) ∧
       DequeueMin fuel 0%nat w1 = Ok (Some 2%nat, w')) ∧
    reach (ex_ops ++ [ODelete 0%nat 2%nat]) w' (<[0%nat := ex_G6 0%nat ∖ {[2%nat]}]> ex_G6) ∧
    Len 0%nat w' = Ok (hsize ex_w6 0%nat - 1, w') ∧
    (∀ x, x ≠ 2%nat → vPri w' x = vPri ex_w6 x) ∧
    ∃ m l w'',
      (∀ k fuel, (m ≤ k)%nat → (m ≤ fuel)%nat → drain k fuel 0%nat w' = Ok (l, w'')) ∧
      l ≡ₚ elements (ex_G6 0%nat ∖ {[2%nat]}) ∧ 2%nat ∉ l ∧
      (∀ x, x ∈ ex_G6 0%nat → x ≠ 2%nat → x ∈ l).
Proof.
  assert (H1 : halloc ex_w6 0%nat) by ex_halloc.
  assert (H2 : 2%nat ∈ ex_G6 0%nat) by ex_halloc.
  split_and!; [exact ex_reach|exact H1|exact H2|].
  exact (C7_delete ex_ops ex_w6 ex_G6 0%nat 2%nat ex_reach H1 H2).
Defined.

Lemma C8_dequeue_empty_witness :
  halloc ex_w6 1%nat ∧ hsize ex_w6 1%nat = 0 ∧
  DequeueMin 0 1%nat ex_w6 = Ok (None, ex_w6).
Proof.
  assert (H1 : halloc ex_w6 1%nat) by ex_halloc.
  assert (H2 : hsize ex_w6 1%nat = 0) by (vm_compute; reflexivity).
  split_and!; [exact H1|exact H2|].
  exact (C8_dequeue_empty ex_w6 1%nat 0%nat H1 H2).
Defined.

Lemma C9_min_present_witness :
  reach ex_ops ex_w6 ex_G6 ∧ halloc ex_w6 0%nat ∧ 2%nat ∈ ex_G6 0%nat ∧
  hmin ex_w6 0%nat ≠ None ∧
  (∀ fuel p, p ≠ NaN → DecreaseKey fuel 0%nat (Some 2%nat) p ex_w6 ≠ Panic) ∧
  (∀ fuel, Delete fuel 0%nat (Some 2%nat) ex_w6 ≠ Panic) ∧
  (∀ fuel p, f_leb p (vPri ex_w6 2%nat) = true →
     decreaseKeyUnchecked fuel 0%nat (Some 2%nat) p ex_w6 ≠ Panic).
Proof.
  assert (H1 : halloc ex_w6 0%nat) by ex_halloc.
  assert (H2 : 2%nat ∈ ex_G6 0%nat) by ex_halloc.
  split_and!; [exact ex_reach|exact H1|exact H2|..];
    apply (C9_min_present ex_ops ex_w6 ex_G6 0%nat 2%nat ex_reach H1 H2).
Defined.

Lemma C10_termination_witness :
  reach ex_ops ex_w6 ex_G6 ∧ halloc ex_w6 0%nat ∧
  (∀ fuel, (size (ex_G6 0%nat) + 2 ≤ fuel)%nat →
     ∃ r w', DequeueMin fuel 0%nat ex_w6 = Ok (r, w')) ∧
  (∀ e, e ∈ ex_G6 0%nat →
     ∃ n, reach_root (vPar ex_w6) n e ∧
          ∀ fuel, (n < fuel)%nat → ∃ w', cutNode fuel 0%nat (Some e) ex_w6 = Ok (tt, w')).
Proof.
  assert (H1 : halloc ex_w6 0%nat) by ex_halloc.
  split_and!; [exact ex_reach|exact H1|..];
    apply (C10_termination ex_ops ex_w6 ex_G6 0%nat ex_reach H1).
Defined.

Lemma pres_ret Rel {A} (x : A) : (∀ w, Rel w w) → preserves Rel (ret x).
Proof. intros Hr w y w' [= <- <-]. apply Hr. Qed.

Lemma pres_bind Rel {A B} (c : M A) (k : A → M B) :
  (∀ w1 w2 w3, Rel w1 w2 → Rel w2 w3 → Rel w1 w3) →
  preserves Rel c → (∀ a, preserves Rel (k a)) → preserves Rel (bind c k).
Proof.
  intros Ht Hc Hk w y w'. unfold bind. destruct (c w) as [[a w1]| |] eqn:Hcw; try done.
  intros Hka. eapply Ht; [by eapply Hc|by eapply Hk].
Qed.

Lemma pres_load Rel {A} (fld : Entry → A) p : (∀ w, Rel w w) → preserves Rel (load fld p).
Proof.
  intros Hr w y w'. unfold load. destruct p as [a|]; [|done].
  destruct (entries w !! a); [|done]. intros [= <- <-]. apply Hr.
Qed.

Lemma pres_hload Rel {A} (fld : FibHeap → A) f : (∀ w, Rel w w) → preserves Rel (hload fld f).
Proof.
  intros Hr w y w'. unfold hload. destruct (heaps w !! f); [|done].
  intros [= <- <-]. apply Hr.
Qed.

Lemma pres_store Rel u p : (∀ w a, Rel w (upd a u w)) → preserves Rel (store u p).
Proof.
  intros Hu w y w'. unfold store. destruct p as [a|]; [|done].
  destruct (entries w !! a); [|done]. intros [= <- <-]. apply Hu.
Qed.

Lemma pres_hstore Rel u f : (∀ w, Rel w (hupd f u w)) → preserves Rel (hstore u f).
Proof.
  intros Hu w y w'. unfold hstore. destruct (heaps w !! f); [|done].
  intros [= <- <-]. apply Hu.
Qed.

Lemma pres_fuel Rel {A} : preserves Rel (@out_of_fuel A).
Proof. by intros w y w'. Qed.

Lemma pres_panic Rel {A} : preserves Rel (@panic A).
Proof. by intros w y w'. Qed.

Ltac pres :=
  repeat first
    [ apply pres_fuel
    | apply pres_panic
    | apply pres_ret; solve [auto]
    | apply pres_load; solve [auto]
    | apply pres_hload; solve [auto]
    | apply pres_store; solve [auto]
    | apply pres_hstore; solve [auto]
    | apply pres_bind; [assumption| |intros ?]
    | assumption
    | solve [auto]
    | match goal with
      | |- preserves _ (if ?b then _ else _) => destruct b
      | |- preserves _ (match ?x with _ => _ end) => destruct x
      end ].

Lemma frame_rel_link f Rel : frame_rel f Rel → link_rel Rel.
Proof. intros []. by constructor. Qed.

Lemma mergeLists_preserves Rel one two :
  link_rel Rel → preserves Rel (mergeLists one two).
Proof. intros [Hr Ht Hn Hp]. unfold mergeLists. pres. Qed.

Lemma clearParents_preserves f Rel fuel : ∀ minElem curr,
  frame_rel f Rel → preserves Rel (clearParents fuel minElem curr).
Proof.
  induction fuel as [|fuel IH]; intros minElem curr HF; cbn [clearParents]; [apply pres_fuel|].
  pose proof (λ a b, IH a b HF). destruct HF. pres.
Qed.

Lemma collectRoots_preserves f Rel fuel : ∀ toVisit curr,
  frame_rel f Rel → preserves Rel (collectRoots fuel toVisit curr).
Proof.
  induction fuel as [|fuel IH]; intros toVisit curr HF; cbn [collectRoots]; [apply pres_fuel|].
  pose proof (λ a b, IH a b HF). destruct HF. pres.
Qed.

Lemma tableGet_preserves f Rel T d : frame_rel f Rel → preserves Rel (tableGet T d).
Proof. intros []. unfold tableGet. pres. Qed.

Lemma tableSet_preserves f Rel T d v : frame_rel f Rel → preserves Rel (tableSet T d v).
Proof. intros []. unfold tableSet. pres. Qed.

Lemma mergeLoop_preserves f Rel fuel : ∀ T curr,
  frame_rel f Rel → preserves Rel (mergeLoop fuel T curr).
Proof.
  induction fuel as [|fuel IH]; intros T curr HF; cbn [mergeLoop]; [apply pres_fuel|].
  pose proof (λ a b, IH a b HF).
  pose proof (λ T d, tableGet_preserves f Rel T d HF).
  pose proof (λ T d v, tableSet_preserves f Rel T d v HF).
  pose proof (λ a b, mergeLists_preserves Rel a b (frame_rel_link _ _ HF)).
  destruct HF. pres.
Qed.

Lemma consolidate_preserves f Rel fuel : ∀ V T,
  frame_rel f Rel → preserves Rel (consolidate fuel f V T).
Proof.
  induction V as [|v V IH]; intros T HF; cbn [consolidate].
  - destruct HF. pres.
  - pose proof (λ T c, mergeLoop_preserves f Rel fuel T c HF).
    pose proof (λ T, IH T HF). destruct HF. pres.
Qed.

Lemma DequeueMin_preserves f Rel fuel :
  frame_rel f Rel → preserves Rel (DequeueMin fuel f).
Proof.
  intros HF. unfold DequeueMin.
  pose proof (λ a b, mergeLists_preserves Rel a b (frame_rel_link _ _ HF)).
  pose proof (λ a b, clearParents_preserves f Rel fuel a b HF).
  pose proof (λ a b, collectRoots_preserves f Rel fuel a b HF).
  pose proof (λ a b, consolidate_preserves f Rel fuel a b HF).
  destruct HF. pres.
Qed.

Lemma cutNode_preserves f Rel fuel : ∀ e,
  frame_rel f Rel → (∀ w a, Rel w (upd a (with_marked true) w)) →
  preserves Rel (cutNode fuel f e).
Proof.
  induction fuel as [|fuel IH]; intros e HF Hmk; cbn [cutNode]; [apply pres_fuel|].
  pose proof (λ e, IH e HF Hmk).
  pose proof (λ a b, mergeLists_preserves Rel a b (frame_rel_link _ _ HF)).
  destruct HF. pres.
Qed.

Lemma decreaseKeyUnchecked_preserves f Rel fuel e p :
  frame_rel f Rel → (∀ w a, Rel w (upd a (with_marked true) w)) →
  (∀ w, Rel w (upd e (with_Priority p) w)) →
  preserves Rel (decreaseKeyUnchecked fuel f (Some e) p).
Proof.
  intros HF Hmk Hpri. unfold decreaseKeyUnchecked.
  pose proof (λ e, cutNode_preserves f Rel fuel e HF Hmk).
  destruct HF. apply pres_bind; [assumption| |intros ?].
  - intros w y w'. unfold store. destruct (entries w !! e); [|done].
    intros [= <- <-]. apply Hpri.
  - pres.
Qed.

Lemma evolves_refl Q w : (∀ a e, Q a e e) → evolves Q w w.
Proof. intros HQ a e He. eauto. Qed.

Lemma evolves_trans Q w1 w2 w3 :
  (∀ a e1 e2 e3, Q a e1 e2 → Q a e2 e3 → Q a e1 e3) →
  evolves Q w1 w2 → evolves Q w2 w3 → evolves Q w1 w3.
Proof.
  intros HQ H12 H23 a e He. destruct (H12 a e He) as (e2 & He2 & HQ2).
  destruct (H23 a e2 He2) as (e3 & He3 & HQ3). eauto.
Qed.

Lemma evolves_upd Q w a u :
  (∀ b e, Q b e e) → (∀ e, Q a e (u e)) → evolves Q w (upd a u w).
Proof.
  intros Hr HQ b e He. unfold upd; simpl. destruct (decide (b = a)) as [->|Hb].
  - rewrite lookup_alter_eq, He. simpl. eauto.
  - rewrite lookup_alter_ne by done. eauto.
Qed.

Lemma evolves_hupd Q w f u : (∀ b e, Q b e e) → evolves Q w (hupd f u w).
Proof. intros Hr b e He. simpl. eauto. Qed.

Lemma evolves_link_rel Q :
  (∀ a e, Q a e e) → (∀ a e1 e2 e3, Q a e1 e2 → Q a e2 e3 → Q a e1 e3) →
  (∀ a e v, Q a e (with_next v e)) → (∀ a e v, Q a e (with_prev v e)) →
  link_rel (evolves Q).
Proof.
  intros Hr Ht Hn Hp. constructor.
  - intros w. by apply evolves_refl.
  - intros w1 w2 w3. by apply evolves_trans.
  - intros w a v. by apply evolves_upd.
  - intros w a v. by apply evolves_upd.
Qed.

Lemma evolves_frame_rel f Q :
  (∀ a e, Q a e e) → (∀ a e1 e2 e3, Q a e1 e2 → Q a e2 e3 → Q a e1 e3) →
  (∀ a e v, Q a e (with_next v e)) → (∀ a e v, Q a e (with_prev v e)) →
  (∀ a e v, Q a e (with_parent v e)) → (∀ a e v, Q a e (with_child v e)) →
  (∀ a e v, Q a e (with_degree v e)) → (∀ a e, Q a e (with_marked false e)) →
  frame_rel f (evolves Q).
Proof.
  intros Hr Ht Hn Hp Hpa Hc Hd Hm. constructor.
  - intros w. by apply evolves_refl.
  - intros w1 w2 w3. by apply evolves_trans.
  - intros w a v. by apply evolves_upd.
  - intros w a v. by apply evolves_upd.
  - intros w a v. by apply evolves_upd.
  - intros w a v. by apply evolves_upd.
  - intros w a v. by apply evolves_upd.
  - intros w a. by apply evolves_upd.
  - intros w u. by apply evolves_hupd.
Qed.

Lemma hframe_frame_rel f : frame_rel f (hframe f).
Proof.
  constructor; try (by intros w a v g Hg); try (by intros w a g Hg).
  - by intros w g Hg.
  - intros w1 w2 w3 H12 H23 g Hg. by rewrite H23, H12.
  - intros w u g Hg. simpl. by rewrite lookup_alter_ne.
Qed.

Lemma same_dom_frame_rel f : frame_rel f same_dom.
Proof.
  constructor; try (intros w a v; split; simpl; [by rewrite dom_alter_L|done]).
  - by intros w.
  - intros w1 w2 w3 [A1 A2] [B1 B2]. split; congruence.
  - intros w a. split; simpl; [by rewrite dom_alter_L|done].
  - intros w u. split; simpl; [done|by rewrite dom_alter_L].
Qed.

Lemma same_payload_frame_rel f : frame_rel f (evolves (λ _, same_payload)).
Proof.
  apply evolves_frame_rel; unfold same_payload; try (by intros; simpl).
  intros a e1 e2 e3 (A1 & A2 & A3) (B1 & B2 & B3). split_and!; [congruence..|auto].
Qed.

Lemma same_but_links_link_rel : link_rel (evolves (λ _, same_but_links)).
Proof.
  apply evolves_link_rel; unfold same_but_links; try (by intros; simpl).
  intros a e1 e2 e3 (A1 & A2 & A3 & A4 & A5 & A6) (B1 & B2 & B3 & B4 & B5 & B6).
  split_and!; congruence.
Qed.

Lemma preserves_hstore_links u f : preserves (evolves (λ _, same_but_links)) (hstore u f).
Proof.
  apply pres_hstore. intros w. apply evolves_hupd. intros b e. by unfold same_but_links.
Qed.

(** X2: Enqueue, in any state in which it returns: the result is a new entry
    holding the given element and priority, unmarked, of degree zero,
    without parent or child; the entries that existed are still there and
    differ at most in [next] and [prev]; no other entry is created; the
    other heap objects are as they were. *)
Theorem Enqueue_effect f el pr w r w' :
  Enqueue f el pr w = Ok (r, w') →
  ∃ a, r = Some a ∧ entries w !! a = None ∧
    (∃ e, entries w' !! a = Some e ∧ Element e = el ∧ Priority e = pr ∧
          marked e = false ∧ degree e = 0 ∧ parent e = None ∧ child e = None) ∧
    evolves (λ _, same_but_links) w w' ∧
    dom (entries w') = {[a]} ∪ dom (entries w) ∧
    hframe f w w' ∧ dom (heaps w') = dom (heaps w).
Proof.
  intros Hrun. unfold Enqueue, checkPriority in Hrun. rewrite bind_ret in Hrun.
  rewrite (bind_run _ _ _ _ _ (newEntry_run el pr w)) in Hrun.
  set (a := fresh (dom (entries w))) in *.
  set (w1 := enq_world 0%nat el pr w) in *.
  set (rest := (let* m := hload heap_min f in
                let* r := mergeLists m (Some a) in
                hstore (with_min r) f ;;;
                let* s := hload heap_size f in
                hstore (with_size (int_add s 1)) f ;;; ret (Some a))) in *.
  assert (Hfresh : entries w !! a = None).
  { apply not_elem_of_dom. apply is_fresh. }
  assert (Hr : r = Some a).
  { revert Hrun. unfold rest, bind. repeat (case_match; try done). by intros [= <- _]. }
  assert (Ha1 : entries w1 !! a =
            Some (mkEntry 0 false (Some a) (Some a) None None el pr)).
  { unfold w1, enq_world, upd, ins. simpl. fold a.
    rewrite lookup_alter_eq, lookup_alter_eq, lookup_insert_eq. done. }
  assert (Hold : ∀ b, b ≠ a → entries w1 !! b = entries w !! b).
  { intros b Hb. unfold w1, enq_world, upd, ins. simpl. fold a.
    rewrite !lookup_alter_ne, lookup_insert_ne by done. done. }
  pose proof same_but_links_link_rel as HL.
  pose proof (hframe_frame_rel f) as HFh. pose proof (same_dom_frame_rel f) as HFd.
  assert (H1 : preserves (evolves (λ _, same_but_links)) rest).
  { pose proof (λ a b, mergeLists_preserves _ a b HL).
    pose proof preserves_hstore_links.
    destruct HL. unfold rest. pres. }
  assert (H2 : preserves (hframe f) rest).
  { pose proof (λ a b, mergeLists_preserves _ a b (frame_rel_link _ _ HFh)).
    destruct HFh. unfold rest. pres. }
  assert (H3 : preserves same_dom rest).
  { pose proof (λ a b, mergeLists_preserves _ a b (frame_rel_link _ _ HFd)).
    destruct HFd. unfold rest. pres. }
  specialize (H1 _ _ _ Hrun). specialize (H2 _ _ _ Hrun). destruct (H3 _ _ _ Hrun) as [Hd1 Hd2].
  exists a. split_and!; [done..| | | | |].
  - destruct (H1 a _ Ha1) as (e & He & A1 & A2 & A3 & A4 & A5 & A6). exists e. done.
  - intros b e He. assert (b ≠ a) by congruence.
    apply H1. by rewrite Hold.
  - rewrite Hd1. apply set_eq. intros b. rewrite elem_of_union, elem_of_singleton.
    rewrite !elem_of_dom. destruct (decide (b = a)) as [->|Hb].
    + rewrite Ha1. naive_solver.
    + rewrite Hold by done. naive_solver.
  - done.
  - done.
Qed.

(** X4: DequeueMin, in any state in which it returns: every entry is still
    there with its element and its priority, no mark is set, no entry or
    heap object is created or lost, and the other heap objects are as they
    were. *)
Theorem DequeueMin_frame fuel f w r w' :
  DequeueMin fuel f w = Ok (r, w') →
  evolves (λ _, same_payload) w w' ∧ same_dom w w' ∧ hframe f w w'.
Proof.
  intros Hrun. split_and!.
  - by apply (DequeueMin_preserves f _ fuel (same_payload_frame_rel f) _ _ _ Hrun).
  - by apply (DequeueMin_preserves f _ fuel (same_dom_frame_rel f) _ _ _ Hrun).
  - by apply (DequeueMin_preserves f _ fuel (hframe_frame_rel f) _ _ _ Hrun).
Qed.

Lemma same_elem_but_frame_rel f e0 : frame_rel f (evolves (same_elem_but e0)).
Proof.
  apply evolves_frame_rel; unfold same_elem_but; try (by intros; simpl).
  intros a e1 e2 e3 (A1 & A2) (B1 & B2). split; [congruence|].
  intros Ha. rewrite B2, A2 by done. done.
Qed.

Lemma same_elem_pri_frame_rel f : frame_rel f (evolves (λ _, same_elem_pri)).
Proof.
  apply evolves_frame_rel; unfold same_elem_pri; try (by intros; simpl).
  intros a e1 e2 e3 (A1 & A2) (B1 & B2). split; congruence.
Qed.

Lemma decreaseKeyUnchecked_frame fuel f e p w w' :
  decreaseKeyUnchecked fuel f (Some e) p w = Ok (tt, w') →
  evolves (same_elem_but e) w w' ∧ same_dom w w' ∧ hframe f w w' ∧
  ∃ x', entries w' !! e = Some x' ∧ Priority x' = p.
Proof.
  intros Hrun. split_and!.
  - refine (decreaseKeyUnchecked_preserves f _ fuel e p (same_elem_but_frame_rel f e)
              _ _ _ _ _ Hrun).
    + intros w0 a. apply evolves_upd; by unfold same_elem_but.
    + intros w0. apply evolves_upd; unfold same_elem_but; [done|]. by intros x; simpl.
  - refine (decreaseKeyUnchecked_preserves f _ fuel e p (same_dom_frame_rel f)
              _ _ _ _ _ Hrun).
    + intros w0 a. split; simpl; [by rewrite dom_alter_L|done].
    + intros w0. split; simpl; [by rewrite dom_alter_L|done].
  - refine (decreaseKeyUnchecked_preserves f _ fuel e p (hframe_frame_rel f)
              _ _ _ _ _ Hrun).
    + by intros w0 a g Hg.
    + by intros w0 g Hg.
  - (* after the first store the priority of [e] is [p], and stays *)
    unfold decreaseKeyUnchecked in Hrun. unfold bind at 1 in Hrun.
    destruct (store (with_Priority p) (Some e) w) as [[[] w1]| |] eqn:Hst; try done.
    assert (He1 : ∃ x1, entries w1 !! e = Some x1 ∧ Priority x1 = p).
    { unfold store in Hst. destruct (entries w !! e) as [x|] eqn:Hx; [|done].
      injection Hst as <-. simpl. rewrite lookup_alter_eq, Hx. simpl. eauto. }
    destruct He1 as (x1 & Hx1 & Hp1).
    assert (Hpres : preserves (evolves (λ _, same_elem_pri))
      (let* p0 := load parent (Some e) in
       let* cut := (if decide (p0 ≠ None) then
                      let* pe := load Priority (Some e) in
                      let* p1 := load parent (Some e) in
                      let* pp := load Priority p1 in
                      ret (f_leb pe pp)
                    else ret false) in
       (if cut then cutNode fuel f (Some e) else ret tt) ;;;
       let* pe := load Priority (Some e) in
       let* m := hload heap_min f in
       let* pm := load Priority m in
       if f_leb pe pm then hstore (with_min (Some e)) f else ret tt)).
    { pose proof (same_elem_pri_frame_rel f) as HF.
      assert (Hmk : ∀ w0 a, evolves (λ _, same_elem_pri) w0 (upd a (with_marked true) w0)).
      { intros w0 a. apply evolves_upd; by unfold same_elem_pri. }
      pose proof (λ e, cutNode_preserves f _ fuel e HF Hmk).
      destruct HF. pres. }
    destruct (Hpres _ _ _ Hrun e x1 Hx1) as (x' & Hx' & _ & HP). exists x'.
    split; [done|congruence].
Qed.

(** X5: DecreaseKey, in any state in which it returns: with the error the
    state is unchanged; without it the priority of [e] is the new one; in
    both cases every entry keeps its element, every entry but [e] keeps its
    priority, nothing is created or lost and the other heap objects are as
    they were. *)
Theorem DecreaseKey_frame fuel f e p w r w' :
  DecreaseKey fuel f (Some e) p w = Ok (r, w') →
  (r = Some ErrorExceedsPriority → w' = w) ∧
  (r = None → ∃ x', entries w' !! e = Some x' ∧ Priority x' = p) ∧
  evolves (same_elem_but e) w w' ∧ same_dom w w' ∧ hframe f w w'.
Proof.
  unfold DecreaseKey, checkPriority. rewrite bind_ret. unfold bind at 1.
  destruct (load Priority (Some e) w) as [[pe w0]| |] eqn:Hld; try done.
  assert (w0 = w) as ->.
  { unfold load in Hld. destruct (entries w !! e); [|done]. by injection Hld as _ <-. }
  destruct (f_gtb p pe).
  - intros [= <- <-]. split_and!; try done.
    apply evolves_refl. by unfold same_elem_but.
  - unfold bind.
    destruct (decreaseKeyUnchecked fuel f (Some e) p w) as [[[] w1]| |] eqn:Hdk; try done.
    intros [= <- <-].
    destruct (decreaseKeyUnchecked_frame _ _ _ _ _ _ Hdk) as (A1 & A2 & A3 & A4).
    split_and!; done.
Qed.

(** X6: Delete, in any state in which it returns: every entry keeps its
    element, every entry but [e] keeps its priority, nothing is created or
    lost and the other heap objects are as they were. *)
Theorem Delete_frame fuel f e w w' :
  Delete fuel f (Some e) w = Ok (tt, w') →
  evolves (same_elem_but e) w w' ∧ same_dom w w' ∧ hframe f w w'.
Proof.
  unfold Delete. unfold bind.
  destruct (decreaseKeyUnchecked fuel f (Some e) math_Inf_neg w) as [[[] w1]| |] eqn:Hdk;
    try done.
  destruct (DequeueMin fuel f w1) as [[r w2]| |] eqn:Hdq; try done.
  intros [= <-].
  destruct (decreaseKeyUnchecked_frame _ _ _ _ _ _ Hdk) as (A1 & A2 & A3 & _).
  destruct (DequeueMin_frame _ _ _ _ _ Hdq) as (B1 & B2 & B3).
  pose proof (same_elem_but_frame_rel f e) as HF.
  pose proof (same_dom_frame_rel f) as HFd. pose proof (hframe_frame_rel f) as HFh.
  split_and!.
  - eapply (fr_trans _ _ HF); [done|].
    intros a x Hx. destruct (B1 a x Hx) as (x' & Hx' & C1 & C2 & _). exists x'.
    split; [done|]. by split.
  - by eapply (fr_trans _ _ HFd).
  - by eapply (fr_trans _ _ HFh).
Qed.

Lemma same_heaps_link_rel : link_rel same_heaps.
Proof.
  constructor; unfold same_heaps; try done. intros w1 w2 w3 H12 H23. congruence.
Qed.

(** X7: MergeFibHeap on two heap objects, which may be the same one, in any
    state: it returns a new heap object whose [size] is the (wrapped) sum of
    the two sizes; the entries are the same and differ at most in [next]
    and [prev]; both arguments end with [min] nil and [size] 0; every other
    heap object is as it was. *)
Theorem MergeFibHeap_frame one two w h3 w' :
  halloc w one → halloc w two →
  MergeFibHeap one two w = Ok (h3, w') →
  ¬ halloc w h3 ∧
  evolves (λ _, same_but_links) w w' ∧ dom (entries w') = dom (entries w) ∧
  (∀ g, halloc w' g ↔ g = h3 ∨ halloc w g) ∧
  (∀ g, g ≠ one → g ≠ two → g ≠ h3 → heaps w' !! g = heaps w !! g) ∧
  hmin w' one = None ∧ hsize w' one = 0 ∧ hmin w' two = None ∧ hsize w' two = 0 ∧
  hsize w' h3 = int_add (hsize w one) (hsize w two).
Proof.
  intros Hone Htwo Hrun. unfold MergeFibHeap in Hrun. rewrite bind_NewFibHeap in Hrun.
  set (h := fresh (dom (heaps w))) in *.
  set (w1 := hins h (mkFibHeap None 0) w) in *.
  assert (Hfresh : ¬ halloc w h) by apply is_fresh.
  assert (one ≠ h ∧ two ≠ h) as [Hoh Hth] by (split; intros ->; done).
  assert (halloc w1 one ∧ halloc w1 two ∧ halloc w1 h) as (H1o & H1t & H1h).
  { unfold w1. rewrite !halloc_hins. auto. }
  rewrite bind_hload_min in Hrun by done. rewrite bind_hload_min in Hrun by done.
  revert Hrun. unfold bind at 1.
  destruct (mergeLists (hmin w1 one) (hmin w1 two) w1) as [[r w2]| |] eqn:Hm; try done.
  pose proof (mergeLists_preserves _ _ _ same_but_links_link_rel _ _ _ Hm) as Hev.
  pose proof (mergeLists_preserves _ _ _ (frame_rel_link _ _ (same_dom_frame_rel h)) _ _ _ Hm)
    as [Hd1 Hd2].
  pose proof (mergeLists_preserves _ _ _ same_heaps_link_rel _ _ _ Hm) as Hhp.
  unfold same_heaps in Hhp.
  assert (Hal2 : ∀ g, halloc w2 g ↔ halloc w1 g).
  { intros g. unfold halloc. by rewrite Hhp. }
  assert (halloc w2 one ∧ halloc w2 two ∧ halloc w2 h) as (H2o & H2t & H2h).
  { rewrite !Hal2. done. }
  assert (Hmin2 : hmin w2 = hmin w1) by (unfold hmin; by rewrite Hhp).
  assert (Hsz2 : hsize w2 = hsize w1) by (unfold hsize; by rewrite Hhp).
  assert (Hsz1 : hsize w1 = <[h := 0]> (hsize w)) by (unfold w1; by rewrite hsize_hins).
  run. unfold ret. intros [= <- <-].
  split_and!.
  - done.
  - intros a e He. apply Hev. done.
  - simpl. rewrite Hd1. done.
  - intros g. rewrite !halloc_hupd, Hal2. unfold w1. by rewrite halloc_hins.
  - intros g Hg1 Hg2 Hg3. simpl. rewrite !lookup_alter_ne by done. rewrite Hhp.
    unfold w1, hins. simpl. by rewrite lookup_insert_ne.
  - hsimpl. destruct (decide (one = two)) as [->|]; by fn_simpl.
  - hsimpl. destruct (decide (one = two)) as [->|]; by fn_simpl.
  - hsimpl. by fn_simpl.
  - hsimpl. by fn_simpl.
  - hsimpl. rewrite Hsz2, Hsz1. by fn_simpl.
Qed.

(** ** The data structure between calls *)

Lemma path_link_next N P x l a :
  path N P x l → a ∈ srcs x l → ∃ b, b ∈ l ∧ link N P a b.
Proof.
  revert x. induction l as [|y l IH]; intros x; simpl; [by intros _ ?%elem_of_nil|].
  intros [H1 H2] [->|Ha]%elem_of_cons.
  - exists y. split; [left|done].
  - destruct (IH _ H2 Ha) as (b & ? & ?). exists b. split; [by right|done].
Qed.

Lemma path_link_prev N P x l b :
  path N P x l → b ∈ l → ∃ a, a ∈ srcs x l ∧ link N P a b.
Proof.
  revert x. induction l as [|y l IH]; intros x; simpl; [by intros _ ?%elem_of_nil|].
  intros [H1 H2] [->|Ha]%elem_of_cons.
  - exists x. split; [left|done].
  - destruct (IH _ H2 Ha) as (a & ? & ?). exists a. split; [by right|done].
Qed.

Lemma ring_link_next N P l a : ring N P l → a ∈ l → ∃ b, b ∈ l ∧ link N P a b.
Proof.
  destruct l as [|x l]; [by intros _ ?%elem_of_nil|]. intros [_ Hp] Ha.
  destruct (path_link_next _ _ _ _ a Hp) as (b & Hb & ?).
  - by rewrite srcs_snoc.
  - exists b. split; [|done]. apply elem_of_snoc in Hb as [?| ->]; [by right|left].
Qed.

Lemma ring_link_prev N P l a : ring N P l → a ∈ l → ∃ b, b ∈ l ∧ link N P b a.
Proof.
  destruct l as [|x l]; [by intros _ ?%elem_of_nil|]. intros [_ Hp] Ha.
  destruct (path_link_prev _ _ _ _ a Hp) as (b & Hb & ?).
  - apply elem_of_snoc. apply elem_of_cons in Ha as [->|?]; [by right|by left].
  - exists b. split; [|done]. by rewrite srcs_snoc in Hb.
Qed.

Lemma reach_member ops w G h e :
  reach ops w G → e ∈ G h → ∃ R K, HeapInv w h (G h) R K.
Proof.
  intros Hr He. pose proof (reach_WInv _ _ _ Hr) as HW.
  destruct (decide (h ∈ dom (heaps w))) as [Hh|Hh].
  - by apply (wi_heap _ _ HW).
  - rewrite (wi_none _ _ HW h Hh) in He. set_solver.
Qed.

(** The sibling ring of an entry, in [R] or in the child list of its
    parent. *)
Lemma inv_ring_of N P Par Ch Deg Pri (E L : gset nat) R K x :
  Inv N P Par Ch Deg Pri E L R K → x ∈ L →
  ∃ l, ring N P l ∧ x ∈ l ∧ ∀ y, y ∈ l → y ∈ L ∧ Par y = Par x.
Proof.
  intros HI Hx. destruct (inv_where HI x Hx) as [[HR HP]|(p & Hp & HP & HK)].
  - exists R. split_and!; [apply (inv_rring HI)|done|].
    intros y Hy. apply (inv_roots HI) in Hy as [? ?]. split; [done|congruence].
  - exists (K p). split_and!; [by apply (inv_kring HI)|done|].
    intros y Hy. apply (inv_kids HI p y Hp) in Hy as [? ?]. split; [done|congruence].
Qed.

(** X10: Sibling rings are consistent in every reachable state: for an entry
    [e] of a heap, [e.next.prev == e] and [e.prev.next == e], and both
    neighbours are entries of the same heap with the same parent. *)
Theorem rings_consistent ops w G h e :
  reach ops w G → e ∈ G h →
  ∃ n p, vN w e = Some n ∧ vP w n = Some e ∧ vP w e = Some p ∧ vN w p = Some e ∧
         n ∈ G h ∧ p ∈ G h ∧ vPar w n = vPar w e ∧ vPar w p = vPar w e.
Proof.
  intros Hr He. destruct (reach_member _ _ _ _ _ Hr He) as (R & K & HH).
  destruct (inv_ring_of _ _ _ _ _ _ _ _ _ _ e (hi_inv _ _ _ _ _ HH) He) as (l & Hl & Hel & Hall).
  destruct (ring_link_next _ _ _ e Hl Hel) as (n & Hn & Hn1 & Hn2).
  destruct (ring_link_prev _ _ _ e Hl Hel) as (p & Hp & Hp1 & Hp2).
  exists n, p. destruct (Hall n Hn), (Hall p Hp). split_and!; done.
Qed.

(** X11: The trees are heap ordered in every reachable state: the parent of an
    entry of a heap is another entry of that heap and its priority is at
    most the entry's. *)
Theorem heap_ordered ops w G h e p :
  reach ops w G → e ∈ G h → vPar w e = Some p →
  p ∈ G h ∧ p ≠ e ∧ pri_le w p e.
Proof.
  intros Hr He HP. destruct (reach_member _ _ _ _ _ Hr He) as (R & K & HH).
  pose proof (hi_inv _ _ _ _ _ HH) as HI. split_and!.
  - by apply (inv_par HI e p).
  - intros ->. destruct (inv_acyc HI e He) as [n Hn].
    eapply reach_root_acyclic; [done..|constructor].
  - apply (inv_ord HI); [done|set_solver|done].
Qed.

(** X12: [degree] counts the children in every reachable state: the degree of
    an entry of a heap is the number of entries of the heap whose parent it
    is; [child] is nil exactly when there is none, and otherwise points to
    one of them. *)
Theorem degree_counts_children ops w G h e :
  reach ops w G → e ∈ G h →
  vDeg w e = Z.of_nat (size (filter (λ x, vPar w x = Some e) (G h))) ∧
  (vCh w e = None ↔ vDeg w e = 0) ∧
  (∀ c, vCh w e = Some c → c ∈ G h ∧ vPar w c = Some e).
Proof.
  intros Hr He. destruct (reach_member _ _ _ _ _ Hr He) as (R & K & HH).
  pose proof (hi_inv _ _ _ _ _ HH) as HI.
  pose proof (inv_kids HI e) as HK. pose proof (inv_child HI e He) as HC.
  pose proof (inv_deg HI e He) as HD.
  assert (Hnd : NoDup (K e)) by apply (ring_NoDup _ _ _ (inv_kring HI e He)).
  split_and!.
  - rewrite HD. f_equal. rewrite <- (size_list_to_set (C:=gset nat) (K e)) by done.
    f_equal. apply set_eq. intros x. rewrite elem_of_list_to_set, elem_of_filter.
    rewrite HK by done. tauto.
  - rewrite HC, HD. destruct (K e); simpl; split; intros; try done; lia.
  - intros c Hc. rewrite HC in Hc. apply (HK c He).
    destruct (K e) as [|c' l]; [done|]. injection Hc as ->. left.
Qed.

(** X8: [Len] is the number of entries in the heap, in every reachable state. *)
Theorem Len_counts ops w G h :
  reach ops w G → halloc w h → Len h w = Ok (Z.of_nat (size (G h)), w).
Proof.
  intros Hr Hh. destruct (reach_heap _ _ _ _ Hr Hh) as (R & K & HH).
  by apply (HeapInv_Len _ _ _ _ _ HH).
Qed.

(** X9: [Min] is nil exactly when the heap holds no entry, which is when
    [Len] is 0 and when [DequeueMin] returns nil; an entry that [Min]
    returns is an entry of the heap without parent. *)
Theorem Min_nil_iff_empty ops w G h :
  reach ops w G → halloc w h →
  ∃ m, Min h w = Ok (m, w) ∧
    (m = None ↔ G h = ∅) ∧ (hsize w h = 0 ↔ G h = ∅) ∧
    (∀ fuel r w', DequeueMin fuel h w = Ok (r, w') → (r = None ↔ G h = ∅)) ∧
    (∀ x, m = Some x → x ∈ G h ∧ vPar w x = None).
Proof.
  intros Hr Hh. destruct (reach_heap _ _ _ _ Hr Hh) as (R & K & HH).
  pose proof (hi_inv _ _ _ _ _ HH) as HI.
  assert (Hnil : list.head R = None ↔ G h = ∅).
  { destruct R as [|r R0]; simpl.
    - split; [intros _; by apply (HeapInv_nil _ _ _ _ HH)|done].
    - split; [done|]. intros HG. pose proof (inv_root_in HI r ltac:(left)) as Hx.
      rewrite HG in Hx. set_solver. }
  exists (list.head R). split_and!.
  - apply (HeapInv_Min _ _ _ _ _ HH).
  - done.
  - rewrite (hi_size _ _ _ _ _ HH). split.
    + intros Hs. apply leibniz_equiv, size_empty_inv. lia.
    + intros ->. by rewrite size_empty.
  - intros fuel r w' Hrun.
    destruct (DequeueMin_spec w h (G h) R K HH) as [n Hn].
    destruct (Hn (fuel `max` n)%nat (Nat.le_max_r _ _)) as (w1 & R1 & K1 & Hrun1 & _).
    rewrite (le_run_Ok _ _ _ _ (DequeueMin_mono fuel _ h (Nat.le_max_l _ n)) Hrun) in Hrun1.
    injection Hrun1 as -> ->. done.
  - intros x Hx. destruct R as [|r R0]; [done|]. injection Hx as ->.
    apply (inv_roots HI). left.
Qed.

(** ** Safety and composition of the public functions *)

(** X13: In a reachable state [DequeueMin] never dereferences nil and never
    indexes [treeTable] out of range, whatever the fuel. *)
Theorem DequeueMin_never_panics ops w G h fuel :
  reach ops w G → halloc w h → DequeueMin fuel h w ≠ Panic.
Proof.
  intros Hr Hh. destruct (reach_heap _ _ _ _ Hr Hh) as (R & K & HH).
  destruct (DequeueMin_spec w h (G h) R K HH) as [n Hn].
  destruct (Hn n (le_n _)) as (w' & _ & _ & Hrun & _).
  eapply (no_panic (λ k, DequeueMin k h)); [|exact Hrun].
  intros a b Hab. by apply DequeueMin_mono.
Qed.

(** The entry that [Enqueue] makes the heap's [min]: the new one unless
    the old minimum is strictly smaller.  NaN is not excluded. *)
Lemma Enqueue_min w f L R K el pr :
  HeapInv w f L R K →
  let a := fresh (dom (entries w)) in
  ∃ w', Enqueue f el pr w = Ok (Some a, w') ∧
    hmin w' f = match list.head R with
                | None => Some a
                | Some r => if f_ltb (vPri w r) pr then Some r else Some a
                end ∧
    vPri w' = <[a := pr]> (vPri w).
Proof.
  intros HH a. destruct HH as [Hf Hal Hsz Hmin Hmnl HI].
  assert (Ha : ¬ allocd w a) by apply fresh_not_allocd.
  assert (HaL : a ∉ L) by (intros ?; by apply Ha, Hal).
  unfold Enqueue, checkPriority. step.
  rewrite (bind_run _ _ _ _ _ (newEntry_run el pr w)). fold a.
  unfold enq_world. fold a.
  set (e0 := mkEntry 0 false None None None None el pr).
  assert (Ha1 : allocd (ins a e0 w) a) by (apply allocd_ins; by left).
  step.
  destruct R as [|r R0].
  - hsimpl. rewrite Hmin. simpl. step. step. step. step.
    eexists. split; [reflexivity|]. split.
    + by hsimpl.
    + by vsimpl.
  - hsimpl. rewrite Hmin. simpl.
    assert (Hr : r ∈ L) by (eapply inv_root_in; [done|left]).
    destruct (inv_next_in HI r Hr) as (y & Hy & HNr & _).
    assert (y ≠ a ∧ r ≠ a) as [Hya Hra] by (split; intros ->; done).
    erewrite bind_run; cycle 1.
    { apply (mergeLists_run _ r a y a); [solve_alloc..| |]; vsimpl; done. }
    step. step. step. vsimpl.
    eexists. split; [reflexivity|]. split.
    + hsimpl. vsimpl. by destruct (f_ltb _ _).
    + by vsimpl.
Qed.

(** X3: After [Enqueue] the heap's [min] is the new entry, unless the old
    minimum has a strictly smaller priority: ties go to the new entry, and so
    does a NaN priority, which [checkPriority] lets through. *)
Theorem Enqueue_min_choice ops w G h el pr :
  reach ops w G → halloc w h →
  ∃ a w', Enqueue h el pr w = Ok (Some a, w') ∧ vPri w' a = pr ∧
    Min h w' = Ok (match hmin w h with
                   | None => Some a
                   | Some r => if f_ltb (vPri w r) pr then Some r else Some a
                   end, w').
Proof.
  intros Hr Hh. destruct (reach_heap _ _ _ _ Hr Hh) as (R & K & HH).
  destruct (Enqueue_min w h (G h) R K el pr HH) as (w' & Hrun & Hmin & HPri).
  exists (fresh (dom (entries w))), w'. split_and!; [done| |].
  - rewrite HPri. by fn_simpl.
  - rewrite Min_run, Hmin, (hi_min _ _ _ _ _ HH); [done|].
    destruct (Enqueue_effect _ _ _ _ _ _ Hrun) as (_ & _ & _ & _ & _ & _ & _ & Hd).
    unfold halloc. by rewrite Hd.
Qed.

(** X14: Round trip: an entry enqueued with a priority strictly below every
    priority in the heap is the next one [DequeueMin] returns, and the heap
    then holds what it held before. *)
Theorem Enqueue_then_DequeueMin ops w G h el pr :
  reach ops w G → halloc w h → pr ≠ NaN →
  Z.of_nat (size (dom (entries w))) + 1 < int_lim →
  (∀ x, x ∈ G h → f_ltb pr (vPri w x) = true) →
  ∃ a w1 n w2 G2,
    Enqueue h el pr w = Ok (Some a, w1) ∧ a ∉ G h ∧
    (∀ fuel, (n ≤ fuel)%nat → DequeueMin fuel h w1 = Ok (Some a, w2)) ∧
    reach (ops ++ [OEnqueue h el pr; ODequeueMin h]) w2 G2 ∧ (∀ g, G2 g = G g) ∧
    hsize w2 h = hsize w h.
Proof.
  intros Hr Hh Hpr Hbd Hlt. pose proof (reach_WInv _ _ _ Hr) as HW.
  destruct (wi_heap _ _ HW h Hh) as (R & K & HH).
  pose proof (WInv_size w G h HW) as Hsz.
  destruct (Enqueue_spec w h (G h) R K el pr HH Hpr ltac:(lia)) as
    (w1 & R1 & Hrun1 & HH1 & _ & HPri & HPria & _ & _ & Hal & _ & Hfha).
  set (a := fresh (dom (entries w))) in *.
  assert (HaG : a ∉ G h).
  { intros Ha. apply (fresh_not_allocd w). by eapply WInv_alloc. }
  destruct (min_correct w1 h _ R1 _ HH1 ltac:(set_solver)) as
    (m & Hm & Hmin & _ & n & w2 & R2 & K2 & Hrun2 & HH2 & _).
  assert (m = a) as ->.
  { destruct (decide (m = a)) as [|Hma]; [done|]. exfalso.
    assert (HmG : m ∈ G h) by set_solver.
    specialize (Hmin a ltac:(set_solver)). unfold pri_le in Hmin.
    rewrite HPria, (HPri m Hma) in Hmin.
    pose proof (Hlt m HmG) as Hlt'.
    destruct pr, (vPri w m); simpl in *; try done.
    apply Z.leb_le in Hmin. apply Z.ltb_lt in Hlt'. lia. }
  assert (Hr1 : reach (ops ++ [OEnqueue h el pr]) w1 (<[h := G h ∪ opt_set (Some a)]> G)).
  { eapply reach_snoc; [done|]. by apply step_Enqueue. }
  assert (Hh1 : halloc w1 h) by (by apply Hfha).
  exists a, w1, n, w2. eexists. split_and!; [done..| | |].
  - replace (ops ++ [OEnqueue h el pr; ODequeueMin h])
      with ((ops ++ [OEnqueue h el pr]) ++ [ODequeueMin h]) by (by rewrite <- app_assoc).
    eapply reach_snoc; [exact Hr1|].
    apply (step_DequeueMin _ _ h n (Some a) w2 Hh1). by apply Hrun2.
  - intros g. destruct (decide (g = h)) as [->|Hg]; fn_simpl; [|done].
    simpl. set_solver.
  - rewrite (hi_size _ _ _ _ _ HH2), (hi_size _ _ _ _ _ HH). do 2 f_equal. set_solver.
Qed.

(** X15: [DecreaseKey] of an entry to a priority that is at most every priority
    in the heap makes it the heap's minimum: [Min] and the next [DequeueMin]
    return that very entry, also when the priority ties with others. *)
Theorem DecreaseKey_to_least ops w G h e p :
  reach ops w G → e ∈ G h → (∀ x, x ∈ G h → f_leb p (vPri w x) = true) →
  ∃ n w',
    (∀ fuel, (n ≤ fuel)%nat → DecreaseKey fuel h (Some e) p w = Ok (None, w')) ∧
    Min h w' = Ok (Some e, w') ∧
    ∃ n' w'', ∀ fuel, (n' ≤ fuel)%nat → DequeueMin fuel h w' = Ok (Some e, w'').
Proof.
  intros Hr He Hle. destruct (reach_member _ _ _ _ _ Hr He) as (R & K & HH).
  destruct (DecreaseKey_ok w h (G h) R K e p HH He (Hle e He)) as [n Hn].
  destruct (Hn n (le_n _)) as (w' & R' & K' & Hrun & HH' & _ & _ & Hmin).
  specialize (Hmin Hle).
  assert (Hhd : list.head R' = Some e) by (by rewrite <- (hi_min _ _ _ _ _ HH')).
  exists n, w'. split_and!.
  - intros fuel Hfuel. eapply le_run_Ok; [|exact Hrun]. by apply DecreaseKey_mono.
  - by rewrite (HeapInv_Min _ _ _ _ _ HH'), Hhd.
  - destruct (DequeueMin_spec w' h (G h) R' K' HH') as [n' Hn'].
    destruct (Hn' n' (le_n _)) as (w'' & _ & _ & Hrun' & _). rewrite Hhd in Hrun'.
    exists n', w''. intros fuel Hfuel. eapply le_run_Ok; [|exact Hrun'].
    by apply DequeueMin_mono.
Qed.

(** X16: [DecreaseKey] does not reject NaN: [NaN > e.Priority] is false, so for
    an entry of a heap in a reachable state it returns nil and overwrites
    the priority with NaN; since every comparison with NaN is false, nothing
    is cut and [min] stays: no other field changes. *)
Theorem DecreaseKey_NaN ops w G h e fuel :
  reach ops w G → e ∈ G h →
  DecreaseKey fuel h (Some e) NaN w = Ok (None, upd e (with_Priority NaN) w).
Proof.
  intros Hr He. destruct (reach_member _ _ _ _ _ Hr He) as (R & K & HH).
  pose proof (hi_inv _ _ _ _ _ HH) as HI.
  assert (Hae : allocd w e) by (by apply (hi_alloc _ _ _ _ _ HH)).
  destruct (HeapInv_min w h (G h) R K HH ltac:(set_solver)) as (m & Hhd & Hm & _).
  assert (Ham : allocd w m) by (by apply (hi_alloc _ _ _ _ _ HH)).
  assert (Hmin : hmin w h = Some m) by (by rewrite (hi_min _ _ _ _ _ HH)).
  assert (Hh : halloc w h) by apply HH.
  assert (Hgt : f_gtb NaN (vPri w e) = false) by (unfold f_gtb; by destruct (vPri w e)).
  unfold DecreaseKey, checkPriority, decreaseKeyUnchecked. run. rewrite Hgt.
  run. destruct (vPar w e) as [p|] eqn:HP.
  - assert (Hap : allocd w p).
    { apply (hi_alloc _ _ _ _ _ HH). by apply (inv_par HI e p). }
    run. simpl. run. simpl. run. done.
  - run. simpl. run. done.
Qed.

(** X1: [mergeLists] on the heads of two disjoint rings: the two rings become
    one ring holding the entries of both; the result is the first head if
    its priority is strictly smaller, the second head otherwise (nil and a
    head give that head, unchanged state); entries outside the two rings
    are untouched and the entries of the rings change in [next] and [prev]
    only. *)
Theorem mergeLists_splice w R1 R2 :
  ring (vN w) (vP w) R1 → ring (vN w) (vP w) R2 →
  (∀ x, x ∈ R1 → x ∉ R2) → (∀ x, x ∈ R1 ++ R2 → allocd w x) →
  ∃ w' R',
    mergeLists (list.head R1) (list.head R2) w =
      Ok (match list.head R1, list.head R2 with
          | Some one, Some two =>
              if f_ltb (vPri w one) (vPri w two) then Some one else Some two
          | Some one, None => Some one
          | None, two => two
          end, w') ∧
    ring (vN w') (vP w') R' ∧ R' ≡ₚ R1 ++ R2 ∧
    (∀ x, x ∉ R1 ++ R2 → entries w' !! x = entries w !! x) ∧
    evolves (λ _, same_but_links) w w'.
Proof.
  intros Hr1 Hr2 Hdisj Hal.
  destruct (mergeLists_rings w (list_to_set (R1 ++ R2)) 0%nat R1 R2 Hr1 Hr2 Hdisj) as
    (w' & R' & Hrun & Hr' & HR' & _ & _ & Hfo & _ & Hlen).
  { intros x Hx. split; [by apply Hal|]. by apply elem_of_list_to_set. }
  exists w', R'. split_and!.
  - rewrite Hrun. f_equal. f_equal.
    destruct R1 as [|one A], R2 as [|two B]; cbn [list.head] in Hrun |- *.
    + revert Hrun. by intros [= -> _].
    + revert Hrun. by intros [= -> _].
    + revert Hrun. by intros [= -> _].
    + destruct (ring_next_in _ _ _ one Hr1) as (on & Hon & HNon); [left|].
      destruct (ring_next_in _ _ _ two Hr2) as (tn & Htn & HNtn); [left|].
      rewrite (mergeLists_run w one two on tn) in Hrun; [by injection Hrun as ->|..|done|done];
        apply Hal; set_solver.
  - done.
  - apply NoDup_Permutation.
    + by eapply ring_NoDup.
    + apply list.NoDup_app. split_and!; [by eapply ring_NoDup|done|by eapply ring_NoDup].
    + intros x. rewrite HR', elem_of_app. done.
  - intros x Hx. apply Hfo. by rewrite elem_of_list_to_set.
  - by apply (mergeLists_preserves _ _ _ same_but_links_link_rel _ _ _ Hrun).
Qed.

Lemma evolves_fld {A} (d : A) (fld : Entry → A) Q w w' x :
  evolves Q w w' → (∀ a e e', Q a e e' → fld e' = fld e) → allocd w x →
  fld_of d fld w' x = fld_of d fld w x.
Proof.
  intros Hev HQ [e He]%elem_of_dom. destruct (Hev x e He) as (e' & He' & Hq).
  unfold fld_of. rewrite He, He'. simpl. by eapply HQ.
Qed.

Lemma enqueue_all_spec h : ∀ items ops w G,
  reach ops w G → halloc w h → Forall (λ it, it.2 ≠ NaN) items →
  Z.of_nat (size (dom (entries w))) + Z.of_nat (length items) < int_lim →
  ∃ es w' ops' G',
    enqueue_all h items w = Ok (tt, w') ∧ reach ops' w' G' ∧ halloc w' h ∧
    NoDup es ∧ (∀ e, e ∈ es → ¬ allocd w e) ∧ G' h = G h ∪ list_to_set es ∧
    (vEl w' <$> es) = items.*1 ∧ (vPri w' <$> es) = items.*2 ∧
    (∀ x, allocd w x → allocd w' x ∧ vEl w' x = vEl w x ∧ vPri w' x = vPri w x).
Proof.
  induction items as [|[el pr] items IH]; intros ops w G Hr Hh Hnan Hbd.
  - exists [], w, ops, G. split_and!; try done.
    + constructor.
    + by intros e ?%elem_of_nil.
    + simpl. set_solver.
  - pose proof (Forall_inv Hnan) as Hpr. apply Forall_inv_tail in Hnan. simpl in Hpr.
    pose proof (reach_WInv _ _ _ Hr) as HW.
    destruct (wi_heap _ _ HW h Hh) as (R & K & HH).
    pose proof (WInv_size w G h HW) as Hsz. simpl length in Hbd.
    destruct (Enqueue_spec w h (G h) R K el pr HH Hpr ltac:(lia)) as
      (w1 & R1 & Hrun1 & HH1 & _ & _ & _ & _ & _ & Hal & _ & Hfha).
    set (a := fresh (dom (entries w))) in *.
    assert (Ha : ¬ allocd w a) by apply fresh_not_allocd.
    destruct (Enqueue_effect _ _ _ _ _ _ Hrun1) as
      (a' & [= <-] & _ & (e & He & HeE & HeP & _) & Hev & Hdom & _).
    assert (Hr1 : reach (ops ++ [OEnqueue h el pr]) w1 (<[h := G h ∪ opt_set (Some a)]> G)).
    { eapply reach_snoc; [done|]. apply step_Enqueue; try done. lia. }
    assert (Hbd1 : Z.of_nat (size (dom (entries w1))) + Z.of_nat (length items) < int_lim).
    { rewrite Hdom. rewrite size_union by (unfold allocd in Ha; set_solver).
      rewrite size_singleton. lia. }
    destruct (IH _ w1 _ Hr1 ltac:(by apply Hfha) Hnan Hbd1) as
      (es & w' & ops' & G' & Hrun & Hr' & Hh' & Hnd & Hfr & HG' & HEl & HPri & Hold).
    assert (Haa : allocd w1 a) by (apply Hal; by left).
    exists (a :: es), w', ops', G'. split_and!.
    + cbn [enqueue_all]. simpl. by rewrite (bind_run _ _ _ _ _ Hrun1).
    + done.
    + done.
    + apply list.NoDup_cons. split; [|done]. intros Hin. by apply (Hfr a).
    + intros x [->|Hx]%elem_of_cons; [done|]. intros Hxa. apply (Hfr x Hx). apply Hal. by right.
    + rewrite HG'. fn_simpl. simpl. set_solver.
    + simpl. f_equal; [|done]. destruct (Hold a Haa) as (_ & -> & _).
      unfold fld_of. by rewrite He.
    + simpl. f_equal; [|done]. destruct (Hold a Haa) as (_ & _ & ->).
      unfold fld_of. by rewrite He.
    + intros x Hx. assert (Hx1 : allocd w1 x) by (apply Hal; by right).
      destruct (Hold x Hx1) as (? & -> & ->). split_and!; [done| |].
      * eapply evolves_fld; [exact Hev| |done]. by intros ? ? ? (_ & _ & _ & _ & ? & _).
      * eapply evolves_fld; [exact Hev| |done]. by intros ? ? ? (_ & _ & _ & _ & _ & ?).
Qed.

Lemma drain_print_spec n : ∀ w f L R K,
  size L = n → HeapInv w f L R K →
  ∃ m l w',
    (∀ k fuel, (m ≤ k)%nat → (m ≤ fuel)%nat →
       drain_print k fuel f w = Ok (vEl w <$> l, w')) ∧
    l ≡ₚ elements L ∧ StronglySorted (pri_le w) l.
Proof.
  induction n as [|n IH]; intros w f L R K Hsz HH.
  - apply size_empty_inv in Hsz. apply leibniz_equiv in Hsz. subst L.
    assert (R = []) as ->.
    { destruct R as [|r R0]; [done|]. destruct HH as [_ _ _ _ _ HI].
      pose proof (inv_root_in HI r ltac:(left)). set_solver. }
    destruct (DequeueMin_spec w f ∅ [] K HH) as [n1 Hn1].
    destruct (Hn1 n1 (le_n _)) as (w1 & R1 & K1 & Hrun1 & _).
    exists (S n1), [], w1. split_and!.
    + intros k fuel Hk Hfuel. destruct k as [|k]; [lia|]. cbn [drain_print].
      rewrite (bind_run _ _ _ _ _ (le_run_Ok _ _ _ _
        (DequeueMin_mono n1 fuel f ltac:(lia)) Hrun1)). done.
    + by rewrite elements_empty.
    + constructor.
  - assert (HLne : L ≠ ∅).
    { intros ->. by rewrite size_empty in Hsz. }
    destruct (HeapInv_min w f L R K HH HLne) as (r & Hhd & HrL & Hmin).
    destruct (DequeueMin_spec w f L R K HH) as [n1 Hn1].
    destruct (Hn1 n1 (le_n _)) as (w1 & R1 & K1 & Hrun1 & HH1 & _ & HPri1 & _ & Hfo1).
    rewrite Hhd in Hrun1, HH1. simpl in HH1.
    destruct (DequeueMin_frame _ _ _ _ _ Hrun1) as (Hev & _ & _).
    assert (HEl : ∀ x, allocd w x → vEl w1 x = vEl w x).
    { intros x Hx. eapply evolves_fld; [exact Hev| |done]. by intros ? ? ? (? & _). }
    assert (Hsz1 : size (L ∖ {[r]}) = n).
    { rewrite size_difference by set_solver. rewrite size_singleton. lia. }
    destruct (IH w1 f _ R1 K1 Hsz1 HH1) as (m & l & w' & Hrun & Hperm & Hsort).
    assert (Har : allocd w r) by (by apply (hi_alloc _ _ _ _ _ HH)).
    assert (Har1 : allocd w1 r) by (by apply Hfo1).
    exists (S (n1 `max` m)), (r :: l), w'. split_and!.
    + intros k fuel Hk Hfuel. destruct k as [|k]; [lia|]. cbn [drain_print].
      rewrite (bind_run _ _ _ _ _ (le_run_Ok _ _ _ _
        (DequeueMin_mono n1 fuel f ltac:(lia)) Hrun1)).
      rewrite (bind_load EmptyString Element) by done.
      rewrite (bind_run _ _ _ _ _ (Hrun k fuel ltac:(lia) ltac:(lia))).
      unfold ret. do 2 f_equal. cbn [fmap list_fmap]. f_equal; [by apply HEl|].
      apply list_fmap_ext. intros i x Hx. apply HEl. apply (hi_alloc _ _ _ _ _ HH).
      assert (x ∈ l) as Hxl by (by eapply list_elem_of_lookup_2).
      rewrite Hperm in Hxl. apply elem_of_elements in Hxl. set_solver.
    + rewrite Hperm. symmetry. rewrite (union_difference_singleton_L r L HrL) at 1.
      apply elements_union_singleton. set_solver.
    + constructor.
      * clear -Hsort HPri1. induction Hsort as [|a l' Hs IHs Hall]; constructor; [done|].
        revert Hall. apply Forall_impl. intros b. unfold pri_le. by rewrite HPri1.
      * apply list.Forall_forall. intros x Hx. apply Hmin.
        rewrite Hperm in Hx. apply elem_of_elements in Hx. set_solver.
Qed.

Lemma fmap_pair_eq {A B C} (f : A → B) (g : A → C) : ∀ (es : list A) (items : list (B * C)),
  f <$> es = items.*1 → g <$> es = items.*2 → (λ e, (f e, g e)) <$> es = items.
Proof.
  induction es as [|e es IH]; intros [|[b c] items]; simpl; try done.
  intros [= -> H1] [= -> H2]. f_equal. by apply IH.
Qed.

Lemma StronglySorted_fmap_pri w (l : list nat) :
  StronglySorted (pri_le w) l →
  StronglySorted (λ x y : string * float64, f_leb x.2 y.2 = true)
    ((λ e, (vEl w e, vPri w e)) <$> l).
Proof.
  induction 1 as [|a l Hs IH Hall]; simpl; constructor; [done|].
  apply list.Forall_fmap. revert Hall. apply Forall_impl. by intros b.
Qed.

(** X17: The example program sorts: started in any reachable state with items
    whose priorities are not NaN, it prints the elements of the items in
    non-decreasing order of their priorities, each item once. *)
Theorem Example_fHeap_sorts ops w G items :
  reach ops w G → Forall (λ it, it.2 ≠ NaN) items →
  Z.of_nat (size (dom (entries w))) + Z.of_nat (length items) < int_lim →
  ∃ n out w' sorted,
    (∀ k fuel, (n ≤ k)%nat → (n ≤ fuel)%nat →
       Example_fHeap items k fuel w = Ok (out, w')) ∧
    sorted ≡ₚ items ∧
    StronglySorted (λ x y : string * float64, f_leb x.2 y.2 = true) sorted ∧
    out = sorted.*1.
Proof.
  intros Hr Hnan Hbd. pose proof (reach_WInv _ _ _ Hr) as HW.
  set (h := fresh (dom (heaps w))).
  set (w0 := hins h (mkFibHeap None 0) w).
  assert (Hh : ¬ halloc w h) by apply is_fresh.
  assert (HG : G h = ∅) by (by apply (wi_none _ _ HW)).
  assert (Hr0 : reach (ops ++ [ONew]) w0 G).
  { eapply reach_snoc; [done|]. by apply (step_New w G h w0). }
  assert (Hh0 : halloc w0 h) by (unfold w0; rewrite halloc_hins; by left).
  destruct (enqueue_all_spec h items _ w0 G Hr0 Hh0 Hnan Hbd) as
    (es & w1 & ops' & G' & Hrun1 & Hr1 & Hh1 & Hnd & _ & HG' & HEl & HPri & _).
  destruct (reach_heap _ _ _ _ Hr1 Hh1) as (R & K & HH).
  destruct (drain_print_spec _ w1 h _ R K eq_refl HH) as (n & l & w' & Hrun & Hperm & Hsort).
  exists n, (vEl w1 <$> l), w', ((λ e, (vEl w1 e, vPri w1 e)) <$> l). split_and!.
  - intros k fuel Hk Hfuel. unfold Example_fHeap. rewrite bind_NewFibHeap.
    fold h. fold w0. rewrite (bind_run _ _ _ _ _ Hrun1). by apply Hrun.
  - rewrite Hperm, HG', HG, union_empty_l_L.
    rewrite elements_list_to_set by done. by rewrite (fmap_pair_eq _ _ es items).
  - by apply StronglySorted_fmap_pri.
  - rewrite <- list_fmap_compose. done.
Qed.

Lemma dequeue_n_spec n : ∀ w f L R K,
  HeapInv w f L R K →
  ∃ m w' L' R' K',
    (∀ fuel, (m ≤ fuel)%nat → dequeue_n n fuel f w = Ok (tt, w')) ∧
    HeapInv w' f L' R' K' ∧ L' ⊆ L ∧ size L' = (size L - n)%nat.
Proof.
  induction n as [|n IH]; intros w f L R K HH.
  - exists 0%nat, w, L, R, K. split_and!; [done..|lia].
  - destruct (DequeueMin_spec w f L R K HH) as [n1 Hn1].
    destruct (Hn1 n1 (le_n _)) as (w1 & R1 & K1 & Hrun1 & HH1 & _).
    destruct (IH w1 f _ R1 K1 HH1) as (m & w' & L' & R' & K' & Hrun & HH' & Hsub & Hsz).
    exists (n1 `max` m)%nat, w', L', R', K'. split_and!; [|done|set_solver|].
    + intros fuel Hfuel. cbn [dequeue_n].
      rewrite (bind_run _ _ _ _ _ (le_run_Ok _ _ _ _
        (DequeueMin_mono n1 fuel f ltac:(lia)) Hrun1)).
      apply Hrun. lia.
    + rewrite Hsz. destruct R as [|r R0]; simpl.
      * apply HeapInv_nil in HH as ->. rewrite difference_empty_L, size_empty. lia.
      * assert (r ∈ L) by (apply (inv_root_in (hi_inv _ _ _ _ _ HH)); left).
        rewrite size_difference by set_solver. rewrite size_singleton. lia.
Qed.

(** X18: Calling [DequeueMin] [n] times in a reachable state leaves
    [Len - n] entries, or none when the heap had fewer than [n]: the calls
    on the empty heap change nothing. *)
Theorem dequeue_n_len ops w G h n :
  reach ops w G → halloc w h →
  ∃ m w',
    (∀ fuel, (m ≤ fuel)%nat → dequeue_n n fuel h w = Ok (tt, w')) ∧
    Len h w' = Ok (Z.of_nat (size (G h) - n), w').
Proof.
  intros Hr Hh. destruct (reach_heap _ _ _ _ Hr Hh) as (R & K & HH).
  destruct (dequeue_n_spec n w h _ R K HH) as (m & w' & L' & R' & K' & Hrun & HH' & _ & Hsz).
  exists m, w'. split; [done|]. by rewrite (HeapInv_Len _ _ _ _ _ HH'), Hsz.
Qed.

Ltac ex_alloc := unfold allocd; apply (bool_decide_unpack _); vm_compute; exact I.

Lemma ex_ring1 : ring (vN ex_w6) (vP ex_w6) [1%nat].
Proof. apply ring_singleton. split; vm_compute; reflexivity. Qed.

Lemma ex_ring2 : ring (vN ex_w6) (vP ex_w6) [2%nat].
Proof. apply ring_singleton. split; vm_compute; reflexivity. Qed.

Lemma mergeLists_splice_witness :
  ring (vN ex_w6) (vP ex_w6) [1%nat] ∧ ring (vN ex_w6) (vP ex_w6) [2%nat] ∧
  (∀ x, x ∈ [1%nat] → x ∉ [2%nat]) ∧ (∀ x, x ∈ [1%nat] ++ [2%nat] → allocd ex_w6 x) ∧
  ∃ w' R',
    mergeLists (list.head [1%nat]) (list.head [2%nat]) ex_w6 =
      Ok (match list.head [1%nat], list.head [2%nat] with
          | Some one, Some two =>
              if f_ltb (vPri ex_w6 one) (vPri ex_w6 two) then Some one else Some two
          | Some one, None => Some one
          | None, two => two
          end, w') ∧
    ring (vN w') (vP w') R' ∧ R' ≡ₚ [1%nat] ++ [2%nat] ∧
    (∀ x, x ∉ [1%nat] ++ [2%nat] → entries w' !! x = entries ex_w6 !! x) ∧
    evolves (λ _, same_but_links) ex_w6 w'.
Proof.
  assert (H3 : ∀ x, x ∈ [1%nat] → x ∉ [2%nat]).
  { intros x Hx%list_elem_of_singleton Hx'%list_elem_of_singleton. congruence. }
  assert (H4 : ∀ x, x ∈ [1%nat] ++ [2%nat] → allocd ex_w6 x).
  { intros x [->%list_elem_of_singleton| ->%list_elem_of_singleton]%elem_of_app; ex_alloc. }
  split_and!; [exact ex_ring1|exact ex_ring2|exact H3|exact H4|].
  exact (mergeLists_splice ex_w6 [1%nat] [2%nat] ex_ring1 ex_ring2 H3 H4).
Defined.

Lemma ex_enqueue : Enqueue 0%nat "a" (Fin 1) ex_w2 = Ok (Some 0%nat, ex_w3).
Proof. vm_compute. reflexivity. Qed.

Lemma Enqueue_effect_witness :
  Enqueue 0%nat "a" (Fin 1) ex_w2 = Ok (Some 0%nat, ex_w3) ∧
  ∃ a, Some 0%nat = Some a ∧ entries ex_w2 !! a = None ∧
    (∃ e, entries ex_w3 !! a = Some e ∧ Element e = "a"%string ∧ Priority e = Fin 1 ∧
          marked e = false ∧ degree e = 0 ∧ parent e = None ∧ child e = None) ∧
    evolves (λ _, same_but_links) ex_w2 ex_w3 ∧
    dom (entries ex_w3) = {[a]} ∪ dom (entries ex_w2) ∧
    hframe 0%nat ex_w2 ex_w3 ∧ dom (heaps ex_w3) = dom (heaps ex_w2).
Proof.
  split; [exact ex_enqueue|].
  exact (Enqueue_effect 0%nat "a" (Fin 1) ex_w2 (Some 0%nat) ex_w3 ex_enqueue).
Defined.

Lemma Enqueue_min_choice_witness :
  reach ex_ops ex_w6 ex_G6 ∧ halloc ex_w6 0%nat ∧
  ∃ a w', Enqueue 0%nat "d" NaN ex_w6 = Ok (Some a, w') ∧ vPri w' a = NaN ∧
    Min 0%nat w' = Ok (match hmin ex_w6 0%nat with
                       | None => Some a
                       | Some r => if f_ltb (vPri ex_w6 r) NaN then Some r else Some a
                       end, w').
Proof.
  assert (H1 : halloc ex_w6 0%nat) by ex_halloc.
  split_and!; [exact ex_reach|exact H1|].
  exact (Enqueue_min_choice ex_ops ex_w6 ex_G6 0%nat "d" NaN ex_reach H1).
Defined.

Lemma ex_dequeue : DequeueMin 5 0%nat ex_w5 = Ok (Some 0%nat, ex_w6).
Proof. vm_compute. reflexivity. Qed.

Lemma DequeueMin_frame_witness :
  DequeueMin 5 0%nat ex_w5 = Ok (Some 0%nat, ex_w6) ∧
  evolves (λ _, same_payload) ex_w5 ex_w6 ∧ same_dom ex_w5 ex_w6 ∧ hframe 0%nat ex_w5 ex_w6.
Proof.
  split; [exact ex_dequeue|].
  exact (DequeueMin_frame 5 0%nat ex_w5 (Some 0%nat) ex_w6 ex_dequeue).
Defined.

Lemma ex_decrease : DecreaseKey 5 0%nat (Some 2%nat) (Fin 0) ex_w6 = Ok (None, ex_w7).
Proof. vm_compute. reflexivity. Qed.

Lemma DecreaseKey_frame_witness :
  DecreaseKey 5 0%nat (Some 2%nat) (Fin 0) ex_w6 = Ok (None, ex_w7) ∧
  (None = Some ErrorExceedsPriority → ex_w7 = ex_w6) ∧
  (@None error = None → ∃ x', entries ex_w7 !! 2%nat = Some x' ∧ Priority x' = Fin 0) ∧
  evolves (same_elem_but 2%nat) ex_w6 ex_w7 ∧ same_dom ex_w6 ex_w7 ∧ hframe 0%nat ex_w6 ex_w7.
Proof.
  split; [exact ex_decrease|].
  exact (DecreaseKey_frame 5 0%nat 2%nat (Fin 0) ex_w6 None ex_w7 ex_decrease).
Defined.

Lemma ex_delete : Delete 5 0%nat (Some 2%nat) ex_w6 = Ok (tt, ex_w8).
Proof. vm_compute. reflexivity. Qed.

Lemma Delete_frame_witness :
  Delete 5 0%nat (Some 2%nat) ex_w6 = Ok (tt, ex_w8) ∧
  evolves (same_elem_but 2%nat) ex_w6 ex_w8 ∧ same_dom ex_w6 ex_w8 ∧ hframe 0%nat ex_w6 ex_w8.
Proof.
  split; [exact ex_delete|].
  exact (Delete_frame 5 0%nat 2%nat ex_w6 ex_w8 ex_delete).
Defined.

Lemma ex_merge : MergeFibHeap 0%nat 1%nat ex_w6 = Ok (2%nat, ex_w9).
Proof. vm_compute. reflexivity. Qed.

Lemma MergeFibHeap_frame_witness :
  halloc ex_w6 0%nat ∧ halloc ex_w6 1%nat ∧
  MergeFibHeap 0%nat 1%nat ex_w6 = Ok (2%nat, ex_w9) ∧
  ¬ halloc ex_w6 2%nat ∧
  evolves (λ _, same_but_links) ex_w6 ex_w9 ∧ dom (entries ex_w9) = dom (entries ex_w6) ∧
  (∀ g, halloc ex_w9 g ↔ g = 2%nat ∨ halloc ex_w6 g) ∧
  (∀ g, g ≠ 0%nat → g ≠ 1%nat → g ≠ 2%nat → heaps ex_w9 !! g = heaps ex_w6 !! g) ∧
  hmin ex_w9 0%nat = None ∧ hsize ex_w9 0%nat = 0 ∧
  hmin ex_w9 1%nat = None ∧ hsize ex_w9 1%nat = 0 ∧
  hsize ex_w9 2%nat = int_add (hsize ex_w6 0%nat) (hsize ex_w6 1%nat).
Proof.
  assert (H1 : halloc ex_w6 0%nat) by ex_halloc.
  assert (H2 : halloc ex_w6 1%nat) by ex_halloc.
  split_and!; [exact H1|exact H2|exact ex_merge|..];
    apply (MergeFibHeap_frame 0%nat 1%nat ex_w6 2%nat ex_w9 H1 H2 ex_merge).
Defined.

Lemma ex_member2 : 2%nat ∈ ex_G6 0%nat.
Proof. ex_halloc. Qed.

Lemma ex_halloc0 : halloc ex_w6 0%nat.
Proof. ex_halloc. Qed.

Lemma Len_counts_witness :
  reach ex_ops ex_w6 ex_G6 ∧ halloc ex_w6 0%nat ∧
  Len 0%nat ex_w6 = Ok (Z.of_nat (size (ex_G6 0%nat)), ex_w6).
Proof.
  split_and!; [exact ex_reach|exact ex_halloc0|].
  exact (Len_counts ex_ops ex_w6 ex_G6 0%nat ex_reach ex_halloc0).
Defined.

Lemma Min_nil_iff_empty_witness :
  reach ex_ops ex_w6 ex_G6 ∧ halloc ex_w6 0%nat ∧
  ∃ m, Min 0%nat ex_w6 = Ok (m, ex_w6) ∧
    (m = None ↔ ex_G6 0%nat = ∅) ∧ (hsize ex_w6 0%nat = 0 ↔ ex_G6 0%nat = ∅) ∧
    (∀ fuel r w', DequeueMin fuel 0%nat ex_w6 = Ok (r, w') → (r = None ↔ ex_G6 0%nat = ∅)) ∧
    (∀ x, m = Some x → x ∈ ex_G6 0%nat ∧ vPar ex_w6 x = None).
Proof.
  split_and!; [exact ex_reach|exact ex_halloc0|].
  exact (Min_nil_iff_empty ex_ops ex_w6 ex_G6 0%nat ex_reach ex_halloc0).
Defined.

Lemma rings_consistent_witness :
  reach ex_ops ex_w6 ex_G6 ∧ 2%nat ∈ ex_G6 0%nat ∧
  ∃ n p, vN ex_w6 2%nat = Some n ∧ vP ex_w6 n = Some 2%nat ∧
         vP ex_w6 2%nat = Some p ∧ vN ex_w6 p = Some 2%nat ∧
         n ∈ ex_G6 0%nat ∧ p ∈ ex_G6 0%nat ∧
         vPar ex_w6 n = vPar ex_w6 2%nat ∧ vPar ex_w6 p = vPar ex_w6 2%nat.
Proof.
  split_and!; [exact ex_reach|exact ex_member2|].
  exact (rings_consistent ex_ops ex_w6 ex_G6 0%nat 2%nat ex_reach ex_member2).
Defined.

Lemma ex_parent2 : vPar ex_w6 2%nat = Some 1%nat.
Proof. vm_compute. reflexivity. Qed.

Lemma heap_ordered_witness :
  reach ex_ops ex_w6 ex_G6 ∧ 2%nat ∈ ex_G6 0%nat ∧ vPar ex_w6 2%nat = Some 1%nat ∧
  1%nat ∈ ex_G6 0%nat ∧ 1%nat ≠ 2%nat ∧ pri_le ex_w6 1%nat 2%nat.
Proof.
  split_and!; [exact ex_reach|exact ex_member2|exact ex_parent2|..];
    apply (heap_ordered ex_ops ex_w6 ex_G6 0%nat 2%nat 1%nat ex_reach ex_member2 ex_parent2).
Defined.

Lemma ex_member1 : 1%nat ∈ ex_G6 0%nat.
Proof. ex_halloc. Qed.

Lemma degree_counts_children_witness :
  reach ex_ops ex_w6 ex_G6 ∧ 1%nat ∈ ex_G6 0%nat ∧
  vDeg ex_w6 1%nat =
    Z.of_nat (size (filter (λ x, vPar ex_w6 x = Some 1%nat) (ex_G6 0%nat))) ∧
  (vCh ex_w6 1%nat = None ↔ vDeg ex_w6 1%nat = 0) ∧
  (∀ c, vCh ex_w6 1%nat = Some c → c ∈ ex_G6 0%nat ∧ vPar ex_w6 c = Some 1%nat).
Proof.
  split_and!; [exact ex_reach|exact ex_member1|..];
    apply (degree_counts_children ex_ops ex_w6 ex_G6 0%nat 1%nat ex_reach ex_member1).
Defined.

Lemma DequeueMin_never_panics_witness :
  reach ex_ops5 ex_w5 ex_G5 ∧ halloc ex_w5 0%nat ∧ DequeueMin 1 0%nat ex_w5 ≠ Panic.
Proof.
  assert (H1 : halloc ex_w5 0%nat) by ex_halloc.
  split_and!; [exact ex_reach5|exact H1|].
  exact (DequeueMin_never_panics ex_ops5 ex_w5 ex_G5 0%nat 1 ex_reach5 H1).
Defined.

Lemma ex_below : ∀ x, x ∈ ex_G6 0%nat → f_ltb (Fin 0) (vPri ex_w6 x) = true.
Proof.
  intros x Hx. assert (x = 1%nat ∨ x = 2%nat) as [-> | ->].
  { revert Hx. unfold ex_G6, ex_G5, ex_G4, ex_G3, ex_G0. rewrite !fn_lookup_insert.
    simpl. set_solver. }
  - vm_compute. reflexivity.
  - vm_compute. reflexivity.
Qed.

Lemma ex_room : Z.of_nat (size (dom (entries ex_w6))) + 1 < int_lim.
Proof. vm_compute. reflexivity. Qed.

Lemma ex_not_nan : Fin 0 ≠ NaN.
Proof. discriminate. Qed.

Lemma Enqueue_then_DequeueMin_witness :
  reach ex_ops ex_w6 ex_G6 ∧ halloc ex_w6 0%nat ∧ Fin 0 ≠ NaN ∧
  Z.of_nat (size (dom (entries ex_w6))) + 1 < int_lim ∧
  (∀ x, x ∈ ex_G6 0%nat → f_ltb (Fin 0) (vPri ex_w6 x) = true) ∧
  ∃ a w1 n w2 G2,
    Enqueue 0%nat "d" (Fin 0) ex_w6 = Ok (Some a, w1) ∧ a ∉ ex_G6 0%nat ∧
    (∀ fuel, (n ≤ fuel)%nat → DequeueMin fuel 0%nat w1 = Ok (Some a, w2)) ∧
    reach (ex_ops ++ [OEnqueue 0%nat "d" (Fin 0); ODequeueMin 0%nat]) w2 G2 ∧
    (∀ g, G2 g = ex_G6 g) ∧ hsize w2 0%nat = hsize ex_w6 0%nat.
Proof.
  split_and!; [exact ex_reach|exact ex_halloc0|exact ex_not_nan|exact ex_room|exact ex_below|].
  exact (Enqueue_then_DequeueMin ex_ops ex_w6 ex_G6 0%nat "d" (Fin 0)
           ex_reach ex_halloc0 ex_not_nan ex_room ex_below).
Defined.

Lemma ex_least : ∀ x, x ∈ ex_G6 0%nat → f_leb (Fin 2) (vPri ex_w6 x) = true.
Proof.
  intros x Hx. assert (x = 1%nat ∨ x = 2%nat) as [-> | ->].
  { revert Hx. unfold ex_G6, ex_G5, ex_G4, ex_G3, ex_G0. rewrite !fn_lookup_insert.
    simpl. set_solver. }
  - vm_compute. reflexivity.
  - vm_compute. reflexivity.
Qed.

Lemma DecreaseKey_to_least_witness :
  reach ex_ops ex_w6 ex_G6 ∧ 2%nat ∈ ex_G6 0%nat ∧
  (∀ x, x ∈ ex_G6 0%nat → f_leb (Fin 2) (vPri ex_w6 x) = true) ∧
  ∃ n w',
    (∀ fuel, (n ≤ fuel)%nat →
       DecreaseKey fuel 0%nat (Some 2%nat) (Fin 2) ex_w6 = Ok (None, w')) ∧
    Min 0%nat w' = Ok (Some 2%nat, w') ∧
    ∃ n' w'', ∀ fuel, (n' ≤ fuel)%nat → DequeueMin fuel 0%nat w' = Ok (Some 2%nat, w'').
Proof.
  split_and!; [exact ex_reach|exact ex_member2|exact ex_least|].
  exact (DecreaseKey_to_least ex_ops ex_w6 ex_G6 0%nat 2%nat (Fin 2)
           ex_reach ex_member2 ex_least).
Defined.

Lemma DecreaseKey_NaN_witness :
  reach ex_ops ex_w6 ex_G6 ∧ 2%nat ∈ ex_G6 0%nat ∧
  DecreaseKey 0 0%nat (Some 2%nat) NaN ex_w6
    = Ok (None, upd 2%nat (with_Priority NaN) ex_w6).
Proof.
  split_and!; [exact ex_reach|exact ex_member2|].
  exact (DecreaseKey_NaN ex_ops ex_w6 ex_G6 0%nat 2%nat 0%nat ex_reach ex_member2).
Defined.

Lemma ex_items_ok : Forall (λ it : string * float64, it.2 ≠ NaN) ex_items.
Proof. repeat constructor; discriminate. Qed.

Lemma ex_items_room :
  Z.of_nat (size (dom (entries empty_world))) + Z.of_nat (length ex_items) < int_lim.
Proof. vm_compute. reflexivity. Qed.

Lemma Example_fHeap_sorts_witness :
  reach [] empty_world (λ _, ∅) ∧ Forall (λ it : string * float64, it.2 ≠ NaN) ex_items ∧
  Z.of_nat (size (dom (entries empty_world))) + Z.of_nat (length ex_items) < int_lim ∧
  ∃ n out w' sorted,
    (∀ k fuel, (n ≤ k)%nat → (n ≤ fuel)%nat →
       Example_fHeap ex_items k fuel empty_world = Ok (out, w')) ∧
    sorted ≡ₚ ex_items ∧
    StronglySorted (λ x y : string * float64, f_leb x.2 y.2 = true) sorted ∧
    out = sorted.*1.
Proof.
  split_and!; [exact reach_nil|exact ex_items_ok|exact ex_items_room|].
  exact (Example_fHeap_sorts [] empty_world (λ _, ∅) ex_items
           reach_nil ex_items_ok ex_items_room).
Defined.

Lemma dequeue_n_len_witness :
  reach ex_ops ex_w6 ex_G6 ∧ halloc ex_w6 0%nat ∧
  ∃ m w',
    (∀ fuel, (m ≤ fuel)%nat → dequeue_n 3 fuel 0%nat ex_w6 = Ok (tt, w')) ∧
    Len 0%nat w' = Ok (Z.of_nat (size (ex_G6 0%nat) - 3), w').
Proof.
  split_and!; [exact ex_reach|exact ex_halloc0|].
  exact (dequeue_n_len ex_ops ex_w6 ex_G6 0%nat 3 ex_reach ex_halloc0).
Defined.

Lemma bind_inv {A B} (c : M A) (k : A → M B) w r :
  bind c k w = Ok r → ∃ a w1, c w = Ok (a, w1) ∧ k a w1 = Ok r.
Proof. unfold bind. destruct (c w) as [[a w1]| |]; [|done..]. eauto. Qed.

Lemma load_inv {A} (d : A) (fld : Entry → A) p w x w' :
  load fld p w = Ok (x, w') → ∃ a, p = Some a ∧ allocd w a ∧ w' = w ∧ x = fld_of d fld w a.
Proof.
  unfold load, fld_of, allocd. destruct p as [a|]; [|done].
  destruct (entries w !! a) as [e|] eqn:He; [|done]. intros [= <- <-].
  exists a. split_and!; try done; [apply elem_of_dom; eauto|by rewrite He].
Qed.

Lemma store_inv u p w x w' :
  store u p w = Ok (x, w') → ∃ a, p = Some a ∧ allocd w a ∧ w' = upd a u w.
Proof.
  unfold store, allocd. destruct p as [a|]; [|done].
  destruct (entries w !! a) as [e|] eqn:He; [|done]. intros [= <- <-].
  exists a. split_and!; try done. apply elem_of_dom. eauto.
Qed.

Lemma hstore_inv u f w x w' : hstore u f w = Ok (x, w') → w' = hupd f u w.
Proof. unfold hstore. destruct (heaps w !! f); [|done]. by intros [= <- <-]. Qed.

Lemma hload_inv {A} (fld : FibHeap → A) f w x w' : hload fld f w = Ok (x, w') → w' = w.
Proof. unfold hload. destruct (heaps w !! f); [|done]. by intros [= <- <-]. Qed.

Lemma same_tree_refl w : same_tree w w.
Proof. done. Qed.

Lemma same_tree_trans w1 w2 w3 : same_tree w1 w2 → same_tree w2 w3 → same_tree w1 w3.
Proof.
  intros (A1 & A2 & A3 & A4) (B1 & B2 & B3 & B4). split_and!; try congruence.
  intros x. by rewrite B4, A4.
Qed.

Lemma same_tree_upd u a w :
  (∀ e, parent (u e) = parent e) → (∀ e, marked (u e) = marked e) →
  (∀ e, degree (u e) = degree e) → same_tree w (upd a u w).
Proof.
  intros H1 H2 H3. split_and!; try (by apply fld_of_upd_other).
  intros x. apply allocd_upd.
Qed.

Lemma same_tree_hupd f u w : same_tree w (hupd f u w).
Proof. done. Qed.

Lemma same_tree_link_rel : link_rel same_tree.
Proof.
  constructor; [apply same_tree_refl|apply same_tree_trans|..];
    intros; by apply same_tree_upd.
Qed.

Lemma tree_is_same w Mk Deg w1 w2 :
  tree_is w Mk Deg w1 → same_tree w1 w2 → tree_is w Mk Deg w2.
Proof.
  intros (A1 & A2 & A3 & A4) (B1 & B2 & B3 & B4). split_and!; try congruence.
  intros x. by rewrite B4, A4.
Qed.

Lemma same_tree_pres {A} (c : M A) w x w' :
  preserves same_tree c → c w = Ok (x, w') → same_tree w w'.
Proof. intros Hc. apply Hc. Qed.

Ltac st_load H d x Hx :=
  let a := fresh "a" in let Ea := fresh "Ea" in
  apply bind_inv in H as (x & ? & (a & Ea & _ & -> & Hx)%(load_inv d) & H).

Ltac st_par H T :=
  let q := fresh "q" in let Hq := fresh "Hq" in let a := fresh "a" in
  apply bind_inv in H as (q & ? & (a & [= <-] & _ & -> & Hq)%(load_inv (@None nat)) & H);
  rewrite (proj1 T) in Hq;
  match goal with Hp : Some _ = vPar _ _ |- _ => rewrite <- Hp in Hq end;
  subst q.

Ltac st_block H T :=
  let HB := fresh "HB" in
  apply bind_inv in H as (? & ? & HB & H);
  eapply tree_is_same in T; [clear HB|revert HB; apply same_tree_pres].

(** The body of [cutNode] up to its recursive call, in any state: only the
    mark of [e] and the degree of its parent change among the parents, marks
    and degrees. *)
Lemma cut_prefix_tree fuel f e w w' :
  cutNode (S fuel) f (Some e) w = Ok (tt, w') →
  allocd w e ∧
  match vPar w e with
  | None => w' = upd e (with_marked false) w
  | Some p =>
      ∃ w5 w6, allocd w p ∧
        tree_is w (<[e := false]> (vMk w)) (<[p := int_sub (vDeg w p) 1]> (vDeg w)) w5 ∧
        (if vMk w5 p then cutNode fuel f (Some p) w5 = Ok (tt, w6)
         else w6 = upd p (with_marked true) w5) ∧
        w' = upd e (with_parent None) w6
  end.
Proof.
  intros H. cbn [cutNode] in H.
  apply bind_inv in H as (? & w1 & (a & [= <-] & Hae & ->)%store_inv & H).
  split; [done|].
  apply bind_inv in H as (p0 & ? & (a & [= <-] & _ & -> & Hp0)%(load_inv None) & H).
  rewrite fld_of_upd_other in Hp0 by done. rewrite <- Hp0.
  destruct (decide (p0 = None)) as [->|Hne]; [by injection H as <-|].
  destruct p0 as [p|]; [clear Hne|done].
  set (w1 := upd e (with_marked false) w) in *.
  assert (T : tree_is w (<[e := false]> (vMk w)) (vDeg w) w1).
  { unfold w1. split_and!; vsimpl; try done. intros y. apply allocd_upd. }
  clearbody w1.
  pose proof same_tree_link_rel as [Hr Ht Hn Hp].
  assert (Hc : ∀ w a v, same_tree w (upd a (with_child v) w)).
  { intros. by apply same_tree_upd. }
  assert (Hm : ∀ a b, preserves same_tree (mergeLists a b)).
  { intros. apply mergeLists_preserves, same_tree_link_rel. }
  st_load H (@None nat) n Hn0. clear Hn0.
  st_block H T; [|pres].
  st_par H T. st_load H (@None nat) pc Hpc. clear Hpc.
  st_block H T; [|pres].
  st_par H T. st_load H 0 d Hd.
  match goal with E : Some p = Some ?b |- _ => injection E as <- end.
  rewrite (proj1 (proj2 (proj2 T))) in Hd. subst d.
  apply bind_inv in H as (? & ? & (? & [= <-] & Hap & ->)%store_inv & H).
  apply bind_inv in H as (? & ? & (? & [= <-] & Hae1 & ->)%store_inv & H).
  apply bind_inv in H as (? & ? & (? & [= <-] & Hae2 & ->)%store_inv & H).
  apply bind_inv in H as (m & ? & ->%hload_inv & H).
  apply bind_inv in H as (r & w4 & Hml%(same_tree_pres _ _ _ _ (Hm _ _)) & H).
  apply bind_inv in H as (? & ? & ->%hstore_inv & H).
  set (w5 := hupd f (with_min r) w4) in *.
  assert (T5 : tree_is w (<[e := false]> (vMk w))
                 (<[p := int_sub (vDeg w p) 1]> (vDeg w)) w5).
  { assert (T3 : tree_is w (<[e := false]> (vMk w))
                   (<[p := int_sub (vDeg w p) 1]> (vDeg w))
                   (upd p (with_degree (int_sub (vDeg w p) 1)) x3)).
    { destruct T as (A1 & A2 & A3 & A4). split_and!; vsimpl; try done.
      - by rewrite A3.
      - intros y. by rewrite allocd_upd. }
    eapply tree_is_same; [exact T3|].
    eapply Ht; [apply Hp|]. eapply Ht; [apply Hn|]. eapply Ht; [exact Hml|].
    apply same_tree_hupd. }
  assert (Hapw : allocd w p) by (by apply (proj2 (proj2 (proj2 T)))).
  clearbody w5. clear Hml T.
  st_par H T5. st_load H false pm Hpm.
  match goal with E : Some p = Some ?b |- _ => injection E as <- end.
  apply bind_inv in H as (? & w6 & H6 & H).
  apply store_inv in H as (? & [= <-] & _ & ->).
  exists w5, w6. split_and!; [done|done| |done].
  rewrite <- Hpm. destruct pm.
  - st_par H6 T5. repeat match goal with u : () |- _ => destruct u end. done.
  - st_par H6 T5. by apply store_inv in H6 as (? & [= <-] & _ & ->).
Qed.

Lemma fld_of_upd_ne {A} (d : A) (fld : Entry → A) a u w x :
  x ≠ a → fld_of d fld (upd a u w) x = fld_of d fld w x.
Proof. intros Hx. unfold fld_of. by rewrite entries_upd_ne. Qed.

Lemma vPar_upd_None e w : vPar (upd e (with_parent None) w) e = None.
Proof.
  unfold fld_of, upd; simpl. rewrite lookup_alter. case_decide; [|done].
  by destruct (entries w !! e).
Qed.

Ltac tsimp :=
  repeat first
    [ rewrite fld_of_upd_other by done
    | rewrite fld_of_upd_ne by done
    | rewrite vMk_upd by done ].

(** [cutNode] in any state in which it returns: the entry is a root
    afterwards; parents, marks and degrees change only on the entry and its
    ancestors; where the parent chain does not loop, the entry is unmarked
    with its degree kept, its parent has lost one child and has its mark
    flipped (set when it was clear; cleared by the cascading cut, which makes
    the parent a root, when it was set). *)
Lemma cutNode_tree fuel : ∀ f e w w',
  cutNode fuel f (Some e) w = Ok (tt, w') →
  vPar w' e = None ∧
  (∀ x, ¬ anc (vPar w) e x →
     vPar w' x = vPar w x ∧ vMk w' x = vMk w x ∧ vDeg w' x = vDeg w x) ∧
  ((∀ q, vPar w e = Some q → ¬ anc (vPar w) q e) →
     vMk w' e = false ∧ vDeg w' e = vDeg w e) ∧
  (∀ p, vPar w e = Some p → ¬ anc (vPar w) p e →
     (∀ q, vPar w p = Some q → ¬ anc (vPar w) q p) →
     vDeg w' p = int_sub (vDeg w p) 1 ∧ vMk w' p = negb (vMk w p) ∧
     (vMk w p = true → vPar w' p = None) ∧
     (vMk w p = false → ∀ x, x ≠ e →
        vPar w' x = vPar w x ∧ (x ≠ p → vMk w' x = vMk w x ∧ vDeg w' x = vDeg w x))).
Proof.
  induction fuel as [|fuel IH]; intros f e w w' H; [done|].
  apply cut_prefix_tree in H as [Hae H].
  destruct (vPar w e) as [p|] eqn:HP.
  - destruct H as (w5 & w6 & Hap & (TP & TM & TD & TA) & H6 & ->).
    assert (Hne : ∀ x, ¬ anc (vPar w) e x → x ≠ e ∧ x ≠ p ∧ ¬ anc (vPar w) p x).
    { intros x Hx. split_and!.
      - intros ->. apply Hx. constructor.
      - intros ->. apply Hx. eapply anc_step; [done|constructor].
      - intros Hx'. apply Hx. by eapply anc_step. }
    destruct (vMk w5 p) eqn:Hmk5.
    + apply IH in H6 as (I1 & I2 & I3 & _). rewrite TP in I2, I3.
      split_and!.
      * apply vPar_upd_None.
      * intros x (Hxe & Hxp & Hx)%Hne. destruct (I2 x Hx) as (J1 & J2 & J3).
        tsimp. rewrite J1, J2, J3, ?TP, TM, TD. by fn_simpl.
      * intros Hq. specialize (Hq p eq_refl).
        assert (p ≠ e) by (intros ->; apply Hq; constructor).
        destruct (I2 e Hq) as (_ & J2 & J3).
        tsimp. rewrite J2, J3, TM, TD. by fn_simpl.
      * intros p' [= <-] Hpe Hq.
        assert (p ≠ e) by (intros ->; apply Hpe; constructor).
        destruct (I3 Hq) as [J2 J3].
        rewrite TM in Hmk5. rewrite fn_lookup_insert_ne in Hmk5 by done.
        tsimp. rewrite J2, J3, TD, Hmk5. fn_simpl. split_and!; try done.
    + subst w6. rewrite <- TA in Hap, Hae.
      split_and!.
      * apply vPar_upd_None.
      * intros x (Hxe & Hxp & Hx)%Hne.
        tsimp. rewrite TP, TM, TD. by fn_simpl.
      * intros Hq. specialize (Hq p eq_refl).
        assert (p ≠ e) by (intros ->; apply Hq; constructor).
        tsimp. rewrite TM, TD. by fn_simpl.
      * intros p' [= <-] Hpe Hq.
        assert (p ≠ e) by (intros ->; apply Hpe; constructor).
        rewrite TM in Hmk5. rewrite fn_lookup_insert_ne in Hmk5 by done.
        tsimp. rewrite TD, Hmk5. fn_simpl. split_and!; try done.
        intros _ x Hxe. tsimp. rewrite TP. split; [done|].
        intros Hxp. tsimp. rewrite TM. by fn_simpl.
  - subst w'. split_and!.
    + by rewrite fld_of_upd_other.
    + intros x Hx. assert (x ≠ e) by (intros ->; apply Hx; constructor).
      by tsimp.
    + intros _. rewrite vMk_upd by done. fn_simpl. by rewrite fld_of_upd_other.
    + done.
Qed.

(** X19: A [DecreaseKey] that brings an entry of a reachable heap to or below the
    priority of its parent [p] cuts it: the call returns nil, the entry is a
    root afterwards, unmarked, with the degree it had; [p] has one child less
    and its mark flipped.  When [p] was marked the cut cascades and [p] is a
    root too; when [p] was unmarked, no other entry changes its parent and no
    entry but [p] its mark or degree. *)
Theorem DecreaseKey_cuts ops w G h e p newp :
  reach ops w G → e ∈ G h → vPar w e = Some p → f_leb newp (vPri w p) = true →
  ∃ n w',
    (∀ fuel, (n ≤ fuel)%nat → DecreaseKey fuel h (Some e) newp w = Ok (None, w')) ∧
    vPar w' e = None ∧ vMk w' e = false ∧ vDeg w' e = vDeg w e ∧
    vDeg w' p = vDeg w p - 1 ∧ vMk w' p = negb (vMk w p) ∧
    (vMk w p = true → vPar w' p = None) ∧
    (vMk w p = false → ∀ x, x ≠ e →
       vPar w' x = vPar w x ∧ (x ≠ p → vMk w' x = vMk w x ∧ vDeg w' x = vDeg w x)).
Proof.
  intros Hr He HP Hle. destruct (reach_member _ _ _ _ _ Hr He) as (R & K & HH).
  pose proof (hi_inv _ _ _ _ _ HH) as HI.
  assert (Hp : p ∈ G h) by (by apply (inv_par HI e p)).
  assert (Hae : allocd w e) by (by apply (hi_alloc _ _ _ _ _ HH)).
  assert (Hap : allocd w p) by (by apply (hi_alloc _ _ _ _ _ HH)).
  assert (Hord : f_leb (vPri w p) (vPri w e) = true) by (by apply (inv_ord HI)).
  assert (Hle' : f_leb newp (vPri w e) = true) by (by eapply f_leb_trans).
  destruct (inv_acyc HI e He) as [ne Hne]. destruct (inv_acyc HI p Hp) as [np Hnp].
  assert (Hpe : ¬ anc (vPar w) p e) by (by eapply reach_root_acyclic).
  assert (Hpp : ∀ q, vPar w p = Some q → ¬ anc (vPar w) q p).
  { intros q Hq. by eapply reach_root_acyclic. }
  assert (p ≠ e) by (intros ->; apply Hpe; constructor).
  destruct (DecreaseKey_ok w h (G h) R K e newp HH He Hle') as [n Hn].
  destruct (Hn n (le_n _)) as (w' & R' & K' & Hrun & _).
  exists n, w'. split.
  { intros fuel Hfuel. eapply le_run_Ok; [|exact Hrun]. by apply DecreaseKey_mono. }
  assert (Hgt : f_gtb newp (vPri w e) = false).
  { unfold f_gtb. destruct (f_ltb (vPri w e) newp) eqn:Hlt; [|done].
    by rewrite (f_leb_ltb_false _ _ _ (f_leb_refl _ (proj2 (f_leb_not_nan _ _ Hle'))) Hlt)
      in Hle'. }
  revert Hrun. unfold DecreaseKey, checkPriority, decreaseKeyUnchecked.
  run. rewrite Hgt. run. rewrite Hle. intros Hrun.
  apply bind_inv in Hrun as (? & w2 & Hcut & Hrun).
  assert (Htail : same_tree w2 w').
  { pose proof same_tree_link_rel as [Hrf Ht _ _].
    pose proof (same_tree_hupd h) as Hh.
    revert Hrun. apply same_tree_pres. pres. }
  destruct Htail as (EP & EM & ED & _). rewrite EP, EM, ED.
  match type of Hcut with _ = Ok (?u, _) => destruct u end.
  apply cutNode_tree in Hcut.
  assert (EP1 : vPar (upd e (with_Priority newp) w) = vPar w)
    by (by rewrite fld_of_upd_other).
  assert (EM1 : vMk (upd e (with_Priority newp) w) = vMk w)
    by (by rewrite fld_of_upd_other).
  assert (ED1 : vDeg (upd e (with_Priority newp) w) = vDeg w)
    by (by rewrite fld_of_upd_other).
  rewrite EP1, EM1, ED1 in Hcut. destruct Hcut as (C1 & C2 & C3 & C4).
  assert (Hqe : ∀ q, vPar w e = Some q → ¬ anc (vPar w) q e).
  { intros q Hq. rewrite HP in Hq. by injection Hq as <-. }
  destruct (C3 Hqe) as [C3a C3b].
  destruct (C4 p HP Hpe Hpp) as (C4a & C4b & C4c & C4d).
  assert (Hsub : int_sub (vDeg w p) 1 = vDeg w p - 1).
  { apply int_wrap_id. pose proof (inv_deg_bound _ _ _ _ _ _ _ _ _ _ p HI Hp) as Hd.
    rewrite (inv_deg HI p Hp) in *. lia. }
  rewrite Hsub in C4a. split_and!; try done.
Qed.

(** X20: A [DecreaseKey] that keeps the entry above its parent (or on a root)
    works in place, whatever the fuel: it returns nil, only the priority of
    the entry changes among all fields of all entries, and [min] moves to the
    entry exactly when the new priority is at most that of the old minimum. *)
Theorem DecreaseKey_in_place ops w G h e newp fuel :
  reach ops w G → e ∈ G h → f_leb newp (vPri w e) = true →
  (∀ p, vPar w e = Some p → f_leb newp (vPri w p) = false) →
  ∃ m w',
    hmin w h = Some m ∧
    DecreaseKey fuel h (Some e) newp w = Ok (None, w') ∧
    entries w' = entries (upd e (with_Priority newp) w) ∧
    hmin w' h = (if f_leb newp (vPri w m) then Some e else Some m) ∧
    hsize w' h = hsize w h ∧ hframe h w w'.
Proof.
  intros Hr He Hle Hnc. destruct (reach_member _ _ _ _ _ Hr He) as (R & K & HH).
  pose proof (hi_inv _ _ _ _ _ HH) as HI.
  assert (Hae : allocd w e) by (by apply (hi_alloc _ _ _ _ _ HH)).
  destruct (HeapInv_min w h (G h) R K HH ltac:(set_solver)) as (m & Hhd & Hm & _).
  assert (Ham : allocd w m) by (by apply (hi_alloc _ _ _ _ _ HH)).
  assert (Hmin : hmin w h = Some m) by (by rewrite (hi_min _ _ _ _ _ HH)).
  assert (Hh : halloc w h) by apply HH.
  assert (Hgt : f_gtb newp (vPri w e) = false).
  { unfold f_gtb. destruct (f_ltb (vPri w e) newp) eqn:Hlt; [|done].
    by rewrite (f_leb_ltb_false _ _ _ (f_leb_refl _ (proj2 (f_leb_not_nan _ _ Hle))) Hlt)
      in Hle. }
  assert (Hpm : f_leb newp (<[e := newp]> (vPri w) m) = f_leb newp (vPri w m)).
  { destruct (decide (m = e)) as [->|]; fn_simpl; [|done].
    rewrite Hle. apply f_leb_refl. by apply (f_leb_not_nan _ _ Hle). }
  exists m. unfold DecreaseKey, checkPriority, decreaseKeyUnchecked. run. rewrite Hgt.
  run. destruct (vPar w e) as [p|] eqn:HP.
  - assert (Hap : allocd w p).
    { apply (hi_alloc _ _ _ _ _ HH). by apply (inv_par HI e p). }
    assert (p ≠ e).
    { intros ->. rewrite (Hnc e eq_refl) in Hle. done. }
    run. simpl. run. rewrite (Hnc p eq_refl). run. simpl. run. rewrite Hpm.
    destruct (f_leb newp (vPri w m)); run; eexists; (split_and!; [done|reflexivity|..]);
      hsimpl; try done.
    + by intros g Hg; rewrite heaps_hupd_ne'.
  - run. simpl. run. rewrite Hpm.
    destruct (f_leb newp (vPri w m)); run; eexists; (split_and!; [done|reflexivity|..]);
      hsimpl; try done.
    + by intros g Hg; rewrite heaps_hupd_ne'.
Qed.

Lemma ex_below_parent : f_leb (Fin 0) (vPri ex_w6 1%nat) = true.
Proof. vm_compute. reflexivity. Qed.

Lemma DecreaseKey_cuts_witness :
  reach ex_ops ex_w6 ex_G6 ∧ 2%nat ∈ ex_G6 0%nat ∧ vPar ex_w6 2%nat = Some 1%nat ∧
  f_leb (Fin 0) (vPri ex_w6 1%nat) = true ∧
  ∃ n w',
    (∀ fuel, (n ≤ fuel)%nat →
       DecreaseKey fuel 0%nat (Some 2%nat) (Fin 0) ex_w6 = Ok (None, w')) ∧
    vPar w' 2%nat = None ∧ vMk w' 2%nat = false ∧ vDeg w' 2%nat = vDeg ex_w6 2%nat ∧
    vDeg w' 1%nat = vDeg ex_w6 1%nat - 1 ∧ vMk w' 1%nat = negb (vMk ex_w6 1%nat) ∧
    (vMk ex_w6 1%nat = true → vPar w' 1%nat = None) ∧
    (vMk ex_w6 1%nat = false → ∀ x, x ≠ 2%nat →
       vPar w' x = vPar ex_w6 x ∧
       (x ≠ 1%nat → vMk w' x = vMk ex_w6 x ∧ vDeg w' x = vDeg ex_w6 x)).
Proof.
  split_and!; [exact ex_reach|exact ex_member2|exact ex_parent2|exact ex_below_parent|].
  exact (DecreaseKey_cuts ex_ops ex_w6 ex_G6 0%nat 2%nat 1%nat (Fin 0)
           ex_reach ex_member2 ex_parent2 ex_below_parent).
Defined.

Lemma ex_root_le : f_leb (Fin 1) (vPri ex_w6 1%nat) = true.
Proof. vm_compute. reflexivity. Qed.

Lemma ex_root_no_parent :
  ∀ p, vPar ex_w6 1%nat = Some p → f_leb (Fin 1) (vPri ex_w6 p) = false.
Proof. intros p Hp. vm_compute in Hp. discriminate. Qed.

Lemma DecreaseKey_in_place_witness :
  reach ex_ops ex_w6 ex_G6 ∧ 1%nat ∈ ex_G6 0%nat ∧
  f_leb (Fin 1) (vPri ex_w6 1%nat) = true ∧
  (∀ p, vPar ex_w6 1%nat = Some p → f_leb (Fin 1) (vPri ex_w6 p) = false) ∧
  ∃ m w',
    hmin ex_w6 0%nat = Some m ∧
    DecreaseKey 0 0%nat (Some 1%nat) (Fin 1) ex_w6 = Ok (None, w') ∧
    entries w' = entries (upd 1%nat (with_Priority (Fin 1)) ex_w6) ∧
    hmin w' 0%nat = (if f_leb (Fin 1) (vPri ex_w6 m) then Some 1%nat else Some m) ∧
    hsize w' 0%nat = hsize ex_w6 0%nat ∧ hframe 0%nat ex_w6 w'.
Proof.
  split_and!; [exact ex_reach|exact ex_member1|exact ex_root_le|exact ex_root_no_parent|].
  exact (DecreaseKey_in_place ex_ops ex_w6 ex_G6 0%nat 1%nat (Fin 1) 0%nat
           ex_reach ex_member1 ex_root_le ex_root_no_parent).
Defined.
